(** * Pteros trajectory processor: frame filter, reader thread and dispatcher

    A shallow embedding of [src/analysis/trajectory_processor.cpp]:
    the frame filter ([is_frame_valid], [is_end_of_interval]), the reader
    thread ([reader_thread_body]) as a function from the trajectory files to
    the sequence of effects it performs, the sequential prologue of [run]
    and the threads of [run] as a transition system over message channels. *)

From Stdlib Require Import ZArith List Bool String Sorted Lia.
From Stdlib Require Import Floats.SpecFloat.
Import ListNotations.
Local Open Scope Z_scope.

(** ** C++ scalars *)

Module Cpp.

(** Ways in which a C++ expression has no defined value. *)
Inductive undefined_behaviour :=
| Division_by_zero
| Signed_overflow
| Null_dereference.

Inductive result (A : Type) :=
| Ok (a : A)
| Undefined (u : undefined_behaviour).
Arguments Ok {A} a.
Arguments Undefined {A} u.

Definition bind {A B} (r : result A) (k : A -> result B) : result B :=
  match r with
  | Ok a => k a
  | Undefined u => Undefined u
  end.

(** [a && b] and [a || b]: the right operand is evaluated only when the
    left one does not decide. *)
Definition and_then (a : bool) (b : result bool) : result bool :=
  if a then b else Ok false.
Definition or_else (a : bool) (b : result bool) : result bool :=
  if a then Ok true else b.

(** [int]: 32 bits, two's complement; overflow is undefined. *)
Definition INT_MIN : Z := - 2147483648.
Definition INT_MAX : Z := 2147483647.

(** [++x] *)
Definition int_incr (x : Z) : result Z :=
  if x <? INT_MAX then Ok (x + 1) else Undefined Signed_overflow.

(** [a % b]: remainder of the division truncated towards zero. *)
Definition int_rem (a b : Z) : result Z :=
  if b =? 0 then Undefined Division_by_zero
  else if (a =? INT_MIN) && (b =? -1) then Undefined Signed_overflow
  else Ok (Z.rem a b).

(** [float]: IEEE-754 binary32, every operation rounded to nearest even. *)
Definition float := spec_float.
Definition prec : Z := 24.
Definition emax : Z := 128.

Definition float_of_int (z : Z) : float := binary_normalize prec emax z 0 false.
Definition fadd (x y : float) : float := SFadd prec emax x y.
Definition fmul (x y : float) : float := SFmul prec emax x y.
Definition fneg (x : float) : float := SFopp x.
Definition flt (x y : float) : bool := SFltb x y.   (* x < y *)
Definition fgt (x y : float) : bool := SFltb y x.   (* x > y *)
Definition fge (x y : float) : bool := SFleb y x.   (* x >= y *)
Definition feq (x y : float) : bool := SFeqb x y.   (* x == y *)

End Cpp.
Import Cpp.

(** ** Data carried through the pipeline *)

(** [Frame]: coordinates and the time stamp [t]. *)
Record Frame := {
  coord : list (float * float * float);
  t : float
}.

Definition set_t (fr : Frame) (time : float) : Frame :=
  {| coord := coord fr; t := time |}.

(** The fields of [Frame_info] that [reader_thread_body] fills. *)
Record Frame_info := {
  absolute_time : float;
  absolute_frame : Z;
  valid_frame : Z;
  win_size_frames : Z;
  win_size_time : float;
  first_frame : Z;
  first_time : float;
  last_frame : Z;
  last_time : float
}.

Record Data_container := {
  frame : Frame;
  frame_info : Frame_info
}.

(** What one call [trj->read(NULL,&data->frame,content)] does: it fills the
    frame and returns true, or throws.  A file whose outcomes are used up
    returns false (end of file). *)
Inductive read_outcome :=
| Read_good (fr : Frame)
| Read_throws (what : string).

(** What [io_factory(fname,'r')] gives for a file name: opening throws, or
    the handle yields these outcomes on successive calls of [read]. *)
Record Mol_file := {
  open_throws : option string;
  reads : list read_outcome
}.

(** ** Members of [Trajectory_processor] read by the filter and the reader *)

Module TP.
Record Trajectory_processor := {
  first_frame : Z;
  last_frame : Z;
  first_time : float;
  last_time : float;
  skip : Z;
  custom_start_time : float;
  custom_dt : float;
  window_size_frames : Z;
  window_size_time : float;
  log_interval : Z;
  traj_files : list string
}.
End TP.
Definition Trajectory_processor := TP.Trajectory_processor.

Definition f0 : float := float_of_int 0.

(** ** Frame filter *)

Definition is_frame_valid (this : Trajectory_processor) (fr : Z) (t : float)
  : result bool :=
  and_then ((TP.first_frame this <? 0) || (fr >=? TP.first_frame this))
    (and_then (flt (TP.first_time this) f0 || fge t (TP.first_time this))
       (or_else (TP.skip this <? 0)
          (bind (int_rem fr (TP.skip this)) (fun r => Ok (r =? 0))))).

Definition is_end_of_interval (this : Trajectory_processor) (fr : Z) (t : float)
  : bool :=
  ((fr >? TP.last_frame this) && (TP.last_frame this >=? 0))
  || (fgt t (TP.last_time this) && fge (TP.last_time this) f0).

(** ** Reader thread *)

Inductive cout_line :=
| Reading_trajectory (fname : string)   (* "==> Reading trajectory <fname>" *)
| Loaded_frame (abs_frame : Z)          (* "Loaded frame <abs_frame>" *)
| Reading_done                          (* "==> reading done" *)
| Reading_stopped                       (* "(ERROR) Execution of the reading thread stopped due to exception!" *)
| What (what : string).                 (* e.what() *)

(** Effects of the reader thread, in program order.  [Loaded] records a
    successful [read]: the value of [abs_frame] after its increment and
    [data->frame] after the time override. *)
Inductive reader_event :=
| Cout (line : cout_line)
| Io_factory (fname : string)
| Loaded (abs_frame : Z) (fr : Frame)
| Channel_send (data : Data_container)
| Channel_send_stop.

(** Local variables of [reader_thread_body]. *)
Record locals := {
  abs_frame : Z;
  l_valid_frame : Z;
  saved_first_frame : Z;
  saved_first_time : float
}.

Definition locals0 : locals :=
  {| abs_frame := -1; l_valid_frame := -1;
     saved_first_frame := -1; saved_first_time := fneg (float_of_int 1) |}.

(** How the body of [while(true)] is left. *)
Inductive loop_exit :=
| Continue                 (* next iteration, also through [continue] *)
| Break_finished           (* [finished = true; break] *)
| Ub (u : undefined_behaviour).

(** [data->frame.t] after the override of lines 338-340. *)
Definition frame_time (this : Trajectory_processor) (abs : Z) (fr : Frame) : float :=
  if fge (TP.custom_dt this) f0
  then fadd (TP.custom_start_time this) (fmul (TP.custom_dt this) (float_of_int abs))
  else t fr.

Definition fill (this : Trajectory_processor) (l : locals) (fr : Frame) : Data_container :=
  {| frame := fr;
     frame_info :=
       {| absolute_time := t fr;
          absolute_frame := abs_frame l;
          valid_frame := l_valid_frame l;
          win_size_frames := TP.window_size_frames this;
          win_size_time := TP.window_size_time this;
          first_frame := saved_first_frame l;
          first_time := saved_first_time l;
          last_frame := abs_frame l;
          last_time := t fr |} |}.

(** Lines 334-335. *)
Definition log_loaded (this : Trajectory_processor) (abs : Z) : list reader_event :=
  if (TP.log_interval this >? 0) && (Z.rem abs (TP.log_interval this) =? 0)
  then [Cout (Loaded_frame abs)] else [].

(** One iteration of the loop over frames after a successful [read]
    (lines 332-376). *)
Definition frame_body (this : Trajectory_processor) (l : locals) (fr0 : Frame)
  : list reader_event * locals * loop_exit :=
  match int_incr (abs_frame l) with
  | Undefined u => ([], l, Ub u)
  | Ok abs =>
    let l1 := {| abs_frame := abs; l_valid_frame := l_valid_frame l;
                 saved_first_frame := saved_first_frame l;
                 saved_first_time := saved_first_time l |} in
    let log := log_loaded this abs in
    let fr := set_t fr0 (frame_time this abs fr0) in
    if is_end_of_interval this abs (t fr)
    then (log ++ [Loaded abs fr; Channel_send_stop], l1, Break_finished)
    else
      match is_frame_valid this abs (t fr) with
      | Undefined u => (log ++ [Loaded abs fr], l1, Ub u)
      | Ok false => (log ++ [Loaded abs fr], l1, Continue)
      | Ok true =>
        match int_incr (l_valid_frame l1) with
        | Undefined u => (log ++ [Loaded abs fr], l1, Ub u)
        | Ok valid =>
          let l2 :=
            if valid =? 0
            then {| abs_frame := abs; l_valid_frame := valid;
                    saved_first_frame := abs; saved_first_time := t fr |}
            else {| abs_frame := abs; l_valid_frame := valid;
                    saved_first_frame := saved_first_frame l1;
                    saved_first_time := saved_first_time l1 |} in
          (log ++ [Loaded abs fr; Channel_send (fill this l2 fr)], l2, Continue)
        end
      end
  end.

Section Reader.

(** The trajectory files on disk. *)
Variable io_factory : string -> Mol_file.

(** How the loop over the frames of one file is left. *)
Inductive file_exit :=
| Eof                       (* [if(!good) break] *)
| Finished                  (* end of the requested interval *)
| Throw (what : string)     (* a Pteros_error leaves the loop *)
| File_ub (u : undefined_behaviour).

(** [while(true)] over the frames of one open file. *)
Fixpoint frames_loop (this : Trajectory_processor) (rs : list read_outcome) (l : locals)
  : list reader_event * locals * file_exit :=
  match rs with
  | [] => ([], l, Eof)
  | Read_throws w :: _ => ([], l, Throw w)
  | Read_good fr :: rest =>
    match frame_body this l fr with
    | (ev, l', Continue) =>
      let '(ev', l'', x) := frames_loop this rest l' in (ev ++ ev', l'', x)
    | (ev, l', Break_finished) => (ev, l', Finished)
    | (ev, l', Ub u) => (ev, l', File_ub u)
    end
  end.

(** How the loop over the trajectory files is left. *)
Inductive files_exit :=
| Fell_through              (* list used up, or [if(finished) break] *)
| Thrown (what : string)
| Files_ub (u : undefined_behaviour).

(** [BOOST_FOREACH(string& fname, traj_files)] *)
Fixpoint files_loop (this : Trajectory_processor) (fs : list string) (l : locals)
  : list reader_event * files_exit :=
  match fs with
  | [] => ([], Fell_through)
  | fname :: rest =>
    let hd := [Cout (Reading_trajectory fname); Io_factory fname] in
    match open_throws (io_factory fname) with
    | Some w => (hd, Thrown w)
    | None =>
      match frames_loop this (reads (io_factory fname)) l with
      | (ev, l', Eof) =>
        let '(ev', x) := files_loop this rest l' in
        (hd ++ ev ++ [Cout Reading_done] ++ ev', x)
      | (ev, _, Finished) => (hd ++ ev ++ [Cout Reading_done], Fell_through)
      | (ev, _, Throw w) => (hd ++ ev, Thrown w)
      | (ev, _, File_ub u) => (hd ++ ev, Files_ub u)
      end
    end
  end.

(** The whole thread: its effects, and whether it returns. *)
Definition reader_thread_body (this : Trajectory_processor)
  : list reader_event * result unit :=
  match files_loop this (TP.traj_files this) locals0 with
  | (ev, Fell_through) => (ev ++ [Channel_send_stop], Ok tt)
  | (ev, Thrown w) =>
    (ev ++ [Channel_send_stop; Cout Reading_stopped; Cout (What w)], Ok tt)
  | (ev, Files_ub u) => (ev, Undefined u)
  end.

End Reader.

(** ** Sequential part of [run], up to the start of the reader thread *)

(** The enumerators of [FILE_FORMATS] that the [switch] of [run] names;
    [recognize_format] itself (format_recognition.h) is a parameter. *)
Inductive FILE_FORMATS :=
| PDB_FILE | GRO_FILE | PTTOP_FILE | TRR_FILE | XTC_FILE | DCD_FILE
| OTHER_FILE.   (* any enumerator without a [case] label *)

(** The values that [run] asks of [options]; [None] is an option that was
    not given, for which [get_value] returns its second argument. *)
Record Options := {
  dump_input : option string;
  buffer_size : option Z;
  trajectory : list string;           (* trj->get_values<string>("") *)
  o_window_size_frames : option Z;
  o_window_size_time : option float;
  o_first_frame : option Z;
  o_last_frame : option Z;
  o_first_time : option float;
  o_last_time : option float;
  o_skip : option Z;
  o_custom_start_time : option float;
  o_custom_dt : option float
}.

Definition get_value {T} (o : option T) (default : T) : T :=
  match o with
  | Some v => v
  | None => default
  end.

(** [System], as far as [run] touches it: the files loaded since the last
    [clear]. *)
Definition System := list string.

(** The errors that leave [run] before streaming: those it throws, and
    one thrown inside [sys1->load].  [Last_frame_smaller l f] stands for
    "Last frame<l> is smaller that first frame <f>", likewise for times. *)
Inductive Pteros_error :=
| No_consumers
| Only_one_structure_file
| Only_one_topology_file
| No_trajectory_file
| Last_frame_smaller (last first : Z)
| Last_time_smaller (last first : float)
| Thrown_by_load (what : string).   (* thrown inside [sys1->load], not caught *)

(** Effects of [run] before streaming (output on [cout] left out). *)
Inductive run_event :=
| Dump_written (file : string)
| System_clear
| System_load (file : string)
| Error_not_thrown      (* the temporary Pteros_error of line 184 *)
| System_copied (i : nat)
| Buffer_size_set (n : Z)
| Reader_thread_started.

(** What the streaming part of [run] starts from. *)
Record streaming := {
  s_this : Trajectory_processor;
  s_buf_size : Z;
  s_systems : list System      (* the systems of consumers[0], [1], ... *)
}.

Definition fm1 : float := fneg (float_of_int 1).

Definition nonempty (s : string) : bool := negb (String.eqb s EmptyString).

Section Prologue.

Variable recognize_format : string -> FILE_FORMATS.

(** [sys->load(file)] on a system that holds the files [sys], as far as
    [run] depends on it: the message of the Pteros_error it throws (a file
    that cannot be opened, say), or [None] when it returns with the file
    added to the system.  [System::load] is not among the sources. *)
Variable load_throws : System -> string -> option string.

(** Lines 147-164. *)
Fixpoint sort_files (values : list string) (structure_file top_file : string)
  (traj_files : list string) : Pteros_error + (string * string * list string) :=
  match values with
  | [] => inr (structure_file, top_file, traj_files)
  | s :: rest =>
    match recognize_format s with
    | PDB_FILE | GRO_FILE =>
      if nonempty structure_file then inl Only_one_structure_file
      else sort_files rest s top_file traj_files
    | PTTOP_FILE =>
      if nonempty top_file then inl Only_one_topology_file
      else sort_files rest structure_file s traj_files
    | TRR_FILE | XTC_FILE | DCD_FILE =>
      sort_files rest structure_file top_file (traj_files ++ [s])
    | OTHER_FILE => sort_files rest structure_file top_file traj_files
    end
  end.

(** One call [sys1->load(file)]: the call made, and the error that leaves
    it or the system it leaves. *)
Definition load (sys : System) (file : string)
  : list run_event * (Pteros_error + System) :=
  match load_throws sys file with
  | Some what => ([System_load file], inl (Thrown_by_load what))
  | None => ([System_load file], inr (sys ++ [file]))
  end.

(** Lines 171-185: the loads into the cleared [sys1], and the error that
    leaves one of them or [sys1] after them. *)
Definition load_system (structure_file top_file : string)
  : list run_event * (Pteros_error + System) :=
  if nonempty structure_file && negb (nonempty top_file)
  then load [] structure_file
  else if negb (nonempty structure_file) && nonempty top_file
  then load [] top_file
  else if nonempty structure_file && nonempty top_file
  then match load [] structure_file with
       | (ev, inl e) => (ev, inl e)
       | (ev, inr sys) => let '(ev', r) := load sys top_file in (ev ++ ev', r)
       end
  else ([Error_not_thrown], inr []).

(** Lines 188-193. *)
Definition copy_system (size : nat) : list run_event :=
  if (1 <? size)%nat then map System_copied (seq 1 (size - 1)) else [].

(** Lines 197-209. *)
Definition get_parameters (options : Options) (log_interval : Z)
  (traj_files : list string) : Trajectory_processor :=
  let custom_start_time := get_value (o_custom_start_time options) fm1 in
  let custom_dt := get_value (o_custom_dt options) fm1 in
  let custom_dt' :=
    if fge custom_start_time f0 && feq custom_dt fm1 then float_of_int 1 else custom_dt in
  let custom_start_time' :=
    if feq custom_start_time fm1 && fge custom_dt' f0 then f0 else custom_start_time in
  {| TP.first_frame := get_value (o_first_frame options) (-1);
     TP.last_frame := get_value (o_last_frame options) (-1);
     TP.first_time := get_value (o_first_time options) fm1;
     TP.last_time := get_value (o_last_time options) fm1;
     TP.skip := get_value (o_skip options) (-1);
     TP.custom_start_time := custom_start_time';
     TP.custom_dt := custom_dt';
     TP.window_size_frames := get_value (o_window_size_frames options) (-1);
     TP.window_size_time := get_value (o_window_size_time options) fm1;
     TP.log_interval := log_interval;
     TP.traj_files := traj_files |}.

(** Lines 212-215: the range check, [None] when nothing is thrown. *)
Definition check_range (this : Trajectory_processor) : option Pteros_error :=
  if (TP.first_frame this >=? 0) && (TP.last_frame this >=? 0)
     && (TP.last_frame this <? TP.first_frame this)
  then Some (Last_frame_smaller (TP.last_frame this) (TP.first_frame this))
  else if fge (TP.first_time this) f0 && fge (TP.last_time this) f0
          && flt (TP.last_time this) (TP.first_time this)
  then Some (Last_time_smaller (TP.last_time this) (TP.first_time this))
  else None.

(** Lines 120-228 of [run]: the effects, and the error thrown or the
    state in which the reader thread is started.  [consumers] holds the
    system of each registered consumer. *)
Definition run_prologue (log_interval : Z) (consumers : list System) (options : Options)
  : list run_event * (Pteros_error + streaming) :=
  match consumers with
  | [] => ([], inl No_consumers)
  | _ :: _ =>
    let dump_file := get_value (dump_input options) EmptyString in
    let ev_dump := if nonempty dump_file then [Dump_written dump_file] else [] in
    match sort_files (trajectory options) EmptyString EmptyString [] with
    | inl e => (ev_dump, inl e)
    | inr (structure_file, top_file, traj_files) =>
      match traj_files with
      | [] => (ev_dump, inl No_trajectory_file)
      | _ :: _ =>
        match load_system structure_file top_file with
        | (ev_load, inl e) => (ev_dump ++ [System_clear] ++ ev_load, inl e)
        | (ev_load, inr sys1) =>
          let ev :=
            ev_dump ++ [System_clear] ++ ev_load ++ copy_system (List.length consumers) in
          let this := get_parameters options log_interval traj_files in
          match check_range this with
          | Some e => (ev, inl e)
          | None =>
            let buf_size := get_value (buffer_size options) 10 in
            (ev ++ [Buffer_size_set buf_size; Reader_thread_started],
             inr {| s_this := this; s_buf_size := buf_size;
                    s_systems := map (fun _ => sys1) consumers |})
          end
        end
      end
    end
  end.

End Prologue.

(** ** Message channel *)

(** [boost::shared_ptr<Data_container>]; [None] is the null pointer. *)
Definition Data_ptr := option Data_container.

(** Modelled from the spec: [Data_channel] (message_channel.h is not among
    the sources).  A bounded FIFO with a one-shot end-of-stream mark: [send]
    blocks while the buffer is at capacity and returns at once when the
    channel is closed; [recieve] blocks while the buffer is empty and the
    channel is not closed, and returns false only when it is closed and
    drained; [send_stop] closes and is idempotent.  [sent], [taken] and
    [stops] are a history of the calls, kept to state properties. *)
Record Data_channel := {
  capacity : Z;
  queue : list Data_ptr;
  stop_requested : bool;
  sent : list Data_ptr;      (* every item enqueued so far, oldest first *)
  taken : list Data_ptr;     (* every item handed out so far, oldest first *)
  stops : nat                (* calls of [send_stop] so far *)
}.

Definition new_channel (buf_size : Z) : Data_channel :=
  {| capacity := buf_size; queue := []; stop_requested := false;
     sent := []; taken := []; stops := 0 |}.

(** [send]: [None] while the caller is blocked. *)
Definition send (data : Data_ptr) (ch : Data_channel) : option Data_channel :=
  if stop_requested ch then Some ch
  else if Z.of_nat (List.length (queue ch)) <? capacity ch
  then Some {| capacity := capacity ch; queue := queue ch ++ [data];
               stop_requested := false; sent := sent ch ++ [data];
               taken := taken ch; stops := stops ch |}
  else None.

Inductive recieved :=
| Blocked                                          (* the caller waits *)
| Popped (data : Data_ptr) (ch : Data_channel)     (* returns true *)
| Closed.                                          (* returns false *)

Definition recieve (ch : Data_channel) : recieved :=
  match queue ch with
  | d :: q =>
    Popped d {| capacity := capacity ch; queue := q;
                stop_requested := stop_requested ch; sent := sent ch;
                taken := taken ch ++ [d]; stops := stops ch |}
  | [] => if stop_requested ch then Closed else Blocked
  end.

Definition send_stop (ch : Data_channel) : Data_channel :=
  {| capacity := capacity ch; queue := queue ch; stop_requested := true;
     sent := sent ch; taken := taken ch; stops := S (stops ch) |}.

Definition empty (ch : Data_channel) : bool :=
  match queue ch with
  | [] => true
  | _ :: _ => false
  end.

(** ** Threads of [run] *)

(** Calls received by a consumer. *)
Inductive consumer_event :=
| Pre_process
| Consume_frame (data : Data_ptr)
| Post_process (info : option Frame_info).

Inductive worker_pc :=
| W_pre_process
| W_recieve
| W_post_process
| W_returned.

(** Modelled from the spec: [Consumer_base::run_in_thread] (consumer.h is
    not among the sources).  A worker runs its consumer's [pre_process],
    then loops [recieve]/[consume_frame] on its own channel until closed,
    then runs [post_process] with the metadata of the last frame, or with
    the absent value when no frame arrived. *)
Record worker := {
  w_pc : worker_pc;
  w_channel : Data_channel;
  w_data : Data_ptr;
  w_log : list consumer_event
}.

Definition new_worker (buf_size : Z) : worker :=
  {| w_pc := W_pre_process; w_channel := new_channel buf_size;
     w_data := None; w_log := [] |}.

Definition step_worker (w : worker) : option worker :=
  match w_pc w with
  | W_pre_process =>
    Some {| w_pc := W_recieve; w_channel := w_channel w; w_data := w_data w;
            w_log := w_log w ++ [Pre_process] |}
  | W_recieve =>
    match recieve (w_channel w) with
    | Blocked => None
    | Popped d ch =>
      Some {| w_pc := W_recieve; w_channel := ch; w_data := d;
              w_log := w_log w ++ [Consume_frame d] |}
    | Closed =>
      Some {| w_pc := W_post_process; w_channel := w_channel w;
              w_data := w_data w; w_log := w_log w |}
    end
  | W_post_process =>
    Some {| w_pc := W_returned; w_channel := w_channel w; w_data := w_data w;
            w_log := w_log w ++ [Post_process (option_map frame_info (w_data w))] |}
  | W_returned => None
  end.

(** Where the thread that called [run] stands, from line 233 on. *)
Inductive main_pc :=
| Fan_recieve                     (* line 251 *)
| Fan_send (i : nat)              (* line 253, next channel is [i] *)
| Fan_empty                       (* line 259 *)
| Fan_drain_recieve               (* line 260 *)
| Fan_drain_send (i : nat)        (* line 262 *)
| Fan_send_stop (i : nat)         (* line 268 *)
| One_pre_process                 (* line 278 *)
| One_recieve                     (* line 281 *)
| One_empty                       (* line 284 *)
| One_drain_recieve               (* line 285 *)
| One_post_process                (* line 289 *)
| Join_reader                     (* line 293 *)
| Join_workers                    (* line 295 *)
| Run_finished                    (* line 298 *)
| Run_undefined (u : undefined_behaviour).

Record state := {
  size : nat;                     (* consumers.size() *)
  reader : list reader_event;     (* what the reader thread has still to do *)
  reader_returns : result unit;   (* whether it returns after that *)
  channel : Data_channel;
  pc : main_pc;
  data : Data_ptr;                (* the local [data] of [run] *)
  log0 : list consumer_event;     (* calls made on consumers[0] by [run] itself *)
  workers : list worker           (* worker_threads with worker_channels *)
}.

Fixpoint replace_nth {A} (i : nat) (x : A) (l : list A) : list A :=
  match l, i with
  | [], _ => []
  | _ :: r, O => x :: r
  | y :: r, S j => y :: replace_nth j x r
  end.

Definition set_main (s : state) (ch : Data_channel) (p : main_pc) (d : Data_ptr)
  (log : list consumer_event) : state :=
  {| size := size s; reader := reader s; reader_returns := reader_returns s;
     channel := ch; pc := p; data := d; log0 := log; workers := workers s |}.

Definition set_pc (s : state) (p : main_pc) : state :=
  set_main s (channel s) p (data s) (log0 s).

Definition set_worker (s : state) (i : nat) (w : worker) (p : main_pc) : state :=
  {| size := size s; reader := reader s; reader_returns := reader_returns s;
     channel := channel s; pc := p; data := data s; log0 := log0 s;
     workers := replace_nth i w (workers s) |}.

Definition set_reader (s : state) (r : list reader_event) (ch : Data_channel) : state :=
  {| size := size s; reader := r; reader_returns := reader_returns s;
     channel := ch; pc := pc s; data := data s; log0 := log0 s;
     workers := workers s |}.

Definition with_channel (w : worker) (ch : Data_channel) : worker :=
  {| w_pc := w_pc w; w_channel := ch; w_data := w_data w; w_log := w_log w |}.

Definition reader_joined (s : state) : bool :=
  match reader s, reader_returns s with
  | [], Ok _ => true
  | _, _ => false
  end.

Definition worker_returned (w : worker) : bool :=
  match w_pc w with
  | W_returned => true
  | _ => false
  end.

(** [BOOST_FOREACH(Data_channel_ptr &ch, worker_channels) ch->send(data)],
    one channel at a time; [next] is where the loop stands at channel
    [i + 1], [after] where control goes once the channels are used up. *)
Definition foreach_send (s : state) (i : nat) (next : nat -> main_pc) (after : main_pc)
  : option state :=
  match nth_error (workers s) i with
  | None => Some (set_pc s after)
  | Some w =>
    match send (data s) (w_channel w) with
    | None => None
    | Some ch => Some (set_worker s i (with_channel w ch) (next (S i)))
    end
  end.

(** One step of the thread that called [run]; [None] when it waits or has
    ended. *)
Definition step_main (s : state) : option state :=
  match pc s with
  | Fan_recieve =>
    match recieve (channel s) with
    | Blocked => None
    | Popped d ch => Some (set_main s ch (Fan_send 0) d (log0 s))
    | Closed => Some (set_pc s Fan_empty)
    end
  | Fan_send i => foreach_send s i Fan_send Fan_recieve
  | Fan_empty =>
    Some (set_pc s (if empty (channel s) then Fan_send_stop 0 else Fan_drain_recieve))
  | Fan_drain_recieve =>
    match recieve (channel s) with
    | Blocked => None
    | Popped d ch => Some (set_main s ch (Fan_drain_send 0) d (log0 s))
    | Closed => Some (set_pc s (Fan_drain_send 0))
    end
  | Fan_drain_send i => foreach_send s i Fan_drain_send Fan_empty
  | Fan_send_stop i =>
    match nth_error (workers s) i with
    | None => Some (set_pc s Join_reader)
    | Some w =>
      Some (set_worker s i (with_channel w (send_stop (w_channel w))) (Fan_send_stop (S i)))
    end
  | One_pre_process =>
    Some (set_main s (channel s) One_recieve (data s) (log0 s ++ [Pre_process]))
  | One_recieve =>
    match recieve (channel s) with
    | Blocked => None
    | Popped d ch => Some (set_main s ch One_recieve d (log0 s ++ [Consume_frame d]))
    | Closed => Some (set_pc s One_empty)
    end
  | One_empty =>
    Some (set_pc s (if empty (channel s) then One_post_process else One_drain_recieve))
  | One_drain_recieve =>
    match recieve (channel s) with
    | Blocked => None
    | Popped d ch => Some (set_main s ch One_empty d (log0 s ++ [Consume_frame d]))
    | Closed =>
      Some (set_main s (channel s) One_empty (data s) (log0 s ++ [Consume_frame (data s)]))
    end
  | One_post_process =>
    match data s with
    | None => Some (set_pc s (Run_undefined Null_dereference))
    | Some d =>
      Some (set_main s (channel s) Join_reader (data s)
              (log0 s ++ [Post_process (Some (frame_info d))]))
    end
  | Join_reader =>
    if reader_joined s
    then Some (set_pc s (if (1 <? size s)%nat then Join_workers else Run_finished))
    else None
  | Join_workers =>
    if forallb worker_returned (workers s) then Some (set_pc s Run_finished) else None
  | Run_finished => None
  | Run_undefined _ => None
  end.

(** One step of the reader thread: its next effect. *)
Definition step_reader (s : state) : option state :=
  match reader s with
  | [] => None
  | Channel_send d :: rest =>
    match send (Some d) (channel s) with
    | None => None
    | Some ch => Some (set_reader s rest ch)
    end
  | Channel_send_stop :: rest => Some (set_reader s rest (send_stop (channel s)))
  | _ :: rest => Some (set_reader s rest (channel s))
  end.

Inductive thread :=
| Reader
| Main
| Worker (i : nat).

Definition step (th : thread) (s : state) : option state :=
  match th with
  | Reader => step_reader s
  | Main => step_main s
  | Worker i =>
    match nth_error (workers s) i with
    | None => None
    | Some w =>
      match step_worker w with
      | None => None
      | Some w' => Some (set_worker s i w' (pc s))
      end
    end
  end.

(** The states the threads can reach from [s0], under every interleaving. *)
Inductive reachable (s0 : state) : state -> Prop :=
| reach_start : reachable s0 s0
| reach_step s th s' : reachable s0 s -> step th s = Some s' -> reachable s0 s'.

(** [k] steps of the threads, in any interleaving. *)
Inductive steps : nat -> state -> state -> Prop :=
| steps_none s : steps 0 s s
| steps_next k s th s1 s2 :
    step th s = Some s1 -> steps k s1 s2 -> steps (S k) s s2.

(** No thread can move. *)
Definition terminal (s : state) : Prop := forall th, step th s = None.

(** A schedule names the thread to run next; a thread that cannot move is
    passed over. *)
Fixpoint run_schedule (sched : list thread) (s : state) : state :=
  match sched with
  | [] => s
  | th :: rest =>
    match step th s with
    | Some s' => run_schedule rest s'
    | None => run_schedule rest s
    end
  end.

(** The state in which streaming starts for [size] consumers, buffers of
    [buf_size] and a reader thread with the effects [ev] and the end [ret]:
    the reader thread is created at line 228, and with more than one
    consumer a channel and a thread per consumer at lines 235-247. *)
Definition initial (size : nat) (buf_size : Z) (ev : list reader_event)
  (ret : result unit) : state :=
  {| size := size;
     reader := ev;
     reader_returns := ret;
     channel := new_channel buf_size;
     pc := if (1 <? size)%nat then Fan_recieve else One_pre_process;
     data := None;
     log0 := [];
     workers := if (1 <? size)%nat then repeat (new_worker buf_size) size else [] |}.

Definition start (io_factory : string -> Mol_file) (st : streaming) : state :=
  let r := reader_thread_body io_factory (s_this st) in
  initial (List.length (s_systems st)) (s_buf_size st) (fst r) (snd r).

(** [run]: the effects of its sequential part, and the error it throws or
    the state from which its threads run. *)
Definition run (recognize_format : string -> FILE_FORMATS)
  (load_throws : System -> string -> option string)
  (io_factory : string -> Mol_file) (log_interval : Z)
  (consumers : list System) (options : Options)
  : list run_event * (Pteros_error + state) :=
  match run_prologue recognize_format load_throws log_interval consumers options with
  | (ev, inl e) => (ev, inl e)
  | (ev, inr st) => (ev, inr (start io_factory st))
  end.

(** ** Registration of consumers *)

(** [Consumer_base*]: the address of a consumer object. *)
Definition Consumer_ptr := nat.

Module Registration.

(** The vector [consumers] of the processor, and the calls of [set_id]
    made so far as pairs of the object and the argument. *)
Record members := {
  consumers : list Consumer_ptr;
  set_id_calls : list (Consumer_ptr * Z)
}.

Definition none : members := {| consumers := []; set_id_calls := [] |}.

(** Lines 115-118. *)
Definition add_consumer (p : Consumer_ptr) (m : members) : members :=
  let pushed := consumers m ++ [p] in
  {| consumers := pushed;
     set_id_calls :=
       set_id_calls m ++ [(last pushed p, Z.of_nat (List.length pushed) - 1)] |}.

(** [add_consumer] for each of [ps] in turn. *)
Definition add_consumers (ps : list Consumer_ptr) (m : members) : members :=
  fold_left (fun m p => add_consumer p m) ps m.

End Registration.

(** ** The plugin [rms] *)

Definition fsub (x y : float) : float := SFsub prec emax x y.
Definition fdiv (x y : float) : float := SFdiv prec emax x y.

Module Rms.

(** The members [data] and [mean] of the plugin, and the number of calls
    of [system.frame_dup(0)] it has made. *)
Record rms := {
  data : list float;
  mean : float;
  frame_dups : nat
}.

(** What [post_process] writes: the mean of the header, and the rows
    "time RMSD". *)
Record dat_file := {
  header_mean : float;
  rows : result (list (float * float))
}.

(** Lines 55-63, as far as [mean] and [data] go. *)
Definition pre_process (r : rms) : rms :=
  {| data := []; mean := f0; frame_dups := frame_dups r |}.

(** Lines 65-84; [v] is the value that [sel.rmsd(0,1)] returns in this
    call. *)
Definition process_frame (info : Frame_info) (v : float) (r : rms) : rms :=
  {| data := data r ++ [v];
     mean := fadd (mean r) v;
     frame_dups := if valid_frame info =? 0 then S (frame_dups r) else frame_dups r |}.

(** [for(int i=0; i<data.size(); ++i) f << i*dt << " " << data[i]], from
    the value [i] on. *)
Fixpoint rows_from (i : Z) (dt : float) (data : list float)
  : result (list (float * float)) :=
  match data with
  | [] => Ok []
  | v :: rest =>
    bind (int_incr i) (fun i' =>
    bind (rows_from i' dt rest) (fun rs =>
    Ok ((fmul (float_of_int i) dt, v) :: rs)))
  end.

(** Lines 86-101. *)
Definition post_process (info : Frame_info) (r : rms) : dat_file :=
  let mean' := fdiv (mean r) (float_of_int (valid_frame info)) in
  let dt := fdiv (fsub (last_time info) (first_time info))
              (float_of_int (valid_frame info)) in
  {| header_mean := mean'; rows := rows_from 0 dt (data r) |}.

(** The calls the plugin receives for the containers [ds], the value of
    [sel.rmsd(0,1)] being [v] in the call for the container paired with
    it. *)
Definition process_frames (ds : list (Data_container * float)) (r : rms) : rms :=
  fold_left (fun r dv => process_frame (frame_info (fst dv)) (snd dv) r) ds r.

End Rms.

(** ** Classes of files on the command line *)

Definition is_structure (f : FILE_FORMATS) : bool :=
  match f with
  | PDB_FILE | GRO_FILE => true
  | _ => false
  end.

Definition is_topology (f : FILE_FORMATS) : bool :=
  match f with
  | PTTOP_FILE => true
  | _ => false
  end.

(** The file names of [values] that [recognize_format] puts into a class
    of formats. *)
Definition of_class (recognize_format : string -> FILE_FORMATS)
  (class : FILE_FORMATS -> bool) (values : list string) : list string :=
  filter (fun s => class (recognize_format s)) values.

(** The same, leaving out the empty name. *)
Definition named_of_class (recognize_format : string -> FILE_FORMATS)
  (class : FILE_FORMATS -> bool) (values : list string) : list string :=
  filter (fun s => class (recognize_format s) && nonempty s) values.

(** The file kept as structure or topology file: none when the name is
    empty. *)
Definition kept (file : string) : list string :=
  if nonempty file then [file] else [].

(** The files loaded into the system of the first consumer, in order. *)
Fixpoint loads_of (ev : list run_event) : list string :=
  match ev with
  | [] => []
  | System_load f :: rest => f :: loads_of rest
  | _ :: rest => loads_of rest
  end.

(** ** Notions used to state the properties *)

(** The selection rule written as the documentation words it, with the
    stride disabled below 1; to be compared with [is_frame_valid]. *)
Definition is_frame_valid_documented (this : Trajectory_processor) (fr : Z) (t : float)
  : bool :=
  ((TP.first_frame this <? 0) || (fr >=? TP.first_frame this))
  && (flt (TP.first_time this) f0 || fge t (TP.first_time this))
  && ((TP.skip this <? 1) || (fr mod TP.skip this =? 0)).

(** The frames physically read, with the absolute index each one got. *)
Fixpoint loaded_of (ev : list reader_event) : list (Z * Frame) :=
  match ev with
  | [] => []
  | Loaded a fr :: rest => (a, fr) :: loaded_of rest
  | _ :: rest => loaded_of rest
  end.

(** The containers handed to [channel.send], oldest first. *)
Fixpoint sent_of (ev : list reader_event) : list Data_container :=
  match ev with
  | [] => []
  | Channel_send d :: rest => d :: sent_of rest
  | _ :: rest => sent_of rest
  end.

(** [start; start + 1; ...], [n] numbers. *)
Fixpoint zseq (start : Z) (n : nat) : list Z :=
  match n with
  | O => []
  | S m => start :: zseq (start + 1) m
  end.

(** The frames that successive calls of [read] on an open file yield:
    those before the first call that throws, and whether one throws. *)
Fixpoint goods (rs : list read_outcome) : list Frame * bool :=
  match rs with
  | [] => ([], false)
  | Read_throws _ :: _ => ([], true)
  | Read_good fr :: rest => let '(g, thrown) := goods rest in (fr :: g, thrown)
  end.

(** The frames that the files [fs] yield when they are opened and read to
    their end one after the other, up to the first opening or read that
    throws. *)
Fixpoint frames_on_disk (io_factory : string -> Mol_file) (fs : list string)
  : list Frame :=
  match fs with
  | [] => []
  | f :: rest =>
    match open_throws (io_factory f) with
    | Some _ => []
    | None =>
      let '(g, thrown) := goods (reads (io_factory f)) in
      if thrown then g else g ++ frames_on_disk io_factory rest
    end
  end.

(** A frame of a file as it is read on under the absolute index [a]:
    [data->frame] after the time override. *)
Definition read_as (this : Trajectory_processor) (a : Z) (fr0 : Frame) : Z * Frame :=
  (a, set_t fr0 (frame_time this a fr0)).

(** The frames numbered on from [a], each as it is read on under its
    number. *)
Fixpoint numbered (this : Trajectory_processor) (a : Z) (frames : list Frame)
  : list (Z * Frame) :=
  match frames with
  | [] => []
  | fr :: rest => read_as this a fr :: numbered this (a + 1) rest
  end.

(** Whether one of the frames read ends the requested interval. *)
Definition ended (this : Trajectory_processor) (ev : list reader_event) : bool :=
  existsb (fun x => is_end_of_interval this (fst x) (t (snd x))) (loaded_of ev).

(** A frame that passes both tests of the filter. *)
Definition accepted (this : Trajectory_processor) (x : Z * Frame) : bool :=
  negb (is_end_of_interval this (fst x) (t (snd x)))
  && match is_frame_valid this (fst x) (t (snd x)) with
     | Ok true => true
     | _ => false
     end.

(** Index and frame of a published container. *)
Definition key_of (d : Data_container) : Z * Frame :=
  (absolute_frame (frame_info d), frame d).

(** [custom_start_time + custom_dt*abs_frame] *)
Definition custom_time (this : Trajectory_processor) (abs : Z) : float :=
  fadd (TP.custom_start_time this) (fmul (TP.custom_dt this) (float_of_int abs)).

(** The frames numbered on from [a], each with the computed time in place
    of its own. *)
Fixpoint overridden (this : Trajectory_processor) (a : Z) (frames : list Frame)
  : list (Z * Frame) :=
  match frames with
  | [] => []
  | fr :: rest => (a, set_t fr (custom_time this a)) :: overridden this (a + 1) rest
  end.

(** Under a time override every frame read carries the computed time, and
    every container repeats it in its metadata. *)
Definition well_timed (this : Trajectory_processor) (e : reader_event) : Prop :=
  match e with
  | Loaded a fr => t fr = custom_time this a
  | Channel_send d =>
    t (frame d) = custom_time this (absolute_frame (frame_info d))
    /\ absolute_time (frame_info d) = t (frame d)
  | _ => True
  end.

(** [k] holds of what follows each frame that ends the interval. *)
Fixpoint after_end (this : Trajectory_processor) (k : list reader_event -> Prop)
  (ev : list reader_event) : Prop :=
  match ev with
  | [] => True
  | Loaded a fr :: rest =>
    (is_end_of_interval this a (t fr) = true -> k rest) /\ after_end this k rest
  | _ :: rest => after_end this k rest
  end.

(** The counters of the reader between two points of its run: the frames
    read in between are numbered on from [abs_frame], the containers sent
    on from [valid_frame], and the containers are the accepted frames. *)
Definition counted (this : Trajectory_processor) (l : locals)
  (ev : list reader_event) (l' : locals) : Prop :=
  map fst (loaded_of ev) = zseq (abs_frame l + 1) (List.length (loaded_of ev))
  /\ map (fun d => valid_frame (frame_info d)) (sent_of ev)
     = zseq (l_valid_frame l + 1) (List.length (sent_of ev))
  /\ map key_of (sent_of ev) = filter (accepted this) (loaded_of ev)
  /\ abs_frame l' = abs_frame l + Z.of_nat (List.length (loaded_of ev))
  /\ l_valid_frame l' = l_valid_frame l + Z.of_nat (List.length (sent_of ev))
  /\ l_valid_frame l' <= abs_frame l'.

(** Formats of the structure and topology files, and of the trajectories. *)
Definition is_structure_or_topology (f : FILE_FORMATS) : bool :=
  match f with
  | PDB_FILE | GRO_FILE | PTTOP_FILE => true
  | _ => false
  end.

Definition is_trajectory (f : FILE_FORMATS) : bool :=
  match f with
  | TRR_FILE | XTC_FILE | DCD_FILE => true
  | _ => false
  end.

(** Both bounds of a range given (not negative) and the last below the
    first, for frames or for times. *)
Definition invalid_range (options : Options) : bool :=
  let first_frame := get_value (o_first_frame options) (-1) in
  let last_frame := get_value (o_last_frame options) (-1) in
  let first_time := get_value (o_first_time options) fm1 in
  let last_time := get_value (o_last_time options) fm1 in
  ((first_frame >=? 0) && (last_frame >=? 0) && (last_frame <? first_frame))
  || (fge first_time f0 && fge last_time f0 && flt last_time first_time).

(** The three configuration errors. *)
Definition configuration_error (recognize_format : string -> FILE_FORMATS)
  (consumers : list System) (options : Options) : Prop :=
  consumers = []
  \/ (forall s, In s (trajectory options) -> is_trajectory (recognize_format s) = false)
  \/ invalid_range options = true.

Definition starts_thread (e : run_event) : bool :=
  match e with
  | Reader_thread_started => true
  | _ => false
  end.

Definition opens_file (e : run_event) : bool :=
  match e with
  | Dump_written _ | System_load _ => true
  | _ => false
  end.

(** What [run] does about the dump of its input. *)
Definition dump_events (options : Options) : list run_event :=
  let dump_file := get_value (dump_input options) EmptyString in
  if nonempty dump_file then [Dump_written dump_file] else [].

(** What [run] does about the structure and topology files: it loads the
    named ones, the structure file first, or with none of them builds the
    error that it does not throw. *)
Definition loading_events (files : list string) : list run_event :=
  match files with
  | [] => [Error_not_thrown]
  | _ :: _ => map System_load files
  end.

(** The two errors of the range check. *)
Definition range_error (e : Pteros_error) : bool :=
  match e with
  | Last_frame_smaller _ _ | Last_time_smaller _ _ => true
  | _ => false
  end.

(** [run] throws, having started no thread and opened no file. *)
Definition fails_before_any_file (recognize_format : string -> FILE_FORMATS)
  (load_throws : System -> string -> option string)
  (io_factory : string -> Mol_file) (log_interval : Z)
  (consumers : list System) (options : Options) : Prop :=
  let r := run recognize_format load_throws io_factory log_interval consumers options in
  (exists e, snd r = inl e)
  /\ existsb starts_thread (fst r) = false
  /\ existsb opens_file (fst r) = false.

(** [run] throws, having started no thread; without consumers it has done
    nothing at all; without trajectory files it has loaded nothing into a
    system; and when the error is that of the range, it has dumped its
    input if asked to, cleared the system of the first consumer, loaded
    into it the named structure file and the named topology file, and
    copied it to every other consumer, and nothing else. *)
Definition fails_before_streaming (recognize_format : string -> FILE_FORMATS)
  (load_throws : System -> string -> option string)
  (io_factory : string -> Mol_file) (log_interval : Z)
  (consumers : list System) (options : Options) : Prop :=
  let r := run recognize_format load_throws io_factory log_interval consumers options in
  let values := trajectory options in
  (exists e, snd r = inl e)
  /\ existsb starts_thread (fst r) = false
  /\ (consumers = [] -> fst r = [])
  /\ ((forall s, In s values -> is_trajectory (recognize_format s) = false) ->
      forall f, ~ In (System_load f) (fst r))
  /\ (forall e, snd r = inl e -> range_error e = true ->
        fst r
        = dump_events options
          ++ System_clear
             :: loading_events
                  (named_of_class recognize_format is_structure values
                   ++ named_of_class recognize_format is_topology values)
             ++ map System_copied (seq 1 (List.length consumers - 1))).

(** ** Notions used to state the properties of the threads *)

(** The items the reader will still get into a channel that is open:
    those it sends before it next sends the stop. *)
Fixpoint pending (ev : list reader_event) : list Data_ptr :=
  match ev with
  | [] => []
  | Channel_send d :: rest => Some d :: pending rest
  | Channel_send_stop :: _ => []
  | _ :: rest => pending rest
  end.

(** Closed and empty. *)
Definition drained (ch : Data_channel) : Prop :=
  stop_requested ch = true /\ queue ch = [].

(** What a channel took in is what it handed out and what it holds. *)
Definition chan_ok (ch : Data_channel) : Prop :=
  sent ch = taken ch ++ queue ch.

(** The calls a consumer has received once it is fed the items [tk]. *)
Definition streamed (tk : list Data_ptr) : list consumer_event :=
  Pre_process :: map Consume_frame tk.

(** The item that [run] holds and has not yet sent to channel [i]. *)
Definition inflight (p : main_pc) (d : Data_ptr) (i : nat) : list Data_ptr :=
  match p with
  | Fan_send j => if (j <=? i)%nat then [d] else []
  | _ => []
  end.

(** Whether [run] has sent the stop to channel [i]. *)
Definition stopped_before (p : main_pc) (i : nat) : bool :=
  match p with
  | Fan_send_stop j => (i <? j)%nat
  | Join_reader | Join_workers | Run_finished => true
  | _ => false
  end.

(** Invariant of the single-consumer path. *)
Definition one_ok (s : state) : Prop :=
  let ch := channel s in
  workers s = []
  /\ match pc s with
     | One_pre_process => log0 s = [] /\ taken ch = [] /\ data s = None
     | One_recieve => log0 s = streamed (taken ch) /\ data s = last (taken ch) None
     | One_empty | One_post_process =>
       log0 s = streamed (taken ch) /\ data s = last (taken ch) None /\ drained ch
     | Run_undefined u =>
       u = Null_dereference /\ log0 s = [Pre_process] /\ taken ch = [] /\ drained ch
     | Join_reader | Run_finished =>
       drained ch
       /\ exists d, last (taken ch) None = Some d
                    /\ log0 s = streamed (taken ch) ++ [Post_process (Some (frame_info d))]
     | _ => False
     end.

(** Invariant of the fan-out path: the thread of [run]. *)
Definition fan_main_ok (s : state) : Prop :=
  match pc s with
  | Fan_recieve | Fan_send _ => True
  | Fan_empty | Fan_send_stop _ | Join_reader | Join_workers | Run_finished =>
    drained (channel s)
  | _ => False
  end.

(** Invariant of the fan-out path: worker [i] and its channel. *)
Definition worker_ok (buf : Z) (s : state) (i : nat) (w : worker) : Prop :=
  let c := w_channel w in
  capacity c = buf
  /\ chan_ok c
  /\ sent c ++ inflight (pc s) (data s) i = taken (channel s)
  /\ stops c = (if stopped_before (pc s) i then 1 else 0)%nat
  /\ stop_requested c = stopped_before (pc s) i
  /\ match w_pc w with
     | W_pre_process => w_log w = [] /\ taken c = [] /\ w_data w = None
     | W_recieve => w_log w = streamed (taken c) /\ w_data w = last (taken c) None
     | W_post_process =>
       w_log w = streamed (taken c) /\ w_data w = last (taken c) None /\ drained c
     | W_returned =>
       w_log w = streamed (taken c)
                 ++ [Post_process (option_map frame_info (last (taken c) None))]
       /\ drained c
     end.

Definition mode_ok (n : nat) (buf : Z) (s : state) : Prop :=
  if (1 <? n)%nat
  then List.length (workers s) = n
       /\ fan_main_ok s
       /\ forall i w, nth_error (workers s) i = Some w -> worker_ok buf s i w
  else one_ok s.

(** Invariant of the threads started by [initial n buf ev ret]. *)
Record inv (ev : list reader_event) (n : nat) (buf : Z) (ret : result unit) (s : state)
  : Prop := {
  inv_size : size s = n;
  inv_ret : reader_returns s = ret;
  inv_cap : capacity (channel s) = buf;
  inv_chan : chan_ok (channel s);
  inv_reader :
    sent (channel s)
    ++ (if stop_requested (channel s) then [] else pending (reader s)) = pending ev;
  inv_mode : mode_ok n buf s
}.

(** The stop has been sent to the channel of the reader, or will be. *)
Definition will_stop (s : state) : Prop :=
  stop_requested (channel s) = true \/ In Channel_send_stop (reader s).

(** A bound on the steps the threads can still take. *)
Definition reader_weight (n : nat) (e : reader_event) : nat :=
  match e with
  | Channel_send _ => 2 * n + 3
  | _ => 1
  end.

Definition main_weight (n : nat) (p : main_pc) : nat :=
  match p with
  | Run_finished | Run_undefined _ => 0
  | Join_workers => 1
  | Join_reader => 2
  | Fan_send_stop j => 3 + (n - j)
  | Fan_empty => n + 4
  | Fan_recieve => n + 5
  | Fan_send j => n + 6 + 2 * (n - j)
  | One_post_process => 3
  | One_empty => 4
  | One_recieve => 5
  | One_pre_process => 6
  | Fan_drain_recieve | Fan_drain_send _ | One_drain_recieve => 0
  end.

Definition worker_weight (w : worker) : nat :=
  match w_pc w with
  | W_pre_process => 3
  | W_recieve => 2
  | W_post_process => 1
  | W_returned => 0
  end + List.length (queue (w_channel w)).

Definition measure (s : state) : nat :=
  list_sum (map (reader_weight (size s)) (reader s))
  + (2 * size s + 2) * List.length (queue (channel s))
  + main_weight (size s) (pc s)
  + list_sum (map worker_weight (workers s)).

(** No container is sent after a stop. *)
Fixpoint orderly (ev : list reader_event) : Prop :=
  match ev with
  | [] => True
  | Channel_send_stop :: rest => sent_of rest = []
  | _ :: rest => orderly rest
  end.

(** The threads of a state, and the first of them that can move. *)
Definition threads_of (s : state) : list thread :=
  Reader :: Main :: map Worker (seq 0 (List.length (workers s))).

Definition can_move (s : state) (th : thread) : bool :=
  match step th s with
  | Some _ => true
  | None => false
  end.

(** ** Further notions about the reader *)

(** The file names handed to [io_factory], in the order of the calls. *)
Fixpoint opened_of (ev : list reader_event) : list string :=
  match ev with
  | [] => []
  | Io_factory f :: rest => f :: opened_of rest
  | _ :: rest => opened_of rest
  end.

(** The number of calls of [channel.send_stop]. *)
Fixpoint stops_of (ev : list reader_event) : nat :=
  match ev with
  | [] => 0
  | Channel_send_stop :: rest => S (stops_of rest)
  | _ :: rest => stops_of rest
  end.


(** A frame that one of the trajectory files yields. *)
Definition on_disk (io_factory : string -> Mol_file) (this : Trajectory_processor)
  (fr : Frame) : Prop :=
  exists f, In f (TP.traj_files this) /\ In (Read_good fr) (reads (io_factory f)).

(** The same processor with another [log_interval]. *)
Definition with_log_interval (n : Z) (this : Trajectory_processor)
  : Trajectory_processor :=
  {| TP.first_frame := TP.first_frame this; TP.last_frame := TP.last_frame this;
     TP.first_time := TP.first_time this; TP.last_time := TP.last_time this;
     TP.skip := TP.skip this;
     TP.custom_start_time := TP.custom_start_time this;
     TP.custom_dt := TP.custom_dt this;
     TP.window_size_frames := TP.window_size_frames this;
     TP.window_size_time := TP.window_size_time this;
     TP.log_interval := n; TP.traj_files := TP.traj_files this |}.

(** The effects without the "Loaded frame" lines. *)
Definition quiet (ev : list reader_event) : list reader_event :=
  filter (fun e => match e with
                   | Cout (Loaded_frame _) => false
                   | _ => true
                   end) ev.

(** What the reader writes into every container besides the counters. *)
Definition metadata_filled (this : Trajectory_processor) (e : reader_event) : Prop :=
  match e with
  | Channel_send d =>
    let i := frame_info d in
    absolute_time i = t (frame d)
    /\ last_frame i = absolute_frame i
    /\ last_time i = absolute_time i
    /\ win_size_frames i = TP.window_size_frames this
    /\ win_size_time i = TP.window_size_time this
  | _ => True
  end.

(** The run's first accepted frame as a container records it. *)
Definition first_of (d : Data_container) : Z * float :=
  (first_frame (frame_info d), first_time (frame_info d)).

(** The saved first frame and time between two points of the reader's
    run: unchanged while nothing is sent, and from the first container on
    the index and time of that container, which every container repeats. *)
Definition firsts (l : locals) (ev : list reader_event) (l' : locals) : Prop :=
  -1 <= l_valid_frame l ->
  match sent_of ev with
  | [] =>
    l_valid_frame l' = l_valid_frame l
    /\ saved_first_frame l' = saved_first_frame l
    /\ saved_first_time l' = saved_first_time l
  | d0 :: _ =>
    let F := if l_valid_frame l =? -1
             then (absolute_frame (frame_info d0), absolute_time (frame_info d0))
             else (saved_first_frame l, saved_first_time l) in
    0 <= l_valid_frame l'
    /\ (saved_first_frame l', saved_first_time l') = F
    /\ forall d, In d (sent_of ev) -> first_of d = F
  end.

(** [Q] of the container of a [send], nothing of other effects. *)
Definition on_send (Q : Data_container -> Prop) (e : reader_event) : Prop :=
  match e with
  | Channel_send d => Q d
  | _ => True
  end.

(** An effect other than a call of [io_factory]. *)
Definition opens_nothing (e : reader_event) : Prop :=
  match e with
  | Io_factory _ => False
  | _ => True
  end.

(** A frame as a file holds it, but for the time stamp under a time
    override. *)
Definition from_disk (io_factory : string -> Mol_file) (this : Trajectory_processor)
  (fr : Frame) : Prop :=
  exists fr0, on_disk io_factory this fr0
              /\ coord fr = coord fr0
              /\ (fge (TP.custom_dt this) f0 = false -> fr = fr0).

Definition frames_from_disk (io_factory : string -> Mol_file)
  (this : Trajectory_processor) (e : reader_event) : Prop :=
  match e with
  | Loaded _ fr => from_disk io_factory this fr
  | Channel_send d => from_disk io_factory this (frame d)
  | _ => True
  end.

(** ** Further notions about [run] *)

(** The condition under which each error leaves [run]. *)
Definition error_condition (recognize_format : string -> FILE_FORMATS)
  (load_throws : System -> string -> option string)
  (consumers : list System) (options : Options) (e : Pteros_error) : Prop :=
  match e with
  | No_consumers => consumers = []
  | Only_one_structure_file =>
    (2 <= List.length (of_class recognize_format is_structure (trajectory options)))%nat
  | Only_one_topology_file =>
    (2 <= List.length (of_class recognize_format is_topology (trajectory options)))%nat
  | No_trajectory_file =>
    of_class recognize_format is_trajectory (trajectory options) = []
  | Last_frame_smaller last first =>
    last = get_value (o_last_frame options) (-1)
    /\ first = get_value (o_first_frame options) (-1)
    /\ 0 <= last < first
  | Last_time_smaller last first =>
    last = get_value (o_last_time options) fm1
    /\ first = get_value (o_first_time options) fm1
    /\ fge first f0 = true /\ fge last f0 = true /\ flt last first = true
  | Thrown_by_load what =>
    exists sys file,
      In file (named_of_class recognize_format is_structure (trajectory options)
               ++ named_of_class recognize_format is_topology (trajectory options))
      /\ load_throws sys file = Some what
  end.

(** ** Further notions about the threads *)

(** The calls that [run] itself has made on its one consumer, by where
    [run] stands: none before [pre_process], then [pre_process] and
    frames only, and [post_process] last once [run] waits for the reader.
    The states of the fan-out are not among them. *)
Definition hooks_in_order (s : state) : Prop :=
  match pc s with
  | One_pre_process => log0 s = []
  | One_recieve | One_empty | One_drain_recieve | One_post_process
  | Run_undefined _ =>
    exists tk, log0 s = streamed tk
  | Join_reader | Join_workers | Run_finished =>
    exists tk info, log0 s = streamed tk ++ [Post_process (Some info)]
  | _ => False
  end.

(** Where [run] stands in the fan-out. *)
Definition in_fan_out (p : main_pc) : bool :=
  match p with
  | Fan_recieve | Fan_send _ | Fan_empty | Fan_drain_recieve | Fan_drain_send _
  | Fan_send_stop _ | Join_reader | Join_workers | Run_finished => true
  | _ => false
  end.

(** What holds once [run] is past its joins, and on the way there. *)
Definition joins_ok (ret : result unit) (s : state) : Prop :=
  reader_returns s = ret
  /\ ((1 <? size s)%nat = false -> workers s = [])
  /\ (pc s = Join_workers \/ pc s = Run_finished -> reader_joined s = true)
  /\ (pc s = Run_finished -> forallb worker_returned (workers s) = true).

(** A frame read whose index is at most one past [last_frame]. *)
Definition read_within (this : Trajectory_processor) (e : reader_event) : Prop :=
  match e with
  | Loaded a _ => a <= TP.last_frame this + 1
  | _ => True
  end.


(** ** Sample inputs *)

Local Open Scope string_scope.

(** A processor with the given frame range, stride and time override,
    everything else unset. *)
Definition sample (first_frame last_frame skip : Z)
  (custom_start_time custom_dt : float) (files : list string) : Trajectory_processor :=
  {| TP.first_frame := first_frame; TP.last_frame := last_frame;
     TP.first_time := fm1; TP.last_time := fm1; TP.skip := skip;
     TP.custom_start_time := custom_start_time; TP.custom_dt := custom_dt;
     TP.window_size_frames := -1; TP.window_size_time := fm1;
     TP.log_interval := -1; TP.traj_files := files |}.

Definition unset (files : list string) : Trajectory_processor :=
  sample (-1) (-1) (-1) fm1 fm1 files.

Definition frame_A : Frame := {| coord := [(f0, f0, f0)]; t := float_of_int 100 |}.
Definition frame_B : Frame := {| coord := [(f0, f0, fm1)]; t := float_of_int 200 |}.
Definition frame_C : Frame := {| coord := [(f0, fm1, f0)]; t := float_of_int 300 |}.

(** Every file holds the frames A, B, C. *)
Definition three_frames (fname : string) : Mol_file :=
  {| open_throws := None;
     reads := [Read_good frame_A; Read_good frame_B; Read_good frame_C] |}.

(** Every file fails at its first read. *)
Definition broken (fname : string) : Mol_file :=
  {| open_throws := None; reads := [Read_throws "read error"] |}.

Definition ends_with (suffix s : string) : bool :=
  let n := String.length s in
  let k := String.length suffix in
  (k <=? n)%nat && String.eqb (substring (n - k) k s) suffix.

(** A recognizer for the samples, by the extensions named in
    [print_help]. *)
Definition recognize_by_extension (s : string) : FILE_FORMATS :=
  if ends_with ".pdb" s then PDB_FILE
  else if ends_with ".gro" s then GRO_FILE
  else if ends_with ".pttop" s then PTTOP_FILE
  else if ends_with ".trr" s then TRR_FILE
  else if ends_with ".xtc" s then XTC_FILE
  else if ends_with ".dcd" s then DCD_FILE
  else OTHER_FILE.

Definition options_of (files : list string) (first_frame last_frame : option Z)
  : Options :=
  {| dump_input := None; buffer_size := None; trajectory := files;
     o_window_size_frames := None; o_window_size_time := None;
     o_first_frame := first_frame; o_last_frame := last_frame;
     o_first_time := None; o_last_time := None; o_skip := None;
     o_custom_start_time := None; o_custom_dt := None |}.

(** A structure file, a trajectory, and a range that ends before it
    starts. *)
Definition backwards_range : Options :=
  options_of ["conf.gro"; "traj.xtc"] (Some 5) (Some 2).

Definition only_a_trajectory : Options := options_of ["traj.xtc"] None None.

(** Loads that never throw, and loads that cannot open "conf.gro". *)
Definition loads_fine (sys : System) (file : string) : option string := None.

Definition conf_missing (sys : System) (file : string) : option string :=
  if String.eqb file "conf.gro" then Some "Can't open GRO file" else None.

(** [rounds] turns of the reader, [run] and [n] workers. *)
Definition round_robin (n rounds : nat) : list thread :=
  List.concat (repeat (Reader :: Main :: map Worker (seq 0 n)) rounds).

(** One consumer, and a filter that rejects the three frames. *)
Definition all_rejected : streaming :=
  {| s_this := sample 5 (-1) (-1) fm1 fm1 ["traj.xtc"];
     s_buf_size := 10; s_systems := [[]] |}.

Definition all_rejected_end : state :=
  run_schedule (round_robin 0 12) (start three_frames all_rejected).

Definition broken_end : state :=
  let r := reader_thread_body broken (unset ["traj.xtc"]) in
  run_schedule (round_robin 0 8) (initial 1 10 (fst r) (snd r)).

(** Three consumers of the frames A, B, C, and one, and two. *)
Definition abc (consumers : nat) : streaming :=
  {| s_this := unset ["traj.xtc"]; s_buf_size := 2;
     s_systems := repeat [] consumers |}.

Definition abc_end (consumers : nat) : state :=
  run_schedule (round_robin consumers 40) (start three_frames (abc consumers)).

(** Three consumers and buffers without room for an item. *)
Definition abc_blocked : streaming :=
  {| s_this := unset ["traj.xtc"]; s_buf_size := 0; s_systems := repeat [] 3 |}.

Definition abc_blocked_end : state :=
  run_schedule (round_robin 3 10) (start three_frames abc_blocked).

(** Two consumers, and a filter that rejects the three frames. *)
Definition all_rejected_fan_end : state :=
  let r := reader_thread_body three_frames (s_this all_rejected) in
  run_schedule (round_robin 2 20) (initial 2 10 (fst r) (snd r)).

(** Two files of three frames each, and a time override with the start
    10 and the step 2. *)
Definition two_files : list string := ["a.xtc"; "b.xtc"].

Definition start_10_step_2 : Trajectory_processor :=
  sample (-1) (-1) (-1) (float_of_int 10) (float_of_int 2) two_files.

Local Close Scope string_scope.

(** ** Further sample inputs *)

Local Open Scope string_scope.

(** The [i]-th container that the reader publishes. *)
Definition published (io_factory : string -> Mol_file) (this : Trajectory_processor)
  (i : nat) : Data_container :=
  nth i (sent_of (fst (reader_thread_body io_factory this))) (fill this locals0 frame_A).

(** Two files of three frames each, read from frame 1 to frame 1, on
    every second frame, and from frame 2 on. *)
Definition only_frame_1 : Trajectory_processor := sample 1 1 (-1) fm1 fm1 two_files.
Definition every_second : Trajectory_processor := sample (-1) (-1) 2 fm1 fm1 two_files.
Definition from_frame_2 : Trajectory_processor := sample 2 (-1) (-1) fm1 fm1 two_files.
Definition up_to_frame_1 : Trajectory_processor := sample (-1) 1 (-1) fm1 fm1 two_files.

(** A command line with a structure file, a topology file and two
    trajectories. *)
Definition full_command_line : list string :=
  ["conf.gro"; "a.xtc"; "top.pttop"; "b.xtc"].

(** The same files with the topology given first, and what [run] then
    starts streaming from for two consumers. *)
Definition topology_first : Options :=
  options_of ["top.pttop"; "a.xtc"; "conf.gro"; "b.xtc"] None None.

Definition streaming_two : streaming :=
  {| s_this := get_parameters topology_first (-1) two_files; s_buf_size := 10;
     s_systems := [["conf.gro"; "top.pttop"]; ["conf.gro"; "top.pttop"]] |}.

(** The state in which [run] starts streaming for one consumer and the
    file "traj.xtc". *)
Definition streaming_one : state :=
  start three_frames
    {| s_this := unset ["traj.xtc"]; s_buf_size := 10; s_systems := [[]] |}.

(** A fresh plugin, and three values of RMSD. *)
Definition fresh_rms : Rms.rms :=
  {| Rms.data := []; Rms.mean := f0; Rms.frame_dups := 0 |}.
Definition three_values : list float :=
  [float_of_int 1; float_of_int 2; float_of_int 3].

Local Close Scope string_scope.

(** * Properties *)

(** ** Frame filter *)

Lemma rem_zero_iff_mod_zero a b : b <> 0 -> (Z.rem a b =? 0) = (a mod b =? 0).
Proof.
  intros Hb.
  destruct (Z.eqb_spec (Z.rem a b) 0) as [Hr | Hr];
    destruct (Z.eqb_spec (a mod b) 0) as [Hm | Hm]; try reflexivity.
  - apply Z.rem_divide in Hr; [ | assumption].
    apply Z.mod_divide in Hr; [ | assumption]. contradiction.
  - apply Z.mod_divide in Hm; [ | assumption].
    apply Z.rem_divide in Hm; [ | assumption]. contradiction.
Qed.


(** C2. With a stride of 0, a frame that passes the tests on [first_frame]
    and [first_time] makes [is_frame_valid] evaluate [fr%0]: the stride is
    not disabled and the call has no defined value, where the documented
    rule answers true. *)
Theorem is_frame_valid_skip_zero this fr t :
  TP.skip this = 0 ->
  (TP.first_frame this <? 0) || (fr >=? TP.first_frame this) = true ->
  flt (TP.first_time this) f0 || fge t (TP.first_time this) = true ->
  is_frame_valid this fr t = Undefined Division_by_zero
  /\ is_frame_valid_documented this fr t = true.
Proof.
  intros Hs H1 H2. unfold is_frame_valid, is_frame_valid_documented.
  rewrite H1, H2, Hs. split; reflexivity.
Qed.

(** ** Reader thread: projections of its effects *)

Lemma loaded_of_app ev1 ev2 : loaded_of (ev1 ++ ev2) = loaded_of ev1 ++ loaded_of ev2.
Proof.
  induction ev1 as [ | e ev1 IH]; simpl; [reflexivity | ].
  destruct e; simpl; now rewrite ?IH.
Qed.

Lemma sent_of_app ev1 ev2 : sent_of (ev1 ++ ev2) = sent_of ev1 ++ sent_of ev2.
Proof.
  induction ev1 as [ | e ev1 IH]; simpl; [reflexivity | ].
  destruct e; simpl; now rewrite ?IH.
Qed.

Lemma loaded_of_log this a : loaded_of (log_loaded this a) = [].
Proof. unfold log_loaded. now destruct (_ && _). Qed.

Lemma sent_of_log this a : sent_of (log_loaded this a) = [].
Proof. unfold log_loaded. now destruct (_ && _). Qed.

Lemma zseq_app a n m : zseq a (n + m) = zseq a n ++ zseq (a + Z.of_nat n) m.
Proof.
  revert a. induction n as [ | n IH]; intros a.
  - simpl. now rewrite Z.add_0_r.
  - cbn [Nat.add zseq app]. rewrite IH. do 3 f_equal. lia.
Qed.

Lemma int_incr_ok x a : int_incr x = Ok a -> a = x + 1 /\ x < INT_MAX.
Proof.
  unfold int_incr. destruct (Z.ltb_spec x INT_MAX) as [Hlt | Hge]; intros E; inversion E. lia.
Qed.

Lemma int_incr_below x : x < INT_MAX -> int_incr x = Ok (x + 1).
Proof. intros Hx. unfold int_incr. destruct (Z.ltb_spec x INT_MAX); [reflexivity | lia]. Qed.

(** ** Reader thread: the two counters *)

Lemma counted_nil this l : l_valid_frame l <= abs_frame l -> counted this l [] l.
Proof. intros H. unfold counted. simpl. repeat split; try lia. Qed.

Lemma counted_app this l ev1 l1 ev2 l2 :
  counted this l ev1 l1 -> counted this l1 ev2 l2 -> counted this l (ev1 ++ ev2) l2.
Proof.
  unfold counted.
  intros (A1 & V1 & K1 & EA1 & EV1 & _) (A2 & V2 & K2 & EA2 & EV2 & LE).
  rewrite loaded_of_app, sent_of_app, !map_app, !length_app, !zseq_app, filter_app.
  rewrite A1, V1, K1, A2, V2, K2, EA1, EV1.
  repeat split; try reflexivity; try lia.
  - do 2 f_equal. lia.
  - do 2 f_equal. lia.
Qed.

Lemma counted_silent this l ev :
  loaded_of ev = [] -> sent_of ev = [] -> l_valid_frame l <= abs_frame l ->
  counted this l ev l.
Proof.
  intros HL HS H. unfold counted. rewrite HL, HS. simpl. repeat split; lia.
Qed.

Lemma frame_body_counted this l fr0 ev l' x :
  frame_body this l fr0 = (ev, l', x) ->
  l_valid_frame l <= abs_frame l ->
  counted this l ev l'.
Proof.
  unfold frame_body. intros H Hle.
  destruct (int_incr (abs_frame l)) as [abs | u] eqn:Habs.
  2:{ inversion H; subst. now apply counted_nil. }
  apply int_incr_ok in Habs. destruct Habs as [-> Hmax].
  remember (abs_frame l + 1) as abs eqn:Eabs.
  remember (set_t fr0 (frame_time this abs fr0)) as fr eqn:Efr.
  cbn [l_valid_frame] in H.
  rewrite (int_incr_below (l_valid_frame l)) in H by lia.
  assert (Hlog : forall tl, loaded_of (log_loaded this abs ++ tl) = loaded_of tl)
    by (intros; now rewrite loaded_of_app, loaded_of_log).
  assert (Hlog' : forall tl, sent_of (log_loaded this abs ++ tl) = sent_of tl)
    by (intros; now rewrite sent_of_app, sent_of_log).
  unfold counted, accepted.
  destruct (is_end_of_interval this abs (t fr)) eqn:Hend.
  { injection H as <- <- <-. rewrite Hlog, Hlog'. simpl. rewrite Hend. simpl.
    repeat split; try lia; try (f_equal; lia). }
  destruct (is_frame_valid this abs (t fr)) as [[ | ] | u] eqn:Hval.
  - injection H as <- <- <-. rewrite Hlog, Hlog'. simpl. rewrite Hend, Hval. simpl.
    destruct (l_valid_frame l + 1 =? 0); simpl; repeat split; try lia; try (f_equal; lia).
  - injection H as <- <- <-. rewrite Hlog, Hlog'. simpl. rewrite Hend, Hval. simpl.
    repeat split; try lia; try (f_equal; lia).
  - injection H as <- <- <-. rewrite Hlog, Hlog'. simpl. rewrite Hend, Hval. simpl.
    repeat split; try lia; try (f_equal; lia).
Qed.

Lemma frames_loop_counted this rs : forall l ev l' x,
  frames_loop this rs l = (ev, l', x) ->
  l_valid_frame l <= abs_frame l ->
  counted this l ev l'.
Proof.
  induction rs as [ | r rs IH]; intros l ev l' x H Hle.
  - inversion H; subst. now apply counted_nil.
  - destruct r as [fr | w].
    2:{ inversion H; subst. now apply counted_nil. }
    cbn [frames_loop] in H.
    destruct (frame_body this l fr) as [[ev1 l1] x1] eqn:Hb.
    pose proof (frame_body_counted _ _ _ _ _ _ Hb Hle) as C1.
    destruct x1.
    + destruct (frames_loop this rs l1) as [[ev2 l2] x2] eqn:Hr.
      inversion H; subst.
      eapply counted_app; [exact C1 | ].
      eapply IH; [exact Hr | ]. apply C1.
    + inversion H; subst. exact C1.
    + inversion H; subst. exact C1.
Qed.

Lemma files_loop_counted io_factory this fs : forall l ev x,
  files_loop io_factory this fs l = (ev, x) ->
  l_valid_frame l <= abs_frame l ->
  exists l', counted this l ev l'.
Proof.
  induction fs as [ | f fs IH]; intros l ev x H Hle.
  - inversion H; subst. exists l. now apply counted_nil.
  - cbn [files_loop] in H.
    destruct (open_throws (io_factory f)).
    { inversion H; subst. exists l. now apply counted_silent. }
    destruct (frames_loop this (reads (io_factory f)) l) as [[ev1 l1] x1] eqn:Hf.
    pose proof (frames_loop_counted _ _ _ _ _ _ Hf Hle) as C1.
    assert (Hhd : forall tl lf, counted this l tl lf ->
              counted this l (Cout (Reading_trajectory f) :: Io_factory f :: tl) lf).
    { intros tl lf C.
      apply (counted_app this l [Cout (Reading_trajectory f); Io_factory f] l tl lf);
        [now apply counted_silent | exact C]. }
    assert (Hle1 : l_valid_frame l1 <= abs_frame l1) by apply C1.
    destruct x1.
    + destruct (files_loop io_factory this fs l1) as [ev2 x2] eqn:Hr.
      injection H as <- <-.
      destruct (IH _ _ _ Hr Hle1) as [l2 C2]. exists l2.
      apply Hhd. eapply counted_app; [exact C1 | ].
      apply (counted_app this l1 [Cout Reading_done] l1 ev2 l2);
        [now apply counted_silent | exact C2].
    + injection H as <- <-. exists l1. apply Hhd.
      eapply counted_app; [exact C1 | ]. now apply counted_silent.
    + injection H as <- <-. exists l1. now apply Hhd.
    + injection H as <- <-. exists l1. now apply Hhd.
Qed.

Lemma reader_counted io_factory this :
  exists l', counted this locals0 (fst (reader_thread_body io_factory this)) l'.
Proof.
  unfold reader_thread_body.
  destruct (files_loop io_factory this (TP.traj_files this) locals0) as [ev x] eqn:H.
  assert (Hle : l_valid_frame locals0 <= abs_frame locals0) by (simpl; lia).
  destruct (files_loop_counted _ _ _ _ _ _ H Hle) as [l' C].
  assert (Hle' : l_valid_frame l' <= abs_frame l') by apply C.
  exists l'. destruct x; cbn [fst].
  - eapply counted_app; [exact C | ]. now apply counted_silent.
  - eapply counted_app; [exact C | ]. now apply counted_silent.
  - exact C.
Qed.

Lemma zseq_above a n x : In x (zseq a n) -> a <= x.
Proof.
  revert a. induction n as [ | n IH]; intros a; simpl; [tauto | ].
  intros [<- | H]; [lia | ]. specialize (IH _ H). lia.
Qed.

Lemma zseq_increasing a n : StronglySorted Z.lt (zseq a n).
Proof.
  revert a. induction n as [ | n IH]; intros a; simpl; constructor.
  - apply IH.
  - apply Forall_forall. intros x Hx. apply zseq_above in Hx. lia.
Qed.

(** ** Reader thread: the frames read are the frames of the files *)

Lemma numbered_app this frames1 : forall a frames2,
  numbered this a (frames1 ++ frames2)
  = numbered this a frames1
    ++ numbered this (a + Z.of_nat (List.length frames1)) frames2.
Proof.
  induction frames1 as [ | fr frames1 IH]; intros a frames2.
  - cbn. now rewrite Z.add_0_r.
  - cbn [app numbered List.length]. rewrite IH. do 3 f_equal. lia.
Qed.

Lemma ended_app this ev1 ev2 :
  ended this (ev1 ++ ev2) = ended this ev1 || ended this ev2.
Proof. unfold ended. now rewrite loaded_of_app, existsb_app. Qed.

Lemma ended_silent this ev : loaded_of ev = [] -> ended this ev = false.
Proof. unfold ended. now intros ->. Qed.

(** One iteration reads on the frame it was given, under the next index,
    unless that index overflows. *)
Lemma frame_body_reads this l fr0 ev l' x :
  frame_body this l fr0 = (ev, l', x) ->
  let one := [read_as this (abs_frame l + 1) fr0] in
  match x with
  | Continue =>
    loaded_of ev = one /\ abs_frame l' = abs_frame l + 1 /\ ended this ev = false
  | Break_finished => loaded_of ev = one /\ ended this ev = true
  | Ub _ => loaded_of ev = [] \/ loaded_of ev = one
  end.
Proof.
  unfold frame_body, read_as. intros H. cbn zeta.
  destruct (int_incr (abs_frame l)) as [abs | u] eqn:Habs.
  2:{ injection H as <- <- <-. now left. }
  apply int_incr_ok in Habs. destruct Habs as [-> _].
  assert (Hl : forall tl, loaded_of tl = [] ->
            loaded_of (log_loaded this (abs_frame l + 1)
                       ++ Loaded (abs_frame l + 1)
                            (set_t fr0 (frame_time this (abs_frame l + 1) fr0)) :: tl)
            = [(abs_frame l + 1, set_t fr0 (frame_time this (abs_frame l + 1) fr0))]).
  { intros tl Htl. rewrite loaded_of_app, loaded_of_log. cbn. now rewrite Htl. }
  destruct (is_end_of_interval _ _ _) eqn:Hend.
  { injection H as <- <- <-. rewrite Hl by reflexivity. split; [reflexivity | ].
    unfold ended. rewrite Hl by reflexivity. cbn [existsb fst snd]. now rewrite Hend. }
  assert (He : forall tl, loaded_of tl = [] ->
            ended this (log_loaded this (abs_frame l + 1)
                        ++ Loaded (abs_frame l + 1)
                             (set_t fr0 (frame_time this (abs_frame l + 1) fr0)) :: tl)
            = false).
  { intros tl Htl. unfold ended. rewrite Hl by exact Htl. cbn [existsb fst snd].
    now rewrite Hend. }
  destruct (is_frame_valid _ _ _) as [[ | ] | u].
  - destruct (int_incr _) as [valid | u]; injection H as <- <- <-.
    + rewrite Hl, He by reflexivity. repeat split. now destruct (valid =? 0).
    + right. now apply Hl.
  - injection H as <- <- <-. rewrite Hl, He by reflexivity. now repeat split.
  - injection H as <- <- <-. right. now apply Hl.
Qed.

(** The loop over one open file reads on the frames the file yields, in
    order and under successive indices: all of them when it leaves at the
    end of the file or by an error of [read], and the frames up to the one
    that ends the interval when it leaves for that. *)
Lemma frames_loop_reads this rs : forall l ev l' x,
  frames_loop this rs l = (ev, l', x) ->
  let g := fst (goods rs) in
  let a := abs_frame l + 1 in
  match x with
  | Eof =>
    loaded_of ev = numbered this a g /\ snd (goods rs) = false
    /\ abs_frame l' = abs_frame l + Z.of_nat (List.length g)
    /\ ended this ev = false
  | Throw _ =>
    loaded_of ev = numbered this a g /\ snd (goods rs) = true
    /\ ended this ev = false
  | Finished =>
    (exists k, (k <= List.length g)%nat /\ loaded_of ev = numbered this a (firstn k g))
    /\ ended this ev = true
  | File_ub _ =>
    exists k, (k <= List.length g)%nat /\ loaded_of ev = numbered this a (firstn k g)
  end.
Proof.
  induction rs as [ | r rs IH]; intros l ev l' x H.
  - injection H as <- <- <-. cbn. repeat split. lia.
  - destruct r as [fr | w].
    2:{ injection H as <- <- <-. cbn. now repeat split. }
    cbn [frames_loop] in H. cbn [goods].
    destruct (goods rs) as [g thrown] eqn:Hg. cbn [fst snd] in IH |- *.
    destruct (frame_body this l fr) as [[ev1 l1] x1] eqn:Hb.
    apply frame_body_reads in Hb. cbn zeta in Hb.
    destruct x1 as [ | | u].
    + destruct Hb as (Hl1 & Ha1 & He1).
      destruct (frames_loop this rs l1) as [[ev2 l2] x2] eqn:Hr.
      injection H as <- <- <-. specialize (IH _ _ _ _ Hr). cbn zeta in IH.
      rewrite Ha1 in IH. rewrite loaded_of_app, ended_app, Hl1, He1.
      cbn [app orb numbered List.length].
      destruct x2 as [ | | w | u].
      * destruct IH as (Hl2 & Ht & Ha2 & He2). rewrite Hl2, Ha2.
        repeat split; try assumption. lia.
      * destruct IH as [[k [Hk Hl2]] He2]. split; [ | exact He2].
        exists (S k). cbn [firstn numbered List.length]. rewrite Hl2.
        split; [lia | reflexivity].
      * destruct IH as (Hl2 & Ht & He2). rewrite Hl2. now repeat split.
      * destruct IH as [k [Hk Hl2]].
        exists (S k). cbn [firstn numbered List.length]. rewrite Hl2.
        split; [lia | reflexivity].
    + destruct Hb as [Hl1 He1]. injection H as <- <- <-.
      split; [ | exact He1]. exists 1%nat. cbn [firstn numbered List.length].
      split; [lia | exact Hl1].
    + injection H as <- <- <-. destruct Hb as [Hl1 | Hl1].
      * exists 0%nat. split; [lia | exact Hl1].
      * exists 1%nat. cbn [firstn numbered List.length]. split; [lia | exact Hl1].
Qed.

Lemma firstn_within {A} k (l1 l2 : list A) :
  (k <= List.length l1)%nat -> firstn k (l1 ++ l2) = firstn k l1.
Proof.
  intros Hk. rewrite firstn_app.
  replace (k - List.length l1)%nat with 0%nat by lia. cbn. apply app_nil_r.
Qed.

(** The loop over the files reads on the frames the files yield, in order
    and under successive indices, through all the files: a front part of
    them always, and all of them when it is left without a frame that
    ends the interval, be it at the end of the list or by an error. *)
Lemma files_loop_reads io_factory this fs : forall l ev x,
  files_loop io_factory this fs l = (ev, x) ->
  let disk := frames_on_disk io_factory fs in
  let a := abs_frame l + 1 in
  (exists k, loaded_of ev = numbered this a (firstn k disk))
  /\ match x with
     | Fell_through => ended this ev = false -> loaded_of ev = numbered this a disk
     | Thrown _ => loaded_of ev = numbered this a disk /\ ended this ev = false
     | Files_ub _ => True
     end.
Proof.
  induction fs as [ | f fs IH]; intros l ev x H.
  - injection H as <- <-. cbn. split; [now exists 0%nat | reflexivity].
  - cbn [files_loop] in H. cbn [frames_on_disk].
    destruct (open_throws (io_factory f)).
    { injection H as <- <-. cbn. split; [now exists 0%nat | now split]. }
    destruct (frames_loop this (reads (io_factory f)) l) as [[ev1 l1] x1] eqn:Hf.
    apply frames_loop_reads in Hf. cbn zeta in Hf.
    destruct (goods (reads (io_factory f))) as [g thrown]. cbn [fst snd] in Hf.
    destruct x1 as [ | | w | u].
    + destruct Hf as (Hl1 & -> & Ha1 & He1).
      destruct (files_loop io_factory this fs l1) as [ev2 x2] eqn:Hr.
      injection H as <- <-. specialize (IH _ _ _ Hr). cbn zeta in IH.
      rewrite Ha1 in IH. destruct IH as [[k Hk] Hx].
      assert (Hl : forall tl, loaded_of tl = loaded_of ev2 ->
                loaded_of (Cout (Reading_trajectory f) :: Io_factory f
                           :: ev1 ++ Cout Reading_done :: tl)
                = numbered this (abs_frame l + 1) g ++ loaded_of ev2).
      { intros tl Htl. cbn [app loaded_of]. rewrite loaded_of_app, Hl1.
        cbn [loaded_of]. now rewrite Htl. }
      assert (He : ended this (Cout (Reading_trajectory f) :: Io_factory f
                               :: ev1 ++ Cout Reading_done :: ev2)
                   = ended this ev2).
      { unfold ended at 1. rewrite (Hl ev2 eq_refl), existsb_app.
        fold (ended this ev2). unfold ended in He1. rewrite Hl1 in He1.
        now rewrite He1. }
      rewrite (Hl ev2 eq_refl), He.
      replace (abs_frame l + Z.of_nat (List.length g) + 1)
        with (abs_frame l + 1 + Z.of_nat (List.length g)) in * by lia.
      split.
      * exists (List.length g + k)%nat. rewrite firstn_app_2, numbered_app, Hk.
        reflexivity.
      * destruct x2 as [ | w | u].
        -- intros Hno. now rewrite numbered_app, (Hx Hno).
        -- destruct Hx as [Hall Hno]. now rewrite numbered_app, Hall.
        -- exact I.
    + destruct Hf as [[k [Hk Hl1]] He1]. injection H as <- <-.
      assert (Hl : loaded_of (Cout (Reading_trajectory f) :: Io_factory f
                              :: ev1 ++ [Cout Reading_done]) = loaded_of ev1).
      { cbn [app loaded_of]. rewrite loaded_of_app. cbn. apply app_nil_r. }
      assert (He : ended this (Cout (Reading_trajectory f) :: Io_factory f
                               :: ev1 ++ [Cout Reading_done]) = true).
      { unfold ended in *. now rewrite Hl. }
      rewrite Hl, He. split; [ | discriminate].
      exists k. rewrite Hl1. destruct thrown; [reflexivity | ].
      now rewrite firstn_within.
    + destruct Hf as (Hl1 & -> & He1). injection H as <- <-.
      assert (Hl : loaded_of (Cout (Reading_trajectory f) :: Io_factory f :: ev1)
                   = loaded_of ev1) by reflexivity.
      assert (He : ended this (Cout (Reading_trajectory f) :: Io_factory f :: ev1)
                   = false) by (unfold ended in *; now rewrite Hl).
      rewrite Hl, He, Hl1. split; [ | now split].
      exists (List.length g). now rewrite firstn_all.
    + destruct Hf as [k [Hk Hl1]]. injection H as <- <-.
      assert (Hl : loaded_of (Cout (Reading_trajectory f) :: Io_factory f :: ev1)
                   = loaded_of ev1) by reflexivity.
      rewrite Hl, Hl1. split; [ | exact I].
      exists k. destruct thrown; [reflexivity | ]. now rewrite firstn_within.
Qed.

(** The reader reads on the frames that its trajectory files yield, in
    the order of the files and of the frames in them, the first under the
    index 0: a front part of them always, and all of them when it returns
    without having met a frame that ends the interval. *)
Lemma reader_reads_disk io_factory this :
  let r := reader_thread_body io_factory this in
  let disk := frames_on_disk io_factory (TP.traj_files this) in
  (exists k, loaded_of (fst r) = numbered this 0 (firstn k disk))
  /\ (snd r = Ok tt -> ended this (fst r) = false ->
      loaded_of (fst r) = numbered this 0 disk).
Proof.
  cbn zeta. unfold reader_thread_body.
  destruct (files_loop io_factory this (TP.traj_files this) locals0) as [ev x] eqn:H.
  apply files_loop_reads in H. cbn zeta in H. cbn [abs_frame locals0] in H.
  change (-1 + 1) with 0 in H. destruct H as [Hk Hx].
  destruct x as [ | w | u]; cbn [fst snd].
  - assert (Hl : loaded_of (ev ++ [Channel_send_stop]) = loaded_of ev)
      by (rewrite loaded_of_app; apply app_nil_r).
    assert (He : ended this (ev ++ [Channel_send_stop]) = ended this ev)
      by (unfold ended; now rewrite Hl).
    rewrite Hl, He. split; [exact Hk | intros _; exact Hx].
  - assert (Hl : loaded_of (ev ++ [Channel_send_stop; Cout Reading_stopped;
                                   Cout (What w)]) = loaded_of ev)
      by (rewrite loaded_of_app; apply app_nil_r).
    rewrite Hl. split; [exact Hk | intros _ _; exact (proj1 Hx)].
  - split; [exact Hk | discriminate].
Qed.

(** C6. In every run of the reader the frames physically read are the
    frames that the trajectory files yield, in the order of the files and
    of the frames in them: the frame read on under the absolute index k is
    the k-th frame of the files taken together, with no frame left out, no
    index left out and no index used twice, also from one file to the
    next; the reader reads a front part of the frames always, and all of
    them when it returns without having met a frame that ends the
    interval.  The containers published carry the valid-frame ordinals
    0, 1, 2, ...; both sequences are strictly increasing; and the
    containers published are exactly the frames read that the filter
    accepts, each under the absolute index it was read with. *)
Theorem reader_counters io_factory this :
  let r := reader_thread_body io_factory this in
  let ev := fst r in
  let disk := frames_on_disk io_factory (TP.traj_files this) in
  let absolute := map fst (loaded_of ev) in
  let ordinal := map (fun d => valid_frame (frame_info d)) (sent_of ev) in
  absolute = zseq 0 (List.length (loaded_of ev))
  /\ ordinal = zseq 0 (List.length (sent_of ev))
  /\ StronglySorted Z.lt absolute
  /\ StronglySorted Z.lt ordinal
  /\ map key_of (sent_of ev) = filter (accepted this) (loaded_of ev)
  /\ (exists k, loaded_of ev = numbered this 0 (firstn k disk))
  /\ (snd r = Ok tt -> ended this ev = false -> loaded_of ev = numbered this 0 disk).
Proof.
  destruct (reader_counted io_factory this) as [l' (A & V & K & _)].
  destruct (reader_reads_disk io_factory this) as [Hk Hall].
  cbn zeta. cbn [abs_frame l_valid_frame locals0] in A, V.
  change (-1 + 1) with 0 in A, V.
  repeat split; try assumption.
  - rewrite A. apply zseq_increasing.
  - rewrite V. apply zseq_increasing.
Qed.
(** ** Reader thread: end of the requested interval *)

Lemma after_end_weaken this (k k' : list reader_event -> Prop) ev :
  (forall r, k r -> k' r) -> after_end this k ev -> after_end this k' ev.
Proof.
  intros Hk. induction ev as [ | e ev IH]; simpl; [trivial | ].
  destruct e; try exact IH.
  intros [H1 H2]. split; [ | now apply IH]. intros E. apply Hk. now apply H1.
Qed.

Lemma after_end_app this (k : list reader_event -> Prop) ev1 ev2 :
  after_end this (fun r => k (r ++ ev2)) ev1 ->
  after_end this k ev2 ->
  after_end this k (ev1 ++ ev2).
Proof.
  intros H1 H2. induction ev1 as [ | e ev1 IH]; simpl; [exact H2 | ].
  destruct e; simpl in H1; try (now apply IH).
  destruct H1 as [Ha Hb]. split; [exact Ha | now apply IH].
Qed.

Lemma after_end_split this (k : list reader_event -> Prop) pre a fr post :
  after_end this k (pre ++ Loaded a fr :: post) ->
  is_end_of_interval this a (t fr) = true ->
  k post.
Proof.
  induction pre as [ | e pre IH]; simpl.
  - intros [H _] E. now apply H.
  - destruct e; try exact IH. intros [_ H]. now apply IH.
Qed.

Lemma after_end_log this k a tl :
  after_end this k tl -> after_end this k (log_loaded this a ++ tl).
Proof. unfold log_loaded. now destruct (_ && _). Qed.

Lemma frame_body_after_end this l fr0 ev l' x :
  frame_body this l fr0 = (ev, l', x) ->
  after_end this (fun r => r = [Channel_send_stop] /\ x = Break_finished) ev.
Proof.
  unfold frame_body. intros H.
  destruct (int_incr (abs_frame l)) as [abs | u].
  2:{ injection H as <- <- <-. exact I. }
  remember (set_t fr0 (frame_time this abs fr0)) as fr eqn:Efr.
  destruct (is_end_of_interval this abs (t fr)) eqn:Hend.
  { injection H as <- <- <-. apply after_end_log. simpl. auto. }
  assert (Hone : forall y, after_end this
            (fun r => r = [Channel_send_stop] /\ y = Break_finished) [Loaded abs fr]).
  { intros y. simpl. split; [ | exact I]. intros E. congruence. }
  assert (Htwo : forall y d, after_end this
            (fun r => r = [Channel_send_stop] /\ y = Break_finished)
            [Loaded abs fr; Channel_send d]).
  { intros y d. simpl. split; [ | exact I]. intros E. congruence. }
  destruct (is_frame_valid this abs (t fr)) as [[ | ] | u].
  - destruct (int_incr _) as [valid | u];
      injection H as <- <- <-; apply after_end_log; [apply Htwo | apply Hone].
  - injection H as <- <- <-. apply after_end_log, Hone.
  - injection H as <- <- <-. apply after_end_log, Hone.
Qed.

Lemma frames_loop_after_end this rs : forall l ev l' x,
  frames_loop this rs l = (ev, l', x) ->
  after_end this (fun r => r = [Channel_send_stop] /\ x = Finished) ev.
Proof.
  induction rs as [ | r rs IH]; intros l ev l' x H.
  - injection H as <- <- <-. exact I.
  - destruct r as [fr | w].
    2:{ injection H as <- <- <-. exact I. }
    cbn [frames_loop] in H.
    destruct (frame_body this l fr) as [[ev1 l1] x1] eqn:Hb.
    apply frame_body_after_end in Hb.
    destruct x1.
    + destruct (frames_loop this rs l1) as [[ev2 l2] x2] eqn:Hr.
      injection H as <- <- <-.
      apply after_end_app; [ | eapply IH; exact Hr].
      eapply after_end_weaken; [ | exact Hb].
      intros r [_ E]. discriminate E.
    + injection H as <- <- <-.
      eapply after_end_weaken; [ | exact Hb]. intros r [E _]. now split.
    + injection H as <- <- <-.
      eapply after_end_weaken; [ | exact Hb]. intros r [_ E]. discriminate E.
Qed.

Lemma files_loop_after_end io_factory this fs : forall l ev x,
  files_loop io_factory this fs l = (ev, x) ->
  after_end this
    (fun r => r = [Channel_send_stop; Cout Reading_done] /\ x = Fell_through) ev.
Proof.
  induction fs as [ | f fs IH]; intros l ev x H.
  - injection H as <- <-. exact I.
  - cbn [files_loop] in H.
    destruct (open_throws (io_factory f)).
    { injection H as <- <-. exact I. }
    destruct (frames_loop this (reads (io_factory f)) l) as [[ev1 l1] x1] eqn:Hf.
    apply frames_loop_after_end in Hf.
    destruct x1.
    + destruct (files_loop io_factory this fs l1) as [ev2 x2] eqn:Hr.
      injection H as <- <-. cbn [app after_end].
      apply after_end_app; [ | cbn [app after_end]; eapply IH; exact Hr].
      eapply after_end_weaken; [ | exact Hf]. intros r [_ E]. discriminate E.
    + injection H as <- <-. cbn [app after_end].
      apply after_end_app; [ | exact I].
      eapply after_end_weaken; [ | exact Hf]. intros r [-> _]. now split.
    + injection H as <- <-. cbn [app after_end].
      rewrite <- (app_nil_r ev1). apply after_end_app; [ | exact I].
      eapply after_end_weaken; [ | exact Hf]. intros r [_ E]. discriminate E.
    + injection H as <- <-. cbn [app after_end].
      rewrite <- (app_nil_r ev1). apply after_end_app; [ | exact I].
      eapply after_end_weaken; [ | exact Hf]. intros r [_ E]. discriminate E.
Qed.

(** C7. Whenever a frame read lies beyond the requested interval, what the
    reader does after it is exactly: send the stop, report the end of
    reading, send the stop once more, and return.  No container is
    published, no frame read and no file opened after that frame, whatever
    [is_frame_valid] would say of it, also where it has no defined value. *)
Theorem reader_stops_at_end_of_interval io_factory this pre a fr post :
  fst (reader_thread_body io_factory this) = pre ++ Loaded a fr :: post ->
  is_end_of_interval this a (t fr) = true ->
  post = [Channel_send_stop; Cout Reading_done; Channel_send_stop]
  /\ snd (reader_thread_body io_factory this) = Ok tt.
Proof.
  intros Hev Hend.
  assert (A : after_end this
            (fun r => r = [Channel_send_stop; Cout Reading_done; Channel_send_stop]
                      /\ snd (reader_thread_body io_factory this) = Ok tt)
            (fst (reader_thread_body io_factory this))).
  { unfold reader_thread_body.
    destruct (files_loop io_factory this (TP.traj_files this) locals0) as [ev x] eqn:H.
    apply files_loop_after_end in H.
    destruct x; cbn [fst snd].
    - apply after_end_app; [ | exact I].
      eapply after_end_weaken; [ | exact H]. intros r [-> _]. now split.
    - apply after_end_app; [ | exact I].
      eapply after_end_weaken; [ | exact H]. intros r [_ E]. discriminate E.
    - eapply after_end_weaken; [ | exact H]. intros r [_ E]. discriminate E. }
  rewrite Hev in A. exact (after_end_split _ _ _ _ _ _ A Hend).
Qed.

(** ** Reader thread: time override *)

Lemma Forall_log (P : reader_event -> Prop) this a tl :
  (forall line, P (Cout line)) -> Forall P tl -> Forall P (log_loaded this a ++ tl).
Proof.
  intros HP H. unfold log_loaded. destruct (_ && _); simpl; [ | exact H].
  constructor; [apply HP | exact H].
Qed.

Lemma frame_body_well_timed this l fr0 ev l' x :
  fge (TP.custom_dt this) f0 = true ->
  frame_body this l fr0 = (ev, l', x) ->
  Forall (well_timed this) ev.
Proof.
  intros Hdt. unfold frame_body. intros H.
  destruct (int_incr (abs_frame l)) as [abs | u].
  2:{ injection H as <- <- <-. constructor. }
  assert (Ht : t (set_t fr0 (frame_time this abs fr0)) = custom_time this abs).
  { unfold frame_time. rewrite Hdt. reflexivity. }
  remember (set_t fr0 (frame_time this abs fr0)) as fr eqn:Efr.
  assert (HL : well_timed this (Loaded abs fr)) by exact Ht.
  assert (HC : forall line, well_timed this (Cout line)) by (intros; exact I).
  destruct (is_end_of_interval this abs (t fr)).
  { injection H as <- <- <-. apply Forall_log; [exact HC | ].
    repeat constructor. exact HL. }
  destruct (is_frame_valid this abs (t fr)) as [[ | ] | u].
  - destruct (int_incr _) as [valid | u]; injection H as <- <- <-;
      (apply Forall_log; [exact HC | ]); repeat constructor; try exact HL.
    destruct (valid =? 0); simpl; exact Ht.
  - injection H as <- <- <-. apply Forall_log; [exact HC | ].
    repeat constructor. exact HL.
  - injection H as <- <- <-. apply Forall_log; [exact HC | ].
    repeat constructor. exact HL.
Qed.

Lemma frames_loop_well_timed this rs : forall l ev l' x,
  fge (TP.custom_dt this) f0 = true ->
  frames_loop this rs l = (ev, l', x) ->
  Forall (well_timed this) ev.
Proof.
  induction rs as [ | r rs IH]; intros l ev l' x Hdt H.
  - injection H as <- <- <-. constructor.
  - destruct r as [fr | w].
    2:{ injection H as <- <- <-. constructor. }
    cbn [frames_loop] in H.
    destruct (frame_body this l fr) as [[ev1 l1] x1] eqn:Hb.
    apply (frame_body_well_timed _ _ _ _ _ _ Hdt) in Hb.
    destruct x1.
    + destruct (frames_loop this rs l1) as [[ev2 l2] x2] eqn:Hr.
      injection H as <- <- <-. apply Forall_app. split; [exact Hb | ].
      eapply IH; [exact Hdt | exact Hr].
    + injection H as <- <- <-. exact Hb.
    + injection H as <- <- <-. exact Hb.
Qed.

Lemma files_loop_well_timed io_factory this fs : forall l ev x,
  fge (TP.custom_dt this) f0 = true ->
  files_loop io_factory this fs l = (ev, x) ->
  Forall (well_timed this) ev.
Proof.
  induction fs as [ | f fs IH]; intros l ev x Hdt H.
  - injection H as <- <-. constructor.
  - cbn [files_loop] in H.
    destruct (open_throws (io_factory f)).
    { injection H as <- <-. repeat constructor. }
    destruct (frames_loop this (reads (io_factory f)) l) as [[ev1 l1] x1] eqn:Hf.
    apply (frames_loop_well_timed _ _ _ _ _ _ Hdt) in Hf.
    destruct x1.
    + destruct (files_loop io_factory this fs l1) as [ev2 x2] eqn:Hr.
      injection H as <- <-. cbn [app]. do 2 (constructor; [exact I | ]).
      apply Forall_app. split; [exact Hf | ].
      constructor; [exact I | ]. eapply IH; [exact Hdt | exact Hr].
    + injection H as <- <-. cbn [app]. do 2 (constructor; [exact I | ]).
      apply Forall_app. split; [exact Hf | ]. repeat constructor.
    + injection H as <- <-. cbn [app]. do 2 (constructor; [exact I | ]). exact Hf.
    + injection H as <- <-. cbn [app]. do 2 (constructor; [exact I | ]). exact Hf.
Qed.

Lemma reader_well_timed io_factory this :
  fge (TP.custom_dt this) f0 = true ->
  Forall (well_timed this) (fst (reader_thread_body io_factory this)).
Proof.
  intros Hdt. unfold reader_thread_body.
  destruct (files_loop io_factory this (TP.traj_files this) locals0) as [ev x] eqn:H.
  apply (files_loop_well_timed _ _ _ _ _ _ Hdt) in H.
  destruct x; cbn [fst]; try exact H;
    apply Forall_app; split; try exact H; repeat constructor.
Qed.

Lemma in_loaded_of a fr ev : In (a, fr) (loaded_of ev) -> In (Loaded a fr) ev.
Proof.
  induction ev as [ | e ev IH]; simpl; [trivial | ].
  destruct e; simpl; try (intros H; right; now apply IH).
  intros [E | H]; [left; now inversion E | right; now apply IH].
Qed.

Lemma in_sent_of d ev : In d (sent_of ev) -> In (Channel_send d) ev.
Proof.
  induction ev as [ | e ev IH]; simpl; [trivial | ].
  destruct e; simpl; try (intros H; right; now apply IH).
  intros [E | H]; [left; now subst | right; now apply IH].
Qed.

Lemma numbered_overridden this frames : forall a,
  fge (TP.custom_dt this) f0 = true ->
  numbered this a frames = overridden this a frames.
Proof.
  induction frames as [ | fr frames IH]; intros a Hdt; [reflexivity | ].
  cbn [numbered overridden]. rewrite IH by exact Hdt.
  unfold read_as, frame_time, custom_time. now rewrite Hdt.
Qed.

(** C8. When [custom_dt] is set (not negative), the frame read on under
    the absolute index k is the k-th frame that the trajectory files
    yield with the time [custom_start_time + custom_dt*k] in place of the
    time the file held for it, for a front part of the frames always and
    for all of them when the reader returns without having met a frame
    that ends the interval; every frame read carries that time, and every
    container published carries it in its frame and in its metadata; with
    a start of 10 and a step of 2 the frame of absolute index 5 carries
    the time 20. *)
Theorem custom_time_overrides io_factory this :
  fge (TP.custom_dt this) f0 = true ->
  let r := reader_thread_body io_factory this in
  let ev := fst r in
  let disk := frames_on_disk io_factory (TP.traj_files this) in
  (forall a fr, In (a, fr) (loaded_of ev) -> t fr = custom_time this a)
  /\ (forall d, In d (sent_of ev) ->
        t (frame d) = custom_time this (absolute_frame (frame_info d))
        /\ absolute_time (frame_info d) = t (frame d))
  /\ (TP.custom_start_time this = float_of_int 10 ->
      TP.custom_dt this = float_of_int 2 ->
      forall fr, In (5, fr) (loaded_of ev) -> t fr = float_of_int 20)
  /\ (exists k, loaded_of ev = overridden this 0 (firstn k disk))
  /\ (snd r = Ok tt -> ended this ev = false -> loaded_of ev = overridden this 0 disk).
Proof.
  intros Hdt r ev disk. subst r ev disk.
  pose proof (reader_well_timed io_factory this Hdt) as W.
  rewrite Forall_forall in W.
  assert (HL : forall a fr,
            In (a, fr) (loaded_of (fst (reader_thread_body io_factory this))) ->
            t fr = custom_time this a).
  { intros a fr Hin. exact (W _ (in_loaded_of _ _ _ Hin)). }
  destruct (reader_reads_disk io_factory this) as [[k Hk] Hall].
  split; [exact HL | ]. split; [ | split; [ | split]].
  - intros d Hin. exact (W _ (in_sent_of _ _ Hin)).
  - intros Hs Hd fr Hin. rewrite (HL _ _ Hin). unfold custom_time.
    rewrite Hs, Hd. reflexivity.
  - exists k. now rewrite <- numbered_overridden.
  - intros Hret Hno. rewrite <- numbered_overridden by exact Hdt. now apply Hall.
Qed.

(** ** Sequential part of [run] *)

Lemma existsb_starts_thread_copy n : existsb starts_thread (copy_system n) = false.
Proof.
  unfold copy_system. destruct (1 <? n)%nat; [ | reflexivity].
  induction (seq 1 (n - 1)) as [ | i l IH]; simpl; [reflexivity | exact IH].
Qed.

Lemma copy_system_seq n : copy_system n = map System_copied (seq 1 (n - 1)).
Proof.
  unfold copy_system. destruct (Nat.ltb_spec 1 n) as [ | Hn]; [reflexivity | ].
  now replace (n - 1)%nat with 0%nat by lia.
Qed.

(** The loads: when none throws, the system holds the named structure
    file and then the named topology file, and these were the loads; when
    one throws, the error is that of a load of one of these files. *)
Lemma load_system_result load_throws sf tf :
  match load_system load_throws sf tf with
  | (ev, inr sys) => sys = kept sf ++ kept tf /\ ev = loading_events (kept sf ++ kept tf)
  | (ev, inl e) =>
    (exists what sys file,
       e = Thrown_by_load what /\ In file (kept sf ++ kept tf)
       /\ load_throws sys file = Some what)
    /\ existsb starts_thread ev = false
  end.
Proof.
  unfold load_system, load, kept.
  destruct (nonempty sf), (nonempty tf); cbn [andb negb app].
  - destruct (load_throws [] sf) as [w | ] eqn:H1.
    + split; [ | reflexivity]. exists w, [], sf. split; [reflexivity | ].
      split; [now left | exact H1].
    + cbn [app]. destruct (load_throws [sf] tf) as [w | ] eqn:H2.
      * split; [ | reflexivity]. exists w, [sf], tf. split; [reflexivity | ].
        split; [right; now left | exact H2].
      * now split.
  - destruct (load_throws [] sf) as [w | ] eqn:H1; [ | now split].
    split; [ | reflexivity]. exists w, [], sf. split; [reflexivity | ].
    split; [now left | exact H1].
  - destruct (load_throws [] tf) as [w | ] eqn:H1; [ | now split].
    split; [ | reflexivity]. exists w, [], tf. split; [reflexivity | ].
    split; [now left | exact H1].
  - now split.
Qed.

Lemma existsb_starts_thread_load load_throws sf tf :
  existsb starts_thread (fst (load_system load_throws sf tf)) = false.
Proof.
  pose proof (load_system_result load_throws sf tf) as H.
  destruct (load_system load_throws sf tf) as [ev [e | sys]]; cbn [fst].
  - exact (proj2 H).
  - destruct H as [_ ->]. unfold loading_events.
    destruct (kept sf ++ kept tf) as [ | f l]; [reflexivity | ].
    induction (f :: l) as [ | x r IH]; [reflexivity | exact IH].
Qed.

Lemma check_range_invalid options log_interval traj_files :
  invalid_range options = true ->
  check_range (get_parameters options log_interval traj_files) <> None.
Proof.
  unfold invalid_range, check_range, get_parameters. cbn zeta.
  cbn [TP.first_frame TP.last_frame TP.first_time TP.last_time].
  intros H. apply orb_true_iff in H. destruct H as [H | H].
  - rewrite H. discriminate.
  - rewrite H. destruct (_ && _ && (_ <? _)); discriminate.
Qed.

Lemma check_range_valid options log_interval traj_files :
  invalid_range options = false ->
  check_range (get_parameters options log_interval traj_files) = None.
Proof.
  unfold invalid_range, check_range, get_parameters. cbn zeta.
  cbn [TP.first_frame TP.last_frame TP.first_time TP.last_time].
  intros H. apply orb_false_iff in H. destruct H as [H1 H2].
  now rewrite H1, H2.
Qed.

Lemma sort_files_no_trajectory recognize_format values : forall sf tf acc,
  (forall s, In s values -> is_trajectory (recognize_format s) = false) ->
  match sort_files recognize_format values sf tf acc with
  | inl _ => True
  | inr (_, _, traj) => traj = acc
  end.
Proof.
  induction values as [ | s values IH]; intros sf tf acc H; simpl; [reflexivity | ].
  assert (Hs : is_trajectory (recognize_format s) = false) by (apply H; now left).
  assert (Hr : forall x, In x values -> is_trajectory (recognize_format x) = false)
    by (intros x Hx; apply H; now right).
  destruct (recognize_format s); try discriminate Hs;
    try (destruct (nonempty _); [exact I | ]); now apply IH.
Qed.

Lemma sort_files_only_trajectories recognize_format values : forall acc,
  (forall s, In s values -> is_structure_or_topology (recognize_format s) = false) ->
  sort_files recognize_format values EmptyString EmptyString acc
  = inr (EmptyString, EmptyString,
         acc ++ filter (fun s => is_trajectory (recognize_format s)) values).
Proof.
  induction values as [ | s values IH]; intros acc H; simpl.
  - now rewrite app_nil_r.
  - assert (Hs : is_structure_or_topology (recognize_format s) = false)
      by (apply H; now left).
    assert (Hr : forall x, In x values ->
                 is_structure_or_topology (recognize_format x) = false)
      by (intros x Hx; apply H; now right).
    destruct (recognize_format s); try discriminate Hs; simpl;
      rewrite (IH _ Hr); try reflexivity; now rewrite <- app_assoc.
Qed.

Lemma filter_and_nil {A} (p q : A -> bool) l :
  filter p l = [] -> filter (fun x => p x && q x) l = [].
Proof.
  induction l as [ | x l IH]; [reflexivity | ]. cbn.
  destruct (p x); [discriminate | exact IH].
Qed.

Lemma sort_files_sorted recognize_format values : forall sf0 tf0 acc sf tf traj,
  sort_files recognize_format values sf0 tf0 acc = inr (sf, tf, traj) ->
  traj = acc ++ of_class recognize_format is_trajectory values
  /\ (if nonempty sf0
      then of_class recognize_format is_structure values = [] /\ sf = sf0
      else named_of_class recognize_format is_structure values = kept sf)
  /\ (if nonempty tf0
      then of_class recognize_format is_topology values = [] /\ tf = tf0
      else named_of_class recognize_format is_topology values = kept tf).
Proof.
  unfold of_class, named_of_class, kept.
  induction values as [ | s rest IH]; intros sf0 tf0 acc sf tf traj H.
  - injection H as <- <- <-. rewrite app_nil_r. cbn.
    split; [reflexivity | ]. destruct (nonempty sf0), (nonempty tf0); now repeat split.
  - cbn [sort_files filter] in H |- *.
    destruct (recognize_format s) eqn:Hs; cbn [is_trajectory is_structure is_topology andb].
    1,2: destruct (nonempty sf0) eqn:Hsf0; [discriminate H | ];
         apply IH in H; destruct H as (Ht & Hsf & Htf);
         (split; [exact Ht | ]); (split; [ | exact Htf]);
         destruct (nonempty s) eqn:Hn; [ | exact Hsf];
         destruct Hsf as [Hnil ->]; rewrite Hn;
         now rewrite (filter_and_nil _ nonempty _ Hnil).
    + destruct (nonempty tf0) eqn:Htf0; [discriminate H | ].
      apply IH in H. destruct H as (Ht & Hsf & Htf).
      split; [exact Ht | ]. split; [exact Hsf | ].
      destruct (nonempty s) eqn:Hn; [ | exact Htf].
      destruct Htf as [Hnil ->]. rewrite Hn.
      now rewrite (filter_and_nil _ nonempty _ Hnil).
    + apply IH in H. destruct H as (Ht & Hsf & Htf).
      split; [now rewrite Ht, <- app_assoc | now split].
    + apply IH in H. destruct H as (Ht & Hsf & Htf).
      split; [now rewrite Ht, <- app_assoc | now split].
    + apply IH in H. destruct H as (Ht & Hsf & Htf).
      split; [now rewrite Ht, <- app_assoc | now split].
    + apply IH in H. destruct H as (Ht & Hsf & Htf). now repeat split.
Qed.

Lemma sort_files_error recognize_format values : forall sf0 tf0 acc e,
  sort_files recognize_format values sf0 tf0 acc = inl e ->
  match e with
  | Only_one_structure_file =>
    ((if nonempty sf0 then 1 else 2)
     <= List.length (of_class recognize_format is_structure values))%nat
  | Only_one_topology_file =>
    ((if nonempty tf0 then 1 else 2)
     <= List.length (of_class recognize_format is_topology values))%nat
  | _ => False
  end.
Proof.
  unfold of_class.
  induction values as [ | s rest IH]; intros sf0 tf0 acc e H; [discriminate H | ].
  cbn [sort_files filter] in H |- *.
  destruct (recognize_format s) eqn:Hs; cbn [is_structure is_topology].
  1,2: destruct (nonempty sf0) eqn:Hsf0;
       [injection H as <-; cbn [List.length]; lia | ];
       apply IH in H; destruct e; try exact H;
       cbn [List.length]; destruct (nonempty s); lia.
  - destruct (nonempty tf0) eqn:Htf0; [injection H as <-; cbn [List.length]; lia | ].
    apply IH in H. destruct e; try exact H.
    cbn [List.length]. destruct (nonempty s); lia.
  - exact (IH _ _ _ _ H).
  - exact (IH _ _ _ _ H).
  - exact (IH _ _ _ _ H).
  - exact (IH _ _ _ _ H).
Qed.

(** Whenever the sequential part throws, no thread has been started. *)
Lemma run_prologue_error_no_thread
  recognize_format load_throws log_interval consumers options e :
  snd (run_prologue recognize_format load_throws log_interval consumers options)
  = inl e ->
  existsb starts_thread
    (fst (run_prologue recognize_format load_throws log_interval consumers options))
  = false.
Proof.
  unfold run_prologue. destruct consumers as [ | c cs]; [reflexivity | ].
  cbn zeta.
  set (ev_dump := if nonempty (get_value (dump_input options) EmptyString)
                  then _ else _).
  assert (Hd : existsb starts_thread ev_dump = false)
    by (unfold ev_dump; now destruct (nonempty _)).
  destruct (sort_files _ _ _ _ _) as [e' | [[sf tf] traj]]; [intros _; exact Hd | ].
  destruct traj as [ | f traj]; [intros _; exact Hd | ].
  pose proof (existsb_starts_thread_load load_throws sf tf) as Hl.
  destruct (load_system load_throws sf tf) as [ev_load [e1 | sys1]]; cbn [fst] in Hl.
  { intros _. cbn [fst]. now rewrite !existsb_app, Hd, Hl. }
  destruct (check_range _); cbn [fst snd]; [ | discriminate].
  intros _. rewrite !existsb_app, Hd, Hl, existsb_starts_thread_copy. reflexivity.
Qed.

Lemma run_fst recognize_format load_throws io_factory log_interval consumers options :
  fst (run recognize_format load_throws io_factory log_interval consumers options)
  = fst (run_prologue recognize_format load_throws log_interval consumers options).
Proof.
  unfold run.
  now destruct (run_prologue recognize_format load_throws log_interval consumers
                  options) as [ev [e | st]].
Qed.

Lemma run_error recognize_format load_throws io_factory log_interval consumers options e :
  snd (run_prologue recognize_format load_throws log_interval consumers options)
  = inl e ->
  snd (run recognize_format load_throws io_factory log_interval consumers options)
  = inl e.
Proof.
  unfold run.
  destruct (run_prologue recognize_format load_throws log_interval consumers options)
    as [ev [e' | st]]; cbn; intros H; [now injection H as -> | discriminate H].
Qed.

Lemma run_error_back recognize_format load_throws io_factory log_interval consumers
  options e :
  snd (run recognize_format load_throws io_factory log_interval consumers options)
  = inl e ->
  snd (run_prologue recognize_format load_throws log_interval consumers options)
  = inl e.
Proof.
  unfold run.
  destruct (run_prologue recognize_format load_throws log_interval consumers options)
    as [ev [e' | st]]; cbn; intros H; [now injection H as -> | discriminate H].
Qed.

(** What the sequential part has done when it throws an error of the
    range check. *)
Lemma run_prologue_range_error
  recognize_format load_throws log_interval consumers options e :
  snd (run_prologue recognize_format load_throws log_interval consumers options)
  = inl e ->
  range_error e = true ->
  fst (run_prologue recognize_format load_throws log_interval consumers options)
  = dump_events options
    ++ System_clear
       :: loading_events
            (named_of_class recognize_format is_structure (trajectory options)
             ++ named_of_class recognize_format is_topology (trajectory options))
       ++ map System_copied (seq 1 (List.length consumers - 1)).
Proof.
  unfold run_prologue, dump_events. cbn zeta.
  destruct consumers as [ | c cs].
  { intros H. injection H as <-. discriminate. }
  destruct (sort_files recognize_format (trajectory options) EmptyString EmptyString [])
    as [e0 | [[sf tf] traj]] eqn:Hsort.
  { apply sort_files_error in Hsort. intros H. injection H as <-.
    destruct e0; try contradiction; discriminate. }
  apply sort_files_sorted in Hsort. destruct Hsort as (_ & Hs & Ht).
  cbn [nonempty String.eqb negb] in Hs, Ht. rewrite Hs, Ht.
  destruct traj as [ | f fs].
  { intros H. injection H as <-. discriminate. }
  pose proof (load_system_result load_throws sf tf) as Hl.
  destruct (load_system load_throws sf tf) as [ev_load [e1 | sys1]].
  { destruct Hl as [[w [sys [file (-> & _)]]] _]. intros H. injection H as <-.
    discriminate. }
  destruct Hl as [_ ->].
  destruct (check_range _) as [e1 | ]; [ | discriminate].
  intros _ _. cbn [fst app]. now rewrite copy_system_seq.
Qed.

(** C4, amended. Without consumers, without trajectory files or with an
    invalid range, [run] throws before it starts any thread, so that no
    trajectory file is ever opened.  Without consumers it has done nothing
    before; without trajectory files it has loaded no file into a system;
    and when it throws the error of the range, it has by then cleared the
    system of the first consumer, loaded into it the named structure file
    and the named topology file, and copied it to every other consumer. *)
Theorem configuration_error_fails
  recognize_format load_throws io_factory log_interval consumers options :
  configuration_error recognize_format consumers options ->
  fails_before_streaming recognize_format load_throws io_factory log_interval
    consumers options.
Proof.
  intros Hc.
  assert (Herr : exists e,
            snd (run_prologue recognize_format load_throws log_interval consumers
                   options) = inl e).
  { unfold run_prologue. destruct consumers as [ | c cs]; [now eexists | ].
    cbn zeta.
    pose proof (sort_files_no_trajectory recognize_format (trajectory options)
                  EmptyString EmptyString []) as Hs.
    destruct (sort_files _ _ _ _ _) as [e' | [[sf tf] traj]]; [now eexists | ].
    destruct traj as [ | f traj]; [now eexists | ].
    destruct (load_system load_throws sf tf) as [ev_load [e1 | sys1]];
      [now eexists | ].
    destruct Hc as [Hc | [Hc | Hc]].
    - discriminate Hc.
    - specialize (Hs Hc). discriminate Hs.
    - pose proof (check_range_invalid options log_interval (f :: traj) Hc) as Hr.
      destruct (check_range _); [now eexists | contradiction]. }
  unfold fails_before_streaming. cbn zeta. rewrite run_fst.
  destruct Herr as [e He].
  split; [exists e; now apply run_error | ].
  split; [exact (run_prologue_error_no_thread _ _ _ _ _ _ He) | ].
  split; [ | split].
  - intros ->. reflexivity.
  - intros Hno f. unfold run_prologue. destruct consumers as [ | c cs]; [simpl; tauto | ].
    cbn zeta.
    pose proof (sort_files_no_trajectory recognize_format (trajectory options)
                  EmptyString EmptyString [] Hno) as Hs.
    destruct (sort_files _ _ _ _ _) as [e' | [[sf tf] traj]].
    + cbn [fst]. destruct (nonempty _); simpl; intuition discriminate.
    + subst traj. cbn [fst]. destruct (nonempty _); simpl; intuition discriminate.
  - intros e1 He1 Hr.
    exact (run_prologue_range_error _ _ _ _ _ _ (run_error_back _ _ _ _ _ _ _ He1) Hr).
Qed.

(** C10. With at least one consumer, a valid range, at least one
    trajectory file and neither a structure nor a topology file among the
    files given, [run] throws nothing: it clears the first system, builds
    the error without throwing it, loads no file, and starts the reader
    thread and the streaming with every consumer's system in the cleared
    state. *)
Theorem no_structure_no_topology_is_not_an_error
  recognize_format load_throws io_factory log_interval consumers options :
  consumers <> [] ->
  invalid_range options = false ->
  (forall s, In s (trajectory options) ->
     is_structure_or_topology (recognize_format s) = false) ->
  (exists s, In s (trajectory options) /\ is_trajectory (recognize_format s) = true) ->
  let dump_file := get_value (dump_input options) EmptyString in
  let buf_size := get_value (buffer_size options) 10 in
  let traj_files :=
    filter (fun s => is_trajectory (recognize_format s)) (trajectory options) in
  run recognize_format load_throws io_factory log_interval consumers options
  = ((if nonempty dump_file then [Dump_written dump_file] else [])
       ++ [System_clear; Error_not_thrown]
       ++ copy_system (List.length consumers)
       ++ [Buffer_size_set buf_size; Reader_thread_started],
     inr (start io_factory
            {| s_this := get_parameters options log_interval traj_files;
               s_buf_size := buf_size;
               s_systems := map (fun _ => []) consumers |})).
Proof.
  intros Hc Hrange Hnone [s [Hin Htraj]]. cbn zeta.
  unfold run, run_prologue. destruct consumers as [ | c cs]; [contradiction | ].
  cbn zeta. rewrite (sort_files_only_trajectories _ _ [] Hnone). cbn [app].
  destruct (filter _ (trajectory options)) as [ | f traj] eqn:Hf.
  { assert (Hs : In s (filter (fun s => is_trajectory (recognize_format s))
                        (trajectory options)))
      by (apply filter_In; now split).
    rewrite Hf in Hs. contradiction. }
  unfold load_system. cbn [nonempty String.eqb negb andb].
  rewrite (check_range_valid _ _ _ Hrange).
  rewrite <- !app_assoc. reflexivity.
Qed.

(** ** Reader thread: what it puts on the channel *)

Lemma orderly_pending ev : orderly ev -> pending ev = map Some (sent_of ev).
Proof.
  induction ev as [ | e ev IH]; simpl; [reflexivity | ].
  destruct e; simpl; try exact IH.
  - intros H. now rewrite IH.
  - intros ->. reflexivity.
Qed.

Lemma orderly_app ev1 ev2 :
  orderly ev1 -> (In Channel_send_stop ev1 -> sent_of ev2 = []) -> orderly ev2 ->
  orderly (ev1 ++ ev2).
Proof.
  intros H1 Hs H2. induction ev1 as [ | e ev1 IH]; simpl; [exact H2 | ].
  destruct e; simpl in *; try (apply IH; [exact H1 | intros H; apply Hs; now right]).
  rewrite sent_of_app, H1. apply Hs. now left.
Qed.

Lemma not_stop_in_log this a : ~ In Channel_send_stop (log_loaded this a).
Proof.
  unfold log_loaded. destruct (_ && _); simpl; [ | tauto].
  intros [H | H]; [discriminate | exact H].
Qed.

Lemma orderly_log this a : orderly (log_loaded this a).
Proof. unfold log_loaded. now destruct (_ && _). Qed.

Lemma frame_body_orderly this l fr0 ev l' x :
  frame_body this l fr0 = (ev, l', x) ->
  orderly ev /\ (In Channel_send_stop ev -> x = Break_finished).
Proof.
  unfold frame_body. intros H.
  assert (Hlog : forall tl, orderly tl -> orderly (log_loaded this (abs_frame l + 1) ++ tl)).
  { intros tl Htl. apply orderly_app; [apply orderly_log | | exact Htl].
    intros Hin. now apply not_stop_in_log in Hin. }
  assert (Hin : forall tl y, ~ In Channel_send_stop tl ->
            In Channel_send_stop (log_loaded this (abs_frame l + 1) ++ tl) -> y).
  { intros tl y Hn Hi. exfalso. apply in_app_or in Hi. destruct Hi as [Hi | Hi];
      [now apply not_stop_in_log in Hi | contradiction]. }
  destruct (int_incr (abs_frame l)) as [abs | u] eqn:Habs.
  2:{ injection H as <- <- <-. split; [exact I | intros []]. }
  apply int_incr_ok in Habs. destruct Habs as [-> _].
  remember (set_t fr0 (frame_time this (abs_frame l + 1) fr0)) as fr eqn:Efr.
  destruct (is_end_of_interval this (abs_frame l + 1) (t fr)).
  { injection H as <- <- <-. split; [ | reflexivity]. apply Hlog. reflexivity. }
  destruct (is_frame_valid this (abs_frame l + 1) (t fr)) as [[ | ] | u].
  - destruct (int_incr _) as [valid | u]; injection H as <- <- <-;
      (split; [apply Hlog; exact I | apply Hin; simpl; intuition discriminate]).
  - injection H as <- <- <-.
    split; [apply Hlog; exact I | apply Hin; simpl; intuition discriminate].
  - injection H as <- <- <-.
    split; [apply Hlog; exact I | apply Hin; simpl; intuition discriminate].
Qed.

Lemma frames_loop_orderly this rs : forall l ev l' x,
  frames_loop this rs l = (ev, l', x) ->
  orderly ev /\ (In Channel_send_stop ev -> x = Finished).
Proof.
  induction rs as [ | r rs IH]; intros l ev l' x H.
  - injection H as <- <- <-. split; [exact I | intros []].
  - destruct r as [fr | w].
    2:{ injection H as <- <- <-. split; [exact I | intros []]. }
    cbn [frames_loop] in H.
    destruct (frame_body this l fr) as [[ev1 l1] x1] eqn:Hb.
    apply frame_body_orderly in Hb. destruct Hb as [Ho Hs].
    destruct x1.
    + destruct (frames_loop this rs l1) as [[ev2 l2] x2] eqn:Hr.
      injection H as <- <- <-. destruct (IH _ _ _ _ Hr) as [Ho2 Hs2]. split.
      * apply orderly_app; [exact Ho | | exact Ho2].
        intros Hin. specialize (Hs Hin). discriminate Hs.
      * intros Hin. apply in_app_or in Hin. destruct Hin as [Hin | Hin];
          [specialize (Hs Hin); discriminate Hs | now apply Hs2].
    + injection H as <- <- <-. split; [exact Ho | reflexivity].
    + injection H as <- <- <-. split; [exact Ho | ].
      intros Hin. specialize (Hs Hin). discriminate Hs.
Qed.

Lemma files_loop_orderly io_factory this fs : forall l ev x,
  files_loop io_factory this fs l = (ev, x) -> orderly ev.
Proof.
  induction fs as [ | f fs IH]; intros l ev x H.
  - injection H as <- <-. exact I.
  - cbn [files_loop] in H.
    destruct (open_throws (io_factory f)).
    { injection H as <- <-. exact I. }
    destruct (frames_loop this (reads (io_factory f)) l) as [[ev1 l1] x1] eqn:Hf.
    apply frames_loop_orderly in Hf. destruct Hf as [Ho Hs].
    destruct x1.
    + destruct (files_loop io_factory this fs l1) as [ev2 x2] eqn:Hr.
      injection H as <- <-. cbn [app orderly].
      apply orderly_app; [exact Ho | | cbn [app orderly]; exact (IH _ _ _ Hr)].
      intros Hin. specialize (Hs Hin). discriminate Hs.
    + injection H as <- <-. cbn [app orderly].
      apply orderly_app; [exact Ho | reflexivity | exact I].
    + injection H as <- <-. exact Ho.
    + injection H as <- <-. exact Ho.
Qed.

Lemma reader_orderly io_factory this :
  orderly (fst (reader_thread_body io_factory this)).
Proof.
  unfold reader_thread_body.
  destruct (files_loop io_factory this (TP.traj_files this) locals0) as [ev x] eqn:H.
  apply files_loop_orderly in H.
  destruct x; cbn [fst]; try exact H;
    (apply orderly_app; [exact H | reflexivity | reflexivity]).
Qed.

(** What the reader gets into its channel is what it hands to [send]. *)
Lemma reader_pending io_factory this :
  pending (fst (reader_thread_body io_factory this))
  = map Some (sent_of (fst (reader_thread_body io_factory this))).
Proof. apply orderly_pending, reader_orderly. Qed.

(** A reader that returns has sent the stop, also after a caught error. *)
Lemma reader_sends_stop io_factory this :
  snd (reader_thread_body io_factory this) = Ok tt ->
  In Channel_send_stop (fst (reader_thread_body io_factory this)).
Proof.
  unfold reader_thread_body.
  destruct (files_loop io_factory this (TP.traj_files this) locals0) as [ev x].
  destruct x; cbn [fst snd]; intros H; try discriminate H;
    apply in_or_app; right; now left.
Qed.

(** ** Threads of [run]: the invariant *)

Lemma nth_error_replace_nth {A} (i : nat) (x : A) l : forall j y,
  nth_error (replace_nth i x l) j = Some y ->
  (j = i /\ y = x) \/ (j <> i /\ nth_error l j = Some y).
Proof.
  revert i. induction l as [ | a l IH]; intros i j y H.
  - destruct i, j; discriminate H.
  - destruct i as [ | i], j as [ | j]; simpl in H.
    + left. now inversion H.
    + right. split; [discriminate | exact H].
    + right. split; [discriminate | exact H].
    + destruct (IH _ _ _ H) as [[-> ->] | [Hn Hy]]; [now left | right].
      split; [congruence | exact Hy].
Qed.

Lemma length_replace_nth {A} (i : nat) (x : A) l :
  List.length (replace_nth i x l) = List.length l.
Proof.
  revert i. induction l as [ | a l IH]; intros [ | i]; simpl; try reflexivity.
  now rewrite IH.
Qed.

Lemma pending_not_null ev x : In x (pending ev) -> x <> None.
Proof.
  induction ev as [ | e ev IH]; simpl; [tauto | ].
  destruct e; simpl; try exact IH; try tauto.
  intros [<- | H]; [discriminate | now apply IH].
Qed.

Lemma last_not_null ev (l : list Data_ptr) :
  (forall x, In x l -> In x (pending ev)) -> last l None = None -> l = [].
Proof.
  intros Hin Hl. destruct l as [ | a l]; [reflexivity | exfalso].
  destruct (@exists_last _ (a :: l)) as [front [x E]]; [discriminate | ].
  rewrite E in Hl, Hin. rewrite last_last in Hl. subst x.
  apply (pending_not_null ev None); [ | reflexivity].
  apply Hin, in_or_app. right. now left.
Qed.

Lemma inv_initial ev n buf ret : inv ev n buf ret (initial n buf ev ret).
Proof.
  constructor; try reflexivity.
  - unfold mode_ok, initial. destruct (1 <? n)%nat eqn:Hn; cbn.
    + split; [apply repeat_length | ]. split; [exact I | ].
      intros i w Hw. apply nth_error_In, repeat_spec in Hw. subst w.
      unfold worker_ok, chan_ok, inflight, stopped_before. cbn.
      repeat split; reflexivity.
    + unfold one_ok. cbn. repeat split; reflexivity.
Qed.

(** A step of the reader leaves alone what the other threads look at,
    except that it may close the channel. *)
Lemma mode_ok_reader n buf s r ch :
  taken ch = taken (channel s) ->
  (drained (channel s) -> drained ch) ->
  mode_ok n buf s -> mode_ok n buf (set_reader s r ch).
Proof.
  intros Ht Hd. unfold mode_ok. destruct (1 <? n)%nat.
  - intros (Hlen & Hmain & Hw). split; [exact Hlen | ]. split.
    + unfold fan_main_ok in *. cbn. destruct (pc s); auto.
    + intros i w Hi. specialize (Hw i w Hi). unfold worker_ok in *. cbn.
      rewrite Ht. exact Hw.
  - unfold one_ok. cbn. rewrite Ht. intros [Hws Hpc]. split; [exact Hws | ].
    destruct (pc s); intuition.
Qed.

Lemma inv_step_reader ev n buf ret s s' :
  inv ev n buf ret s -> step_reader s = Some s' -> inv ev n buf ret s'.
Proof.
  intros [Hsize Hret Hcap Hchan Hrd Hmode] H. unfold step_reader in H.
  destruct (reader s) as [ | e r] eqn:Er; [discriminate | ].
  assert (Hsilent : pending (e :: r) = pending r ->
                    inv ev n buf ret (set_reader s r (channel s))).
  { intros Hp. rewrite Hp in Hrd. constructor; assumption. }
  destruct e; try (injection H as <-; now apply Hsilent).
  - (* channel.send(data) *)
    unfold send in H. destruct (stop_requested (channel s)) eqn:Hstop.
    + injection H as <-. constructor; try assumption.
      cbn. now rewrite Hstop.
    + destruct (Z.of_nat _ <? capacity (channel s)); [ | discriminate].
      injection H as <-. constructor; try assumption.
      * unfold chan_ok in *. cbn. rewrite Hchan. now rewrite app_assoc.
      * cbn. cbn in Hrd. now rewrite <- app_assoc.
      * apply mode_ok_reader; [reflexivity | | exact Hmode].
        intros [Hd _]. congruence.
  - (* channel.send_stop() *)
    injection H as <-. constructor; try assumption.
    + cbn. destruct (stop_requested (channel s)); exact Hrd.
    + apply mode_ok_reader; [reflexivity | | exact Hmode].
      intros [_ Hq]. split; [reflexivity | exact Hq].
Qed.

Lemma recieve_popped ch d ch' :
  recieve ch = Popped d ch' ->
  queue ch = d :: queue ch'
  /\ ch' = {| capacity := capacity ch; queue := queue ch';
              stop_requested := stop_requested ch; sent := sent ch;
              taken := taken ch ++ [d]; stops := stops ch |}.
Proof.
  unfold recieve. destruct (queue ch) as [ | x q] eqn:Hq.
  - destruct (stop_requested ch); discriminate.
  - intros H. injection H as <- <-. cbn. now split.
Qed.

Lemma recieve_popped_chan_ok ch d ch' :
  recieve ch = Popped d ch' -> chan_ok ch -> chan_ok ch'.
Proof.
  intros H Hc. apply recieve_popped in H. destruct H as [Hq ->].
  unfold chan_ok in *. cbn. rewrite Hc, Hq, <- app_assoc. reflexivity.
Qed.

Lemma recieve_closed ch : recieve ch = Closed -> drained ch.
Proof.
  unfold recieve, drained. destruct (queue ch); [ | discriminate].
  destruct (stop_requested ch); [now split | discriminate].
Qed.

Lemma recieve_blocked ch :
  recieve ch = Blocked -> stop_requested ch = false /\ queue ch = [].
Proof.
  unfold recieve. destruct (queue ch); [ | discriminate].
  destruct (stop_requested ch); [discriminate | now split].
Qed.

Lemma drained_empty ch : drained ch -> empty ch = true.
Proof. intros [_ Hq]. unfold empty. now rewrite Hq. Qed.

Lemma last_snoc (l : list Data_ptr) d : last (l ++ [d]) None = d.
Proof. apply last_last. Qed.

Lemma streamed_snoc tk d :
  streamed tk ++ [Consume_frame d] = streamed (tk ++ [d]).
Proof. unfold streamed. now rewrite map_app. Qed.

(** A step of a worker keeps its part of the invariant. *)
Lemma worker_ok_step buf s i w w' :
  worker_ok buf s i w -> step_worker w = Some w' -> worker_ok buf s i w'.
Proof.
  unfold worker_ok, step_worker.
  intros (Hcap & Hchan & Hsent & Hstops & Hstop & Hpc) H.
  destruct (w_pc w).
  - injection H as <-. cbn. destruct Hpc as (Hl & Ht & Hd).
    rewrite Hl, Ht, Hd. repeat split; assumption.
  - destruct (recieve (w_channel w)) as [ | d ch' | ] eqn:Hr; [discriminate | | ].
    + injection H as <-. cbn.
      pose proof (recieve_popped_chan_ok _ _ _ Hr Hchan) as Hchan'.
      apply recieve_popped in Hr. destruct Hr as [Hq E].
      destruct Hpc as [Hl Hd]. rewrite E in *. cbn in *.
      rewrite Hl, streamed_snoc, last_snoc. repeat split; assumption.
    + injection H as <-. cbn. apply recieve_closed in Hr.
      destruct Hpc as [Hl Hd]. repeat split; try assumption; apply Hr.
  - injection H as <-. cbn. destruct Hpc as (Hl & Hd & Hdr).
    rewrite Hl, Hd. repeat split; try assumption; apply Hdr.
  - discriminate.
Qed.

Lemma inv_step_worker ev n buf ret s i s' :
  inv ev n buf ret s -> step (Worker i) s = Some s' -> inv ev n buf ret s'.
Proof.
  intros [Hsize Hret Hcap Hchan Hrd Hmode] H. cbn [step] in H.
  destruct (nth_error (workers s) i) as [w | ] eqn:Hw; [ | discriminate].
  destruct (step_worker w) as [w' | ] eqn:Hs; [ | discriminate].
  injection H as <-. constructor; try assumption.
  unfold mode_ok in *. destruct (1 <? n)%nat.
  - destruct Hmode as (Hlen & Hmain & Hws). split; [ | split].
    + cbn. now rewrite length_replace_nth.
    + exact Hmain.
    + intros j w0 Hj. cbn in Hj. apply nth_error_replace_nth in Hj.
      destruct Hj as [[-> ->] | [Hne Hj]].
      * exact (worker_ok_step _ _ _ _ _ (Hws _ _ Hw) Hs).
      * exact (Hws _ _ Hj).
  - destruct Hmode as [Hnil _]. rewrite Hnil in Hw. destruct i; discriminate Hw.
Qed.

(** A step of [run] on the single-consumer path. *)
Lemma one_step_main ev n buf ret s s' :
  (1 <? n)%nat = false ->
  inv ev n buf ret s -> step_main s = Some s' -> inv ev n buf ret s'.
Proof.
  intros Hn [Hsize Hret Hcap Hchan Hrd Hmode] H.
  unfold mode_ok in Hmode. rewrite Hn in Hmode. destruct Hmode as [Hnil Hpc].
  assert (Hmk : forall s1, size s1 = n -> reader_returns s1 = ret ->
            capacity (channel s1) = buf -> chan_ok (channel s1) ->
            sent (channel s1)
            ++ (if stop_requested (channel s1) then [] else pending (reader s1))
            = pending ev ->
            one_ok s1 -> inv ev n buf ret s1).
  { intros s1 H1 H2 H3 H4 H5 H6. constructor; try assumption.
    unfold mode_ok. now rewrite Hn. }
  unfold step_main in H. destruct (pc s) eqn:Epc; try contradiction.
  - (* pre_process_handler *)
    injection H as <-. apply Hmk; try assumption.
    destruct Hpc as (Hl & Ht & Hd). unfold one_ok. cbn.
    rewrite Hl, Ht, Hd. now repeat split.
  - (* while(channel.recieve(data)) *)
    destruct Hpc as [Hl Hd].
    destruct (recieve (channel s)) as [ | d ch' | ] eqn:Hr; [discriminate | | ];
      injection H as <-.
    + pose proof (recieve_popped_chan_ok _ _ _ Hr Hchan) as Hchan'.
      apply recieve_popped in Hr. destruct Hr as [Hq E].
      apply Hmk; try assumption; try (rewrite E; cbn; assumption).
      unfold one_ok. rewrite E. cbn.
      rewrite Hl, streamed_snoc, last_snoc. now repeat split.
    + apply recieve_closed in Hr. apply Hmk; try assumption.
      unfold one_ok. cbn. repeat split; try assumption; apply Hr.
  - (* while(!channel.empty()) *)
    destruct Hpc as (Hl & Hd & Hdr). rewrite (drained_empty _ Hdr) in H.
    injection H as <-. apply Hmk; try assumption.
    unfold one_ok. cbn. repeat split; try assumption; apply Hdr.
  - (* post_process_handler(data->frame_info) *)
    destruct Hpc as (Hl & Hd & Hdr).
    destruct (data s) as [d | ] eqn:Ed; injection H as <-;
      (apply Hmk; try assumption); unfold one_ok; cbn.
    + split; [exact Hnil | ]. split; [exact Hdr | ].
      exists d. rewrite Hl. now split.
    + assert (Ht : taken (channel s) = []).
      { apply (last_not_null ev); [ | now symmetry].
        intros x Hx. rewrite <- Hrd, Hchan.
        apply in_or_app. left. apply in_or_app. now left. }
      rewrite Hl, Ht. repeat split; try assumption; apply Hdr.
  - (* reader_thread.join() *)
    destruct (reader_joined s); [ | discriminate].
    rewrite Hsize, Hn in H. injection H as <-. apply Hmk; try assumption.
    unfold one_ok. cbn. now split.
  - discriminate.
  - discriminate.
Qed.

(** A move of [run] that touches no worker channel. *)
Lemma worker_ok_move buf s s' i w :
  worker_ok buf s i w ->
  (forall l, l ++ inflight (pc s) (data s) i = taken (channel s) ->
             l ++ inflight (pc s') (data s') i = taken (channel s')) ->
  stopped_before (pc s') i = stopped_before (pc s) i ->
  worker_ok buf s' i w.
Proof.
  unfold worker_ok. intros (Hcap & Hchan & Hsent & Hstops & Hstop & Hpc) H1 H2.
  rewrite H2. repeat split; auto.
Qed.

Lemma leb_succ_other j k : k <> j -> (S j <=? k)%nat = (j <=? k)%nat.
Proof.
  intros Hne. destruct (Nat.leb_spec (S j) k), (Nat.leb_spec j k); try reflexivity; lia.
Qed.

Lemma ltb_succ_other j k : k <> j -> (k <? S j)%nat = (k <? j)%nat.
Proof.
  intros Hne. destruct (Nat.ltb_spec k (S j)), (Nat.ltb_spec k j); try reflexivity; lia.
Qed.

(** A step of [run] on the fan-out path. *)
Lemma fan_step_main ev n buf ret s s' :
  (1 <? n)%nat = true ->
  inv ev n buf ret s -> step_main s = Some s' -> inv ev n buf ret s'.
Proof.
  intros Hn [Hsize Hret Hcap Hchan Hrd Hmode] H.
  unfold mode_ok in Hmode. rewrite Hn in Hmode. destruct Hmode as (Hlen & Hmain & Hws).
  assert (Hmk : forall s1, size s1 = n -> reader_returns s1 = ret ->
            capacity (channel s1) = buf -> chan_ok (channel s1) ->
            sent (channel s1)
            ++ (if stop_requested (channel s1) then [] else pending (reader s1))
            = pending ev ->
            List.length (workers s1) = n -> fan_main_ok s1 ->
            (forall i w, nth_error (workers s1) i = Some w -> worker_ok buf s1 i w) ->
            inv ev n buf ret s1).
  { intros s1 H1 H2 H3 H4 H5 H6 H7 H8. constructor; try assumption.
    unfold mode_ok. now rewrite Hn. }
  assert (Hshort : forall j i w, nth_error (workers s) j = None ->
            nth_error (workers s) i = Some w -> (i < j)%nat).
  { intros j i w Hj Hi. apply nth_error_None in Hj.
    assert (i < List.length (workers s))%nat by (apply nth_error_Some; congruence).
    lia. }
  unfold fan_main_ok in Hmain.
  unfold step_main in H. destruct (pc s) eqn:Epc; try contradiction.
  - (* while(channel.recieve(data)) *)
    destruct (recieve (channel s)) as [ | d ch' | ] eqn:Hr; [discriminate | | ];
      injection H as <-.
    + pose proof (recieve_popped_chan_ok _ _ _ Hr Hchan) as Hchan'.
      apply recieve_popped in Hr. destruct Hr as [Hq E].
      apply Hmk; try assumption; try exact I; try (rewrite E; cbn; assumption).
      intros i w Hi. apply (worker_ok_move _ _ _ _ _ (Hws _ _ Hi)).
      * rewrite Epc, E. cbn. intros l Hl. rewrite app_nil_r in Hl. now subst l.
      * rewrite Epc. reflexivity.
    + apply recieve_closed in Hr. apply Hmk; try assumption.
      intros i w Hi. apply (worker_ok_move _ _ _ _ _ (Hws _ _ Hi)).
      * rewrite Epc. cbn. auto.
      * rewrite Epc. reflexivity.
  - (* ch->send(data) *)
    unfold foreach_send in H. destruct (nth_error (workers s) i) as [w | ] eqn:Hj.
    + pose proof (Hws _ _ Hj) as Hw. unfold worker_ok in Hw. rewrite Epc in Hw.
      destruct Hw as (Hc & Hch & Hsent & Hstops & Hstop & Hwpc).
      cbn -[Nat.leb Nat.ltb] in Hsent, Hstops, Hstop. rewrite Nat.leb_refl in Hsent.
      unfold send in H. rewrite Hstop in H.
      destruct (Z.of_nat _ <? capacity (w_channel w)); [ | discriminate].
      injection H as <-.
      apply Hmk; try assumption; try exact I;
        try (cbn; now rewrite length_replace_nth).
      intros k w0 Hk. cbn in Hk. apply nth_error_replace_nth in Hk.
      destruct Hk as [[-> ->] | [Hne Hk]].
      * unfold worker_ok, chan_ok in *. cbn -[Nat.leb Nat.ltb].
        assert (Hleb : (S i <=? i)%nat = false)
          by (destruct (Nat.leb_spec (S i) i); [lia | reflexivity]).
        rewrite Hleb, app_nil_r.
        repeat split; try assumption; try reflexivity.
        -- now rewrite Hch, app_assoc.
        -- destruct (w_pc w); try exact Hwpc; exfalso;
             [destruct Hwpc as (_ & _ & [Hx _]) | destruct Hwpc as (_ & [Hx _])];
             congruence.
      * apply (worker_ok_move _ _ _ _ _ (Hws _ _ Hk)).
        -- rewrite Epc. cbn -[Nat.leb Nat.ltb]. now rewrite (leb_succ_other _ _ Hne).
        -- rewrite Epc. reflexivity.
    + injection H as <-. apply Hmk; try assumption; try exact I.
      intros k w0 Hk. apply (worker_ok_move _ _ _ _ _ (Hws _ _ Hk)).
      * rewrite Epc. cbn -[Nat.leb Nat.ltb]. pose proof (Hshort _ _ _ Hj Hk) as Hlt.
        destruct (Nat.leb_spec i k); [lia | auto].
      * rewrite Epc. reflexivity.
  - (* while(!channel.empty()) *)
    rewrite (drained_empty _ Hmain) in H. injection H as <-.
    apply Hmk; try assumption.
    intros k w0 Hk. apply (worker_ok_move _ _ _ _ _ (Hws _ _ Hk)).
    + rewrite Epc. cbn. auto.
    + rewrite Epc. cbn. destruct k; reflexivity.
  - (* ch->send_stop() *)
    destruct (nth_error (workers s) i) as [w | ] eqn:Hj.
    + pose proof (Hws _ _ Hj) as Hw. unfold worker_ok in Hw. rewrite Epc in Hw.
      destruct Hw as (Hc & Hch & Hsent & Hstops & Hstop & Hwpc).
      cbn -[Nat.leb Nat.ltb] in Hsent, Hstops, Hstop.
      rewrite Nat.ltb_irrefl in Hstops, Hstop.
      injection H as <-.
      apply Hmk; try assumption; try (cbn; now rewrite length_replace_nth).
      intros k w0 Hk. cbn in Hk. apply nth_error_replace_nth in Hk.
      destruct Hk as [[-> ->] | [Hne Hk]].
      * unfold worker_ok, chan_ok, drained in *. cbn -[Nat.leb Nat.ltb].
        assert (Hltb : (i <? S i)%nat = true)
          by (destruct (Nat.ltb_spec i (S i)); [reflexivity | lia]).
        rewrite Hltb, Hstops. repeat split; try assumption.
        destruct (w_pc w); intuition.
      * apply (worker_ok_move _ _ _ _ _ (Hws _ _ Hk)).
        -- rewrite Epc. cbn. auto.
        -- rewrite Epc. cbn -[Nat.leb Nat.ltb]. now apply ltb_succ_other.
    + injection H as <-. apply Hmk; try assumption.
      intros k w0 Hk. apply (worker_ok_move _ _ _ _ _ (Hws _ _ Hk)).
      * rewrite Epc. cbn. auto.
      * rewrite Epc. cbn -[Nat.leb Nat.ltb]. pose proof (Hshort _ _ _ Hj Hk) as Hlt.
        destruct (Nat.ltb_spec k i); [reflexivity | lia].
  - (* reader_thread.join() *)
    destruct (reader_joined s); [ | discriminate].
    rewrite Hsize, Hn in H. injection H as <-. apply Hmk; try assumption.
    intros k w0 Hk. apply (worker_ok_move _ _ _ _ _ (Hws _ _ Hk)).
    + rewrite Epc. cbn. auto.
    + rewrite Epc. reflexivity.
  - (* worker_threads.join_all() *)
    destruct (forallb worker_returned (workers s)); [ | discriminate].
    injection H as <-. apply Hmk; try assumption.
    intros k w0 Hk. apply (worker_ok_move _ _ _ _ _ (Hws _ _ Hk)).
    + rewrite Epc. cbn. auto.
    + rewrite Epc. reflexivity.
  - discriminate.
Qed.

Lemma inv_step ev n buf ret s th s' :
  inv ev n buf ret s -> step th s = Some s' -> inv ev n buf ret s'.
Proof.
  intros Hinv H. destruct th as [ | | i].
  - exact (inv_step_reader _ _ _ _ _ _ Hinv H).
  - destruct (1 <? n)%nat eqn:Hn.
    + exact (fan_step_main _ _ _ _ _ _ Hn Hinv H).
    + exact (one_step_main _ _ _ _ _ _ Hn Hinv H).
  - exact (inv_step_worker _ _ _ _ _ _ _ Hinv H).
Qed.

Lemma inv_reachable ev n buf ret s :
  reachable (initial n buf ev ret) s -> inv ev n buf ret s.
Proof.
  induction 1 as [ | s th s' _ IH Hstep].
  - apply inv_initial.
  - exact (inv_step _ _ _ _ _ _ _ IH Hstep).
Qed.

Lemma reachable_trans s0 s1 s2 :
  reachable s0 s1 -> reachable s1 s2 -> reachable s0 s2.
Proof.
  intros H1 H2. induction H2 as [ | s th s' _ IH Hstep]; [exact H1 | ].
  exact (reach_step _ _ _ _ IH Hstep).
Qed.

Lemma reachable_run_schedule sched : forall s0 s,
  reachable s0 s -> reachable s0 (run_schedule sched s).
Proof.
  induction sched as [ | th sched IH]; intros s0 s H; cbn [run_schedule]; [exact H | ].
  destruct (step th s) as [s' | ] eqn:Hs; apply IH; [ | exact H].
  exact (reach_step _ _ _ _ H Hs).
Qed.

(** ** Threads of [run]: the reader sends its stop *)

Lemma recieve_popped_stop ch d ch' :
  recieve ch = Popped d ch' -> stop_requested ch' = stop_requested ch.
Proof. intros Hr. apply recieve_popped in Hr. destruct Hr as [_ ->]. reflexivity. Qed.

Lemma will_stop_step s th s' : will_stop s -> step th s = Some s' -> will_stop s'.
Proof.
  unfold will_stop. intros Hw H. destruct th as [ | | i]; cbn [step] in H.
  - unfold step_reader in H. destruct (reader s) as [ | e r]; [discriminate | ].
    assert (Hr : e <> Channel_send_stop ->
                 stop_requested (channel s) = true \/ In Channel_send_stop r).
    { intros Hne. destruct Hw as [Hw | [Hw | Hw]]; auto; congruence. }
    destruct e; try (injection H as <-; cbn; apply Hr; discriminate).
    + unfold send in H. destruct (stop_requested (channel s)) eqn:Hs.
      * injection H as <-. cbn. now left.
      * destruct (_ <? _); [ | discriminate]. injection H as <-. cbn.
        destruct Hr as [Hr | Hr]; [discriminate | discriminate | now right].
    + injection H as <-. cbn. now left.
  - assert (Hkeep : forall ch p d l, stop_requested ch = stop_requested (channel s) ->
              stop_requested (channel (set_main s ch p d l)) = true
              \/ In Channel_send_stop (reader (set_main s ch p d l))).
    { intros ch p d l E. cbn. rewrite E. exact Hw. }
    unfold step_main, foreach_send in H.
    repeat match type of H with
           | match ?x with _ => _ end = Some _ => destruct x eqn:?
           | (if ?x then _ else _) = Some _ => destruct x eqn:?
           end;
      try discriminate; injection H as <-;
      try exact Hw; apply Hkeep; try reflexivity;
      eapply recieve_popped_stop; eassumption.
  - destruct (nth_error (workers s) i); [ | discriminate].
    destruct (step_worker w); [ | discriminate]. injection H as <-. exact Hw.
Qed.

Lemma will_stop_reachable ev n buf ret s :
  In Channel_send_stop ev ->
  reachable (initial n buf ev ret) s -> will_stop s.
Proof.
  intros Hin. induction 1 as [ | s th s' _ IH Hstep].
  - right. exact Hin.
  - exact (will_stop_step _ _ _ IH Hstep).
Qed.

(** ** Threads of [run]: no thread waits for ever *)

Lemma reader_stuck s :
  step_reader s = None ->
  reader s = []
  \/ (stop_requested (channel s) = false
      /\ capacity (channel s) <= Z.of_nat (List.length (queue (channel s)))).
Proof.
  unfold step_reader. destruct (reader s) as [ | e r]; [now left | ].
  destruct e; try discriminate. unfold send.
  destruct (stop_requested (channel s)); [discriminate | ].
  destruct (Z.ltb_spec (Z.of_nat (List.length (queue (channel s))))
              (capacity (channel s))); [discriminate | ].
  intros _. right. now split.
Qed.

Lemma worker_stuck w :
  step_worker w = None ->
  w_pc w = W_returned
  \/ (w_pc w = W_recieve /\ stop_requested (w_channel w) = false
      /\ queue (w_channel w) = []).
Proof.
  unfold step_worker. destruct (w_pc w); try discriminate; [ | now left].
  destruct (recieve (w_channel w)) eqn:Hr; try discriminate.
  intros _. right. split; [reflexivity | ]. now apply recieve_blocked.
Qed.

(** When no thread can move, the reader has sent the stop, returns, and
    the buffers have room for an item, the reader thread has ended. *)
Lemma terminal_reader_done ev n buf ret s :
  0 < buf -> inv ev n buf ret s -> will_stop s -> terminal s ->
  stop_requested (channel s) = true \/ queue (channel s) = [] ->
  stop_requested (channel s) = true /\ reader s = [].
Proof.
  intros Hbuf Hinv Hw Ht Hq.
  pose proof (reader_stuck s (Ht Reader)) as [Hr | [Hs Hfull]].
  - split; [ | exact Hr]. destruct Hw as [Hw | Hw]; [exact Hw | ].
    rewrite Hr in Hw. contradiction.
  - exfalso. destruct Hq as [Hq | Hq]; [congruence | ].
    rewrite Hq, (inv_cap _ _ _ _ _ Hinv) in Hfull. cbn in Hfull. lia.
Qed.

Lemma reader_joined_true s :
  reader s = [] -> reader_returns s = Ok tt -> reader_joined s = true.
Proof. unfold reader_joined. now intros -> ->. Qed.

Lemma forallb_false {A} (f : A -> bool) l :
  forallb f l = false -> exists x, In x l /\ f x = false.
Proof.
  induction l as [ | a l IH]; simpl; [discriminate | ].
  destruct (f a) eqn:Ha; simpl.
  - intros H. destruct (IH H) as [x [Hin Hx]]. exists x. split; [now right | exact Hx].
  - intros _. exists a. split; [now left | exact Ha].
Qed.

Lemma worker_stuck_in_state s i w :
  terminal s -> nth_error (workers s) i = Some w ->
  w_pc w = W_returned
  \/ (w_pc w = W_recieve /\ stop_requested (w_channel w) = false
      /\ queue (w_channel w) = []).
Proof.
  intros Ht Hi. apply worker_stuck. specialize (Ht (Worker i)). cbn [step] in Ht.
  rewrite Hi in Ht. now destruct (step_worker w).
Qed.

(** On the single-consumer path the threads stop only when [run] is over:
    it has returned, or it has dereferenced the null [data]. *)
Lemma terminal_one ev n buf s :
  (1 <? n)%nat = false -> 0 < buf ->
  inv ev n buf (Ok tt) s -> will_stop s -> terminal s ->
  (pc s = Run_finished \/ pc s = Run_undefined Null_dereference) /\ reader s = [].
Proof.
  intros Hn Hbuf Hinv Hw Ht.
  pose proof (terminal_reader_done _ _ _ _ _ Hbuf Hinv Hw Ht) as Hrd.
  pose proof (Ht Main) as Hm. cbn [step] in Hm. unfold step_main in Hm.
  pose proof (inv_mode _ _ _ _ _ Hinv) as Hmode. unfold mode_ok in Hmode.
  rewrite Hn in Hmode. destruct Hmode as [_ Hpc].
  destruct (pc s) eqn:Epc; try contradiction; try discriminate.
  - destruct Hpc as [Hl Hd].
    destruct (recieve (channel s)) eqn:Hr; try discriminate.
    apply recieve_blocked in Hr. destruct Hr as [Hs Hq].
    destruct Hrd as [Hs' _]; [now right | congruence].
  - destruct (data s); discriminate.
  - destruct Hpc as [[Hs Hq] _]. destruct Hrd as [_ Hr]; [now left | ].
    rewrite (reader_joined_true s Hr (inv_ret _ _ _ _ _ Hinv)) in Hm. discriminate.
  - destruct Hpc as [[Hs Hq] _]. destruct Hrd as [_ Hr]; [now left | ].
    split; [now left | exact Hr].
  - destruct Hpc as (-> & _ & _ & [Hs Hq]). destruct Hrd as [_ Hr]; [now left | ].
    split; [now right | exact Hr].
Qed.

(** On the fan-out path the threads stop only when [run] has returned and
    every worker with it. *)
Lemma terminal_fan ev n buf s :
  (1 <? n)%nat = true -> 0 < buf ->
  inv ev n buf (Ok tt) s -> will_stop s -> terminal s ->
  pc s = Run_finished /\ reader s = []
  /\ forall i w, nth_error (workers s) i = Some w -> w_pc w = W_returned.
Proof.
  intros Hn Hbuf Hinv Hw Ht.
  pose proof (terminal_reader_done _ _ _ _ _ Hbuf Hinv Hw Ht) as Hrd.
  pose proof (Ht Main) as Hm. cbn [step] in Hm. unfold step_main in Hm.
  pose proof (inv_mode _ _ _ _ _ Hinv) as Hmode. unfold mode_ok in Hmode.
  rewrite Hn in Hmode. destruct Hmode as (Hlen & Hmain & Hws).
  unfold fan_main_ok in Hmain.
  destruct (pc s) eqn:Epc; try contradiction; try discriminate.
  - destruct (recieve (channel s)) eqn:Hr; try discriminate.
    apply recieve_blocked in Hr. destruct Hr as [Hs Hq].
    destruct Hrd as [Hs' _]; [now right | congruence].
  - unfold foreach_send in Hm.
    destruct (nth_error (workers s) i) as [w | ] eqn:Hi; [ | discriminate].
    pose proof (Hws _ _ Hi) as Hok. unfold worker_ok in Hok.
    destruct Hok as (Hc & _ & _ & _ & _ & Hwpc).
    unfold send in Hm. destruct (stop_requested (w_channel w)); [discriminate | ].
    destruct (Z.ltb_spec (Z.of_nat (List.length (queue (w_channel w))))
                (capacity (w_channel w))) as [ | Hfull]; [discriminate | ].
    assert (Hne : queue (w_channel w) <> []).
    { intros E. rewrite E, Hc in Hfull. cbn in Hfull. lia. }
    destruct (worker_stuck_in_state _ _ _ Ht Hi) as [E | (E & _ & Hq)];
      [ | contradiction].
    rewrite E in Hwpc. destruct Hwpc as [_ [_ Hq]]. contradiction.
  - destruct (nth_error (workers s) i); discriminate.
  - destruct Hmain as [Hs Hq]. destruct Hrd as [_ Hr]; [now left | ].
    rewrite (reader_joined_true s Hr (inv_ret _ _ _ _ _ Hinv)) in Hm. discriminate.
  - destruct (forallb worker_returned (workers s)) eqn:Hall; [discriminate | ].
    apply forallb_false in Hall. destruct Hall as [w [Hin Hnot]].
    apply In_nth_error in Hin. destruct Hin as [i Hi].
    pose proof (Hws _ _ Hi) as Hok. unfold worker_ok in Hok. rewrite Epc in Hok.
    destruct Hok as (_ & _ & _ & _ & Hstop & _). cbn in Hstop.
    destruct (worker_stuck_in_state _ _ _ Ht Hi) as [E | (_ & Hs & _)];
      [ | congruence].
    unfold worker_returned in Hnot. rewrite E in Hnot. discriminate.
  - destruct Hmain as [Hs Hq]. destruct Hrd as [_ Hr]; [now left | ].
    split; [reflexivity | ]. split; [exact Hr | ].
    intros i w Hi. pose proof (Hws _ _ Hi) as Hok. unfold worker_ok in Hok.
    rewrite Epc in Hok. destruct Hok as (_ & _ & _ & _ & Hstop & _). cbn in Hstop.
    destruct (worker_stuck_in_state _ _ _ Ht Hi) as [E | (_ & Hs' & _)];
      [exact E | congruence].
Qed.

(** ** Threads of [run]: every step uses up the bound *)

Lemma list_sum_replace_nth {A} (f : A -> nat) i x y l :
  nth_error l i = Some y ->
  (list_sum (map f (replace_nth i x l)) + f y = list_sum (map f l) + f x)%nat.
Proof.
  revert i. induction l as [ | a l IH]; intros [ | i] H; try discriminate H.
  - injection H as ->. simpl. lia.
  - simpl. specialize (IH _ H). lia.
Qed.

Lemma worker_step_decreases w w' :
  step_worker w = Some w' -> (worker_weight w' < worker_weight w)%nat.
Proof.
  unfold step_worker, worker_weight. destruct (w_pc w).
  - intros H. injection H as <-. cbn. lia.
  - destruct (recieve (w_channel w)) as [ | d ch | ] eqn:Hr; try discriminate.
    + apply recieve_popped in Hr. destruct Hr as [Hq _].
      intros H. injection H as <-. cbn. rewrite Hq. cbn. lia.
    + intros H. injection H as <-. cbn. lia.
  - intros H. injection H as <-. cbn. lia.
  - discriminate.
Qed.

Lemma inv_shape ev n buf ret s :
  inv ev n buf ret s ->
  (List.length (workers s) <= size s)%nat
  /\ pc s <> Fan_drain_recieve /\ pc s <> One_drain_recieve
  /\ forall i, pc s <> Fan_drain_send i.
Proof.
  intros [Hsize _ _ _ _ Hmode]. unfold mode_ok in Hmode. destruct (1 <? n)%nat.
  - destruct Hmode as (Hlen & Hmain & _). unfold fan_main_ok in Hmain.
    split; [lia | ]. destruct (pc s); try contradiction; repeat split; discriminate.
  - destruct Hmode as [Hnil Hpc]. rewrite Hnil. split; [cbn; lia | ].
    destruct (pc s); try contradiction; repeat split; discriminate.
Qed.

Lemma step_decreases ev n buf ret s th s' :
  inv ev n buf ret s -> step th s = Some s' -> (measure s' < measure s)%nat.
Proof.
  intros Hinv H. destruct (inv_shape _ _ _ _ _ Hinv) as (Hlen & Hd1 & Hd2 & Hd3).
  unfold measure, list_sum. destruct th as [ | | i]; cbn [step] in H.
  - (* reader *)
    unfold step_reader in H. destruct (reader s) as [ | e r]; [discriminate | ].
    destruct e; try (injection H as <-; cbn; lia).
    unfold send in H. destruct (stop_requested (channel s)).
    + injection H as <-. cbn. lia.
    + destruct (_ <? _); [ | discriminate]. injection H as <-. cbn.
      rewrite length_app. cbn. lia.
  - (* run *)
    assert (Hsome : forall j w, nth_error (workers s) j = Some w -> (j < size s)%nat).
    { intros j w Hj.
      assert (j < List.length (workers s))%nat by (apply nth_error_Some; congruence).
      lia. }
    unfold step_main, foreach_send in H. destruct (pc s) eqn:Epc.
    + destruct (recieve (channel s)) as [ | d ch | ] eqn:Hr; try discriminate;
        injection H as <-; cbn; [ | lia].
      apply recieve_popped in Hr. destruct Hr as [Hq _]. rewrite Hq. cbn. lia.
    + destruct (nth_error (workers s) i) as [w | ] eqn:Hi.
      * pose proof (Hsome _ _ Hi) as Hlt.
        destruct (send (data s) (w_channel w)) as [c | ] eqn:Hs; [ | discriminate].
        injection H as <-. cbn.
        pose proof (list_sum_replace_nth worker_weight i (with_channel w c) w _ Hi) as E.
        unfold list_sum in E.
        assert (Hw : (worker_weight (with_channel w c) <= worker_weight w + 1)%nat).
        { unfold send in Hs. unfold worker_weight. cbn.
          destruct (stop_requested (w_channel w)).
          - injection Hs as <-. lia.
          - destruct (_ <? _); [ | discriminate]. injection Hs as <-. cbn.
            rewrite length_app. cbn. lia. }
        lia.
      * injection H as <-. cbn. lia.
    + injection H as <-. cbn. destruct (empty (channel s)); cbn; lia.
    + contradiction.
    + exfalso. exact (Hd3 _ eq_refl).
    + destruct (nth_error (workers s) i) as [w | ] eqn:Hi; injection H as <-; cbn.
      * pose proof (Hsome _ _ Hi) as Hlt.
        pose proof (list_sum_replace_nth worker_weight i
                      (with_channel w (send_stop (w_channel w))) w _ Hi) as E.
        unfold list_sum in E.
        assert (Hw : worker_weight (with_channel w (send_stop (w_channel w)))
                     = worker_weight w) by reflexivity.
        lia.
      * lia.
    + injection H as <-. cbn. lia.
    + destruct (recieve (channel s)) as [ | d ch | ] eqn:Hr; try discriminate;
        injection H as <-; cbn; [ | lia].
      apply recieve_popped in Hr. destruct Hr as [Hq _]. rewrite Hq. cbn. lia.
    + injection H as <-. cbn. destruct (empty (channel s)); cbn; lia.
    + contradiction.
    + destruct (data s); injection H as <-; cbn; lia.
    + destruct (reader_joined s); [ | discriminate].
      destruct (1 <? size s)%nat; injection H as <-; cbn; lia.
    + destruct (forallb worker_returned (workers s)); [ | discriminate].
      injection H as <-. cbn. lia.
    + discriminate.
    + discriminate.
  - (* worker *)
    destruct (nth_error (workers s) i) as [w | ] eqn:Hi; [ | discriminate].
    destruct (step_worker w) as [w' | ] eqn:Hs; [ | discriminate].
    injection H as <-. cbn.
    pose proof (list_sum_replace_nth worker_weight i w' w _ Hi) as E.
    unfold list_sum in E.
    pose proof (worker_step_decreases _ _ Hs). lia.
Qed.

(** Hence the threads take at most [measure] steps from any state they
    reach. *)
Lemma steps_bounded ev n buf ret k s s' :
  inv ev n buf ret s -> steps k s s' -> (k + measure s' <= measure s)%nat.
Proof.
  intros Hinv H. induction H as [s | k s th s1 s2 Hstep _ IH]; [lia | ].
  pose proof (step_decreases _ _ _ _ _ _ _ Hinv Hstep).
  specialize (IH (inv_step _ _ _ _ _ _ _ Hinv Hstep)). lia.
Qed.

(** ** Threads of [run]: how a run ends *)

Lemma drained_all ev n buf ret s :
  inv ev n buf ret s -> drained (channel s) -> taken (channel s) = pending ev.
Proof.
  intros [_ _ _ Hchan Hrd _] [Hs Hq]. unfold chan_ok in Hchan.
  rewrite Hs, app_nil_r in Hrd. rewrite Hq, app_nil_r in Hchan. congruence.
Qed.

(** The single-consumer path, once no thread can move: every item
    published has been consumed in order; then either nothing was
    published and [run] has dereferenced the null [data] without calling
    [post_process], or [run] has returned after calling [post_process]
    with the metadata of the last item. *)
Lemma one_final ev n buf s :
  (1 <? n)%nat = false -> 0 < buf -> In Channel_send_stop ev ->
  reachable (initial n buf ev (Ok tt)) s -> terminal s ->
  (pending ev = [] /\ pc s = Run_undefined Null_dereference
   /\ log0 s = [Pre_process])
  \/ (exists d, last (pending ev) None = Some d /\ pc s = Run_finished
      /\ log0 s = streamed (pending ev) ++ [Post_process (Some (frame_info d))]).
Proof.
  intros Hn Hbuf Hstop Hreach Ht.
  pose proof (inv_reachable _ _ _ _ _ Hreach) as Hinv.
  pose proof (will_stop_reachable _ _ _ _ _ Hstop Hreach) as Hw.
  destruct (terminal_one _ _ _ _ Hn Hbuf Hinv Hw Ht) as [Hpc _].
  pose proof (inv_mode _ _ _ _ _ Hinv) as Hmode. unfold mode_ok in Hmode.
  rewrite Hn in Hmode. destruct Hmode as [_ Hone].
  destruct Hpc as [Epc | Epc]; rewrite Epc in Hone.
  - right. destruct Hone as [Hd [d [Hlast Hlog]]].
    rewrite (drained_all _ _ _ _ _ Hinv Hd) in Hlast, Hlog.
    exists d. now repeat split.
  - left. destruct Hone as (_ & Hlog & Htk & Hd).
    rewrite (drained_all _ _ _ _ _ Hinv Hd) in Htk. now repeat split.
Qed.

(** The fan-out path, once no thread can move: [run] has returned, every
    worker channel was sent exactly the items published, in order, and the
    stop once, and every worker has consumed them all and returned. *)
Lemma fan_final ev n buf s :
  (1 <? n)%nat = true -> 0 < buf -> In Channel_send_stop ev ->
  reachable (initial n buf ev (Ok tt)) s -> terminal s ->
  pc s = Run_finished /\ List.length (workers s) = n
  /\ forall i w, nth_error (workers s) i = Some w ->
       sent (w_channel w) = pending ev /\ taken (w_channel w) = pending ev
       /\ stops (w_channel w) = 1%nat
       /\ w_log w = streamed (pending ev)
                    ++ [Post_process (option_map frame_info (last (pending ev) None))].
Proof.
  intros Hn Hbuf Hstop Hreach Ht.
  pose proof (inv_reachable _ _ _ _ _ Hreach) as Hinv.
  pose proof (will_stop_reachable _ _ _ _ _ Hstop Hreach) as Hw.
  destruct (terminal_fan _ _ _ _ Hn Hbuf Hinv Hw Ht) as (Epc & _ & Hret).
  pose proof (inv_mode _ _ _ _ _ Hinv) as Hmode. unfold mode_ok in Hmode.
  rewrite Hn in Hmode. destruct Hmode as (Hlen & Hmain & Hws).
  unfold fan_main_ok in Hmain. rewrite Epc in Hmain.
  pose proof (drained_all _ _ _ _ _ Hinv Hmain) as Hall.
  split; [exact Epc | ]. split; [exact Hlen | ].
  intros i w Hi. pose proof (Hws _ _ Hi) as Hok. unfold worker_ok in Hok.
  rewrite Epc, (Hret _ _ Hi), Hall in Hok. cbn in Hok.
  destruct Hok as (_ & Hch & Hsent & Hstops & _ & Hlog & [_ Hq]).
  rewrite app_nil_r in Hsent. unfold chan_ok in Hch.
  rewrite Hq, app_nil_r, Hsent in Hch. rewrite <- Hch in Hlog. now repeat split.
Qed.

(** On the fan-out path, at every moment, what a worker channel has been
    sent is a front part of what the reader publishes, and it has been
    sent the stop at most once. *)
Lemma fan_prefix ev n buf ret s :
  (1 <? n)%nat = true ->
  reachable (initial n buf ev ret) s ->
  forall i w, nth_error (workers s) i = Some w ->
    (exists rest, sent (w_channel w) ++ rest = pending ev)
    /\ (stops (w_channel w) <= 1)%nat.
Proof.
  intros Hn Hreach i w Hi.
  pose proof (inv_reachable _ _ _ _ _ Hreach) as Hinv.
  pose proof (inv_mode _ _ _ _ _ Hinv) as Hmode. unfold mode_ok in Hmode.
  rewrite Hn in Hmode. destruct Hmode as (_ & _ & Hws).
  pose proof (Hws _ _ Hi) as Hok. unfold worker_ok in Hok.
  destruct Hok as (_ & _ & Hsent & Hstops & _).
  destruct Hinv as [_ _ _ Hchan Hrd _]. unfold chan_ok in Hchan.
  split.
  - rewrite <- Hrd, Hchan, <- Hsent. rewrite <- !app_assoc. eexists. reflexivity.
  - rewrite Hstops. destruct (stopped_before _ _); lia.
Qed.

(** ** Threads of [run]: every run comes to an end *)

Lemma can_move_none s :
  forallb (fun th => negb (can_move s th)) (threads_of s) = true -> terminal s.
Proof.
  intros H th. rewrite forallb_forall in H.
  assert (Hin : forall th', In th' (threads_of s) -> step th' s = None).
  { intros th' Hin. specialize (H _ Hin). unfold can_move in H.
    now destruct (step th' s). }
  destruct th as [ | | i].
  - apply Hin. now left.
  - apply Hin. right. now left.
  - destruct (Nat.lt_ge_cases i (List.length (workers s))) as [Hlt | Hge].
    + apply Hin. right. right. apply in_map, in_seq. lia.
    + apply nth_error_None in Hge. cbn [step]. now rewrite Hge.
Qed.

Lemma run_to_end ev n buf ret s :
  inv ev n buf ret s -> exists s', reachable s s' /\ terminal s'.
Proof.
  remember (measure s) as m eqn:Em. revert s Em.
  induction m as [m IH] using lt_wf_ind. intros s Em Hinv.
  destruct (forallb (fun th => negb (can_move s th)) (threads_of s)) eqn:Hall.
  - exists s. split; [constructor | now apply can_move_none].
  - apply forallb_false in Hall. destruct Hall as [th [_ Hth]].
    unfold can_move in Hth. destruct (step th s) as [s1 | ] eqn:Hstep; [ | discriminate].
    pose proof (step_decreases _ _ _ _ _ _ _ Hinv Hstep) as Hlt.
    destruct (IH (measure s1) ltac:(lia) s1 eq_refl
                (inv_step _ _ _ _ _ _ _ Hinv Hstep)) as [s' [Hr Ht]].
    exists s'. split; [ | exact Ht].
    eapply reachable_trans; [ | exact Hr].
    eapply reach_step; [constructor | exact Hstep].
Qed.

(** ** Threads of [run]: the outcome of a run *)

(** C1. With one consumer, buffers with room for an item and a reader that
    returns, a run ends in one of two ways.  If the reader published no
    frame, [run] dereferences the null [data]: the behaviour is undefined
    and [post_process] is never called, with no indicator for the absence
    of frames.  Otherwise [run] returns, after a single [post_process]
    with the metadata of the last frame delivered. *)
Theorem single_consumer_post_process io_factory st s :
  List.length (s_systems st) = 1%nat ->
  0 < s_buf_size st ->
  snd (reader_thread_body io_factory (s_this st)) = Ok tt ->
  reachable (start io_factory st) s ->
  terminal s ->
  let ds := sent_of (fst (reader_thread_body io_factory (s_this st))) in
  (ds = [] /\ pc s = Run_undefined Null_dereference /\ log0 s = [Pre_process])
  \/ (exists d, last (map Some ds) None = Some d /\ pc s = Run_finished
      /\ log0 s = streamed (map Some ds) ++ [Post_process (Some (frame_info d))]).
Proof.
  intros Hlen Hbuf Hret Hreach Ht ds. unfold start in Hreach.
  rewrite Hlen, Hret in Hreach.
  pose proof (reader_sends_stop _ _ Hret) as Hstop.
  destruct (one_final _ 1%nat _ _ eq_refl Hbuf Hstop Hreach Ht) as [H | H];
    rewrite reader_pending in H; fold ds in H.
  - left. destruct H as (Hnil & Hpc & Hlog). split; [ | now split].
    destruct ds; [reflexivity | discriminate Hnil].
  - right. exact H.
Qed.

Lemma two_or_more n : (2 <= n)%nat -> (1 <? n)%nat = true.
Proof. intros H. destruct (Nat.ltb_spec 1 n); [reflexivity | lia]. Qed.

(** C3. When a Pteros_error leaves the loop over the trajectory files
    ([ev] being what the reader did until then), the reader catches it,
    sends the stop, reports the error and returns.  With two or more
    consumers, and buffers that have room for an item, [run] then returns
    and every worker has consumed exactly the frames published before the
    failure.  With one consumer [run] returns likewise, after
    [post_process] with the metadata of the last frame, if a frame was
    published; if none was, [run] dereferences the null [data] and the run
    does not complete normally. *)
Theorem read_failure_outcome io_factory this ev w :
  files_loop io_factory this (TP.traj_files this) locals0 = (ev, Thrown w) ->
  let r := reader_thread_body io_factory this in
  let published := map Some (sent_of ev) in
  r = (ev ++ [Channel_send_stop; Cout Reading_stopped; Cout (What w)], Ok tt)
  /\ (forall buf s, 0 < buf ->
       reachable (initial 1 buf (fst r) (snd r)) s -> terminal s ->
       match sent_of ev with
       | [] => pc s = Run_undefined Null_dereference /\ log0 s = [Pre_process]
       | _ :: _ =>
         pc s = Run_finished
         /\ exists d, last published None = Some d
                      /\ log0 s = streamed published
                                  ++ [Post_process (Some (frame_info d))]
       end)
  /\ (forall n buf s, (2 <= n)%nat -> 0 < buf ->
       reachable (initial n buf (fst r) (snd r)) s -> terminal s ->
       pc s = Run_finished
       /\ forall i w', nth_error (workers s) i = Some w' ->
            taken (w_channel w') = published
            /\ w_log w' = streamed published
                          ++ [Post_process (option_map frame_info (last published None))]).
Proof.
  intros Hloop. cbn zeta.
  assert (E : reader_thread_body io_factory this
              = (ev ++ [Channel_send_stop; Cout Reading_stopped; Cout (What w)], Ok tt))
    by (unfold reader_thread_body; now rewrite Hloop).
  pose proof (reader_pending io_factory this) as Hp.
  pose proof (reader_sends_stop io_factory this) as Hstop.
  rewrite E in *. cbn [fst snd] in *. specialize (Hstop eq_refl).
  rewrite sent_of_app in Hp. cbn [sent_of] in Hp. rewrite app_nil_r in Hp.
  split; [reflexivity | split].
  - intros buf s Hbuf Hreach Ht.
    destruct (one_final _ 1%nat _ _ eq_refl Hbuf Hstop Hreach Ht)
      as [(Hnil & Hpc & Hlog) | [d (Hlast & Hpc & Hlog)]]; rewrite Hp in *.
    + destruct (sent_of ev); [now split | discriminate Hnil].
    + destruct (sent_of ev) as [ | d0 ds] eqn:Eds; [discriminate Hlast | ].
      split; [exact Hpc | ]. exists d. now split.
  - intros n buf s Hn Hbuf Hreach Ht.
    destruct (fan_final _ _ _ _ (two_or_more _ Hn) Hbuf Hstop Hreach Ht)
      as (Hpc & _ & Hws).
    split; [exact Hpc | ]. intros i w' Hi.
    destruct (Hws _ _ Hi) as (_ & Htk & _ & Hlog). rewrite Hp in *. now split.
Qed.

(** C5, amended. With two or more consumers, at every moment of every
    run each worker channel has been sent a front part of the sequence the
    reader publishes, in the reader's order, and the stop at most once;
    [run] is never inside its second loop, the one that drains the channel
    after the stop, since the first loop is left only once the channel is
    closed and empty; the threads can take only a bounded number of steps
    and can always be run to a state where none can move; and when the
    buffers have room for an item and the reader returns, in such a state
    [run] has returned and every worker channel has been sent, and has
    handed to its worker, exactly the sequence the reader published, and
    has been sent the stop exactly once. *)
Theorem fan_out_delivery io_factory st s :
  (2 <= List.length (s_systems st))%nat ->
  reachable (start io_factory st) s ->
  let r := reader_thread_body io_factory (s_this st) in
  let published := map Some (sent_of (fst r)) in
  (forall i w, nth_error (workers s) i = Some w ->
     (exists rest, sent (w_channel w) ++ rest = published)
     /\ (stops (w_channel w) <= 1)%nat)
  /\ (pc s <> Fan_drain_recieve /\ (forall i, pc s <> Fan_drain_send i)
      /\ (pc s = Fan_empty -> drained (channel s)))
  /\ (forall k s', steps k s s' -> (k <= measure s)%nat)
  /\ (exists s', reachable s s' /\ terminal s')
  /\ (0 < s_buf_size st -> snd r = Ok tt -> terminal s ->
      pc s = Run_finished
      /\ List.length (workers s) = List.length (s_systems st)
      /\ forall i w, nth_error (workers s) i = Some w ->
           sent (w_channel w) = published
           /\ taken (w_channel w) = published
           /\ stops (w_channel w) = 1%nat).
Proof.
  intros Hn Hreach. cbn zeta. unfold start in Hreach.
  pose proof (two_or_more _ Hn) as Hfan.
  pose proof (inv_reachable _ _ _ _ _ Hreach) as Hinv.
  rewrite <- reader_pending.
  split; [exact (fan_prefix _ _ _ _ _ Hfan Hreach) | ].
  split; [ | split; [ | split]].
  - destruct (inv_shape _ _ _ _ _ Hinv) as (_ & Hd1 & _ & Hd2).
    split; [exact Hd1 | ]. split; [exact Hd2 | ].
    intros Hpc. pose proof (inv_mode _ _ _ _ _ Hinv) as Hmode.
    unfold mode_ok in Hmode. rewrite Hfan in Hmode.
    destruct Hmode as (_ & Hmain & _). unfold fan_main_ok in Hmain.
    now rewrite Hpc in Hmain.
  - intros k s' Hsteps. pose proof (steps_bounded _ _ _ _ _ _ _ Hinv Hsteps). lia.
  - exact (run_to_end _ _ _ _ _ Hinv).
  - intros Hbuf Hret Ht. rewrite Hret in Hreach.
    pose proof (reader_sends_stop _ _ Hret) as Hstop.
    destruct (fan_final _ _ _ _ Hfan Hbuf Hstop Hreach Ht) as (Hpc & Hlen & Hws).
    split; [exact Hpc | ]. split; [exact Hlen | ].
    intros i w Hi. destruct (Hws _ _ Hi) as (H1 & H2 & H3 & _). now repeat split.
Qed.

(** C9. The single-consumer path and the fan-out path compared, for the
    same reader, buffers that have room for an item and a reader that
    returns, once no thread can move.  The first worker of the fan-out has
    received [pre_process], the frames published in order, and
    [post_process] with the metadata of the last frame or with the absent
    value.  When a frame was published, the one consumer of the single
    path has received exactly the same calls and both runs have returned.
    When none was published the two paths differ: the worker has received
    [pre_process] and [post_process] with the absent value and its run has
    returned, while the single path has called only [pre_process] and has
    dereferenced the null [data]. *)
Theorem single_and_fan_out_compared io_factory this buf1 buf2 s1 s2 w0 :
  let r := reader_thread_body io_factory this in
  let published := map Some (sent_of (fst r)) in
  0 < buf1 -> 0 < buf2 -> snd r = Ok tt ->
  reachable (initial 1 buf1 (fst r) (snd r)) s1 -> terminal s1 ->
  reachable (initial 2 buf2 (fst r) (snd r)) s2 -> terminal s2 ->
  nth_error (workers s2) 0 = Some w0 ->
  pc s2 = Run_finished
  /\ w_log w0 = streamed published
                ++ [Post_process (option_map frame_info (last published None))]
  /\ match sent_of (fst r) with
     | [] =>
       pc s1 = Run_undefined Null_dereference
       /\ log0 s1 = [Pre_process]
       /\ w_log w0 = [Pre_process; Post_process None]
     | _ :: _ => pc s1 = Run_finished /\ log0 s1 = w_log w0
     end.
Proof.
  intros r published Hb1 Hb2 Hret Hr1 Ht1 Hr2 Ht2 Hw0. subst r published.
  remember (reader_thread_body io_factory this) as r eqn:Er.
  pose proof (reader_sends_stop io_factory this) as Hstop.
  pose proof (reader_pending io_factory this) as Hp.
  rewrite <- Er in Hstop, Hp. specialize (Hstop Hret).
  rewrite Hret in Hr1, Hr2.
  destruct (fan_final _ 2%nat _ _ eq_refl Hb2 Hstop Hr2 Ht2) as (Hpc2 & _ & Hws).
  destruct (Hws _ _ Hw0) as (_ & _ & _ & Hlog2). rewrite Hp in Hlog2.
  split; [exact Hpc2 | ]. split; [exact Hlog2 | ].
  destruct (one_final _ 1%nat _ _ eq_refl Hb1 Hstop Hr1 Ht1)
    as [(Hnil & Hpc1 & Hlog1) | [d (Hlast & Hpc1 & Hlog1)]]; rewrite Hp in *.
  - destruct (sent_of (fst r)); [ | discriminate Hnil].
    split; [exact Hpc1 | ]. split; [exact Hlog1 | exact Hlog2].
  - destruct (sent_of (fst r)) as [ | d0 ds] eqn:Eds; [discriminate Hlast | ].
    split; [exact Hpc1 | ]. rewrite Hlog1, Hlog2. unfold Data_ptr in *.
    now rewrite Hlast.
Qed.


(** * Further properties *)

(** ** Reader thread: a property kept by every iteration holds of the run *)

Lemma Forall_log_loaded (P : reader_event -> Prop) this a :
  (forall line, P (Cout line)) -> Forall P (log_loaded this a).
Proof.
  intros HP. unfold log_loaded. destruct (_ && _); repeat constructor. apply HP.
Qed.

Lemma frames_loop_invariant this (I : locals -> Prop) (P : reader_event -> Prop)
  (D : Frame -> Prop) :
  (forall l fr0 ev l' x, I l -> D fr0 -> frame_body this l fr0 = (ev, l', x) ->
     (x = Continue -> I l') /\ Forall P ev) ->
  forall rs l ev l' x,
    (forall fr, In (Read_good fr) rs -> D fr) -> I l ->
    frames_loop this rs l = (ev, l', x) -> (x = Eof -> I l') /\ Forall P ev.
Proof.
  intros Hstep rs. induction rs as [ | r rs IH]; intros l ev l' x HD HI H.
  - injection H as <- <- <-. now split.
  - destruct r as [fr | w].
    2:{ injection H as <- <- <-. split; [discriminate | constructor]. }
    cbn [frames_loop] in H.
    destruct (frame_body this l fr) as [[ev1 l1] x1] eqn:Hb.
    destruct (Hstep _ _ _ _ _ HI (HD _ (or_introl eq_refl)) Hb) as [HI1 HP1].
    destruct x1.
    + destruct (frames_loop this rs l1) as [[ev2 l2] x2] eqn:Hr.
      injection H as <- <- <-.
      destruct (IH _ _ _ _ (fun fr Hin => HD fr (or_intror Hin)) (HI1 eq_refl) Hr)
        as [HI2 HP2].
      split; [exact HI2 | ]. apply Forall_app. now split.
    + injection H as <- <- <-. split; [discriminate | exact HP1].
    + injection H as <- <- <-. split; [discriminate | exact HP1].
Qed.

Lemma files_loop_invariant io_factory this (I : locals -> Prop)
  (P : reader_event -> Prop) (D : Frame -> Prop) :
  (forall line, P (Cout line)) -> (forall f, P (Io_factory f)) ->
  (forall l fr0 ev l' x, I l -> D fr0 -> frame_body this l fr0 = (ev, l', x) ->
     (x = Continue -> I l') /\ Forall P ev) ->
  forall fs l ev x,
    (forall f fr, In f fs -> In (Read_good fr) (reads (io_factory f)) -> D fr) ->
    I l -> files_loop io_factory this fs l = (ev, x) -> Forall P ev.
Proof.
  intros HC HO Hstep fs. induction fs as [ | f fs IH]; intros l ev x HD HI H.
  - injection H as <- <-. constructor.
  - cbn [files_loop] in H.
    destruct (open_throws (io_factory f)).
    { injection H as <- <-. repeat constructor; [apply HC | apply HO]. }
    destruct (frames_loop this (reads (io_factory f)) l) as [[ev1 l1] x1] eqn:Hf.
    destruct (frames_loop_invariant this I P D Hstep _ _ _ _ _
                (fun fr Hin => HD f fr (or_introl eq_refl) Hin) HI Hf) as [HI1 HP1].
    destruct x1.
    + destruct (files_loop io_factory this fs l1) as [ev2 x2] eqn:Hr.
      injection H as <- <-. cbn [app].
      constructor; [apply HC | ]. constructor; [apply HO | ].
      apply Forall_app. split; [exact HP1 | ]. constructor; [apply HC | ].
      exact (IH _ _ _ (fun g fr Hg => HD g fr (or_intror Hg)) (HI1 eq_refl) Hr).
    + injection H as <- <-. cbn [app].
      constructor; [apply HC | ]. constructor; [apply HO | ].
      apply Forall_app. split; [exact HP1 | ]. repeat constructor. apply HC.
    + injection H as <- <-. cbn [app].
      constructor; [apply HC | ]. constructor; [apply HO | ]. exact HP1.
    + injection H as <- <-. cbn [app].
      constructor; [apply HC | ]. constructor; [apply HO | ]. exact HP1.
Qed.

(** A property [I] of the local variables that every iteration which goes
    on to the next one keeps, and a property [P] that the effects of every
    iteration started under [I] have, give [P] of every effect. *)
Lemma reader_invariant io_factory this (I : locals -> Prop)
  (P : reader_event -> Prop) :
  (forall line, P (Cout line)) -> (forall f, P (Io_factory f)) ->
  P Channel_send_stop ->
  (forall l fr0 ev l' x, I l -> on_disk io_factory this fr0 ->
     frame_body this l fr0 = (ev, l', x) -> (x = Continue -> I l') /\ Forall P ev) ->
  I locals0 ->
  Forall P (fst (reader_thread_body io_factory this)).
Proof.
  intros HC HO HS Hstep HI. unfold reader_thread_body.
  destruct (files_loop io_factory this (TP.traj_files this) locals0) as [ev x] eqn:H.
  assert (HP : Forall P ev).
  { apply (files_loop_invariant io_factory this I P (on_disk io_factory this)
             HC HO Hstep _ _ _ _ (fun f fr Hf Hfr => ex_intro _ f (conj Hf Hfr)) HI H). }
  destruct x; cbn [fst]; try exact HP;
    apply Forall_app; split; try exact HP; repeat constructor; try exact HS; apply HC.
Qed.

(** The shape of one iteration: what it does is the log line, if any, the
    frame read, and then nothing more, the stop, or one container. *)
Lemma frame_body_shape this l fr0 ev l' x :
  frame_body this l fr0 = (ev, l', x) ->
  ev = []
  \/ exists tl,
       ev = log_loaded this (abs_frame l + 1)
            ++ Loaded (abs_frame l + 1)
                 (set_t fr0 (frame_time this (abs_frame l + 1) fr0)) :: tl
       /\ (tl = [] \/ tl = [Channel_send_stop]
           \/ exists l2, tl = [Channel_send
                                (fill this l2
                                   (set_t fr0 (frame_time this (abs_frame l + 1) fr0)))]
                         /\ l' = l2 /\ abs_frame l2 = abs_frame l + 1).
Proof.
  unfold frame_body. intros H.
  destruct (int_incr (abs_frame l)) as [abs | u] eqn:Habs.
  2:{ injection H as <- <- <-. now left. }
  apply int_incr_ok in Habs. destruct Habs as [-> _]. right.
  destruct (is_end_of_interval _ _ _).
  { injection H as <- <- <-. eexists. split; [reflexivity | ]. right. now left. }
  destruct (is_frame_valid _ _ _) as [[ | ] | u].
  - destruct (int_incr _) as [valid | u].
    + injection H as <- <- <-. eexists. split; [reflexivity | ]. right. right.
      eexists. split; [reflexivity | ]. split; [reflexivity | ].
      now destruct (valid =? 0).
    + injection H as <- <- <-. eexists. split; [reflexivity | ]. now left.
  - injection H as <- <- <-. eexists. split; [reflexivity | ]. now left.
  - injection H as <- <- <-. eexists. split; [reflexivity | ]. now left.
Qed.

(** ** Reader thread: the metadata of a container *)

Lemma reader_metadata_filled io_factory this :
  Forall (metadata_filled this) (fst (reader_thread_body io_factory this)).
Proof.
  apply (reader_invariant io_factory this (fun _ => True)); try (intros; exact I).
  intros l fr0 ev l' x _ _ Hb. split; [intros _; exact I | ].
  destruct (frame_body_shape _ _ _ _ _ _ Hb) as [-> | [tl [-> Htl]]]; [constructor | ].
  apply Forall_app. split; [apply Forall_log_loaded; intros; exact I | ].
  constructor; [exact I | ].
  destruct Htl as [-> | [-> | [l2 (-> & _ & _)]]]; repeat constructor.
Qed.

Lemma published_accepted io_factory this d :
  In d (sent_of (fst (reader_thread_body io_factory this))) ->
  accepted this (key_of d) = true.
Proof.
  intros Hin. destruct (reader_counted io_factory this) as [l' (_ & _ & K & _)].
  apply (in_map key_of) in Hin. rewrite K in Hin. now apply filter_In in Hin.
Qed.

Lemma published_metadata io_factory this d :
  In d (sent_of (fst (reader_thread_body io_factory this))) ->
  metadata_filled this (Channel_send d).
Proof.
  intros Hin. pose proof (reader_metadata_filled io_factory this) as H.
  rewrite Forall_forall in H. exact (H _ (in_sent_of _ _ Hin)).
Qed.

Lemma published_index_not_negative io_factory this d :
  In d (sent_of (fst (reader_thread_body io_factory this))) ->
  0 <= absolute_frame (frame_info d).
Proof.
  intros Hin. destruct (reader_counted io_factory this) as [l' (A & _ & K & _)].
  apply (in_map key_of) in Hin. rewrite K in Hin. apply filter_In in Hin.
  destruct Hin as [Hin _]. apply (in_map fst) in Hin. rewrite A in Hin.
  cbn [fst key_of] in Hin. apply zseq_above in Hin. cbn in Hin. lia.
Qed.

(** X1. Every container that the reader publishes lies inside the
    requested window and on the stride: its absolute index is not below
    [first_frame] and not above [last_frame] where these are set, it is a
    multiple of [skip] where a stride is set, and its time is not below
    [first_time] and not above [last_time] where these are set. *)
Theorem published_within_window io_factory this d :
  In d (sent_of (fst (reader_thread_body io_factory this))) ->
  let a := absolute_frame (frame_info d) in
  let time := absolute_time (frame_info d) in
  0 <= a
  /\ (0 <= TP.first_frame this -> TP.first_frame this <= a)
  /\ (0 <= TP.last_frame this -> a <= TP.last_frame this)
  /\ (0 < TP.skip this -> a mod TP.skip this = 0)
  /\ (flt (TP.first_time this) f0 = false -> fge time (TP.first_time this) = true)
  /\ (fge (TP.last_time this) f0 = true -> fgt time (TP.last_time this) = false).
Proof.
  intros Hin. cbn zeta.
  pose proof (published_accepted _ _ _ Hin) as Hacc.
  pose proof (published_index_not_negative _ _ _ Hin) as Hpos.
  destruct (published_metadata _ _ _ Hin) as (Ht & _). rewrite Ht.
  unfold accepted, key_of in Hacc. cbn [fst snd] in Hacc.
  apply andb_true_iff in Hacc. destruct Hacc as [Hend Hval].
  apply negb_true_iff in Hend. unfold is_end_of_interval in Hend.
  apply orb_false_iff in Hend. destruct Hend as [Hef Het].
  split; [exact Hpos | ].
  assert (Hv : is_frame_valid this (absolute_frame (frame_info d)) (t (frame d))
               = Ok true)
    by (destruct (is_frame_valid _ _ _) as [[ | ] | u]; [reflexivity | discriminate ..]).
  clear Hval. unfold is_frame_valid, and_then, or_else in Hv.
  destruct ((TP.first_frame this <? 0)
            || (absolute_frame (frame_info d) >=? TP.first_frame this)) eqn:H1;
    [ | discriminate Hv].
  destruct (flt (TP.first_time this) f0 || fge (t (frame d)) (TP.first_time this))
    eqn:H2; [ | discriminate Hv].
  repeat split.
  - intros Hf. apply orb_true_iff in H1. destruct H1 as [H1 | H1]; lia.
  - intros Hl. apply andb_false_iff in Hef. destruct Hef as [Hef | Hef]; lia.
  - intros Hs. destruct (Z.ltb_spec (TP.skip this) 0) as [ | _]; [lia | ].
    unfold int_rem in Hv. destruct (Z.eqb_spec (TP.skip this) 0); [lia | ].
    destruct ((absolute_frame (frame_info d) =? INT_MIN) && (TP.skip this =? -1));
      cbn in Hv; [discriminate Hv | ]. injection Hv as Hv.
    rewrite rem_zero_iff_mod_zero in Hv by lia. lia.
  - intros Hft. rewrite Hft in H2. exact H2.
  - intros Hlt. rewrite Hlt, andb_true_r in Het. exact Het.
Qed.

Lemma firsts_silent l ev : sent_of ev = [] -> firsts l ev l.
Proof. intros H _. rewrite H. now repeat split. Qed.

Lemma firsts_app l ev1 l1 ev2 l2 :
  firsts l ev1 l1 -> firsts l1 ev2 l2 -> firsts l (ev1 ++ ev2) l2.
Proof.
  unfold firsts. intros H1 H2 Hl. specialize (H1 Hl). rewrite sent_of_app.
  destruct (sent_of ev1) as [ | d0 r1].
  - destruct H1 as (Hv & Hf & Ht). rewrite Hv, Hf, Ht in H2. cbn [app].
    apply H2. exact Hl.
  - cbn zeta in H1. destruct H1 as (Hv & Hs & Hall).
    assert (Hl1 : -1 <= l_valid_frame l1) by lia. specialize (H2 Hl1).
    cbn [app]. cbn zeta. destruct (sent_of ev2) as [ | e0 r2].
    + destruct H2 as (Hv2 & Hf2 & Ht2). rewrite app_nil_r.
      split; [lia | ]. split; [ | exact Hall]. now rewrite Hf2, Ht2.
    + cbn zeta in H2. destruct H2 as (Hv2 & Hs2 & Hall2).
      assert (E : (l_valid_frame l1 =? -1) = false)
        by (destruct (Z.eqb_spec (l_valid_frame l1) (-1)); [lia | reflexivity]).
      rewrite E in Hs2, Hall2. rewrite Hs in Hs2, Hall2.
      split; [exact Hv2 | ]. split; [exact Hs2 | ].
      intros d [<- | Hd]; [apply Hall; now left | ].
      apply in_app_or in Hd. destruct Hd as [Hd | Hd];
        [apply Hall; now right | now apply Hall2].
Qed.

Lemma frame_body_firsts this l fr0 ev l' x :
  frame_body this l fr0 = (ev, l', x) -> firsts l ev l'.
Proof.
  unfold frame_body. intros H.
  destruct (int_incr (abs_frame l)) as [abs | u].
  2:{ injection H as <- <- <-. now apply firsts_silent. }
  remember (set_t fr0 (frame_time this abs fr0)) as fr eqn:Efr.
  assert (Hquiet : forall tl lx,
            sent_of tl = [] -> l_valid_frame lx = l_valid_frame l ->
            saved_first_frame lx = saved_first_frame l ->
            saved_first_time lx = saved_first_time l ->
            firsts l (log_loaded this abs ++ tl) lx).
  { intros tl lx Htl Hv Hf Ht _. rewrite sent_of_app, sent_of_log, Htl. now repeat split. }
  destruct (is_end_of_interval this abs (t fr)).
  { injection H as <- <- <-. now apply Hquiet. }
  destruct (is_frame_valid this abs (t fr)) as [[ | ] | u].
  - cbn [l_valid_frame] in H.
    destruct (int_incr (l_valid_frame l)) as [valid | u] eqn:Hvalid.
    + apply int_incr_ok in Hvalid. destruct Hvalid as [-> _].
      injection H as <- <- <-. intros Hl.
      rewrite sent_of_app, sent_of_log. cbn [app sent_of]. cbn zeta.
      assert (E : (l_valid_frame l + 1 =? 0) = (l_valid_frame l =? -1)).
      { destruct (Z.eqb_spec (l_valid_frame l + 1) 0),
          (Z.eqb_spec (l_valid_frame l) (-1)); try reflexivity; lia. }
      rewrite E. destruct (l_valid_frame l =? -1); cbn.
      * split; [lia | ]. split; [reflexivity | ]. intros d [<- | []]. reflexivity.
      * split; [lia | ]. split; [reflexivity | ]. intros d [<- | []]. reflexivity.
    + injection H as <- <- <-. now apply Hquiet.
  - injection H as <- <- <-. now apply Hquiet.
  - injection H as <- <- <-. now apply Hquiet.
Qed.

Lemma frames_loop_firsts this rs : forall l ev l' x,
  frames_loop this rs l = (ev, l', x) -> firsts l ev l'.
Proof.
  induction rs as [ | r rs IH]; intros l ev l' x H.
  - injection H as <- <- <-. now apply firsts_silent.
  - destruct r as [fr | w].
    2:{ injection H as <- <- <-. now apply firsts_silent. }
    cbn [frames_loop] in H.
    destruct (frame_body this l fr) as [[ev1 l1] x1] eqn:Hb.
    apply frame_body_firsts in Hb.
    destruct x1.
    + destruct (frames_loop this rs l1) as [[ev2 l2] x2] eqn:Hr.
      injection H as <- <- <-. eapply firsts_app; [exact Hb | ]. exact (IH _ _ _ _ Hr).
    + injection H as <- <- <-. exact Hb.
    + injection H as <- <- <-. exact Hb.
Qed.

Lemma files_loop_firsts io_factory this fs : forall l ev x,
  files_loop io_factory this fs l = (ev, x) -> exists l', firsts l ev l'.
Proof.
  induction fs as [ | f fs IH]; intros l ev x H.
  - injection H as <- <-. exists l. now apply firsts_silent.
  - cbn [files_loop] in H.
    destruct (open_throws (io_factory f)).
    { injection H as <- <-. exists l. now apply firsts_silent. }
    destruct (frames_loop this (reads (io_factory f)) l) as [[ev1 l1] x1] eqn:Hf.
    apply frames_loop_firsts in Hf.
    assert (Hhd : forall tl lf, firsts l tl lf ->
              firsts l (Cout (Reading_trajectory f) :: Io_factory f :: tl) lf).
    { intros tl lf C.
      apply (firsts_app l [Cout (Reading_trajectory f); Io_factory f] l tl lf);
        [now apply firsts_silent | exact C]. }
    destruct x1.
    + destruct (files_loop io_factory this fs l1) as [ev2 x2] eqn:Hr.
      injection H as <- <-. destruct (IH _ _ _ Hr) as [l2 C2]. exists l2.
      apply Hhd. eapply firsts_app; [exact Hf | ].
      apply (firsts_app l1 [Cout Reading_done] l1 ev2 l2);
        [now apply firsts_silent | exact C2].
    + injection H as <- <-. exists l1. apply Hhd.
      eapply firsts_app; [exact Hf | ]. now apply firsts_silent.
    + injection H as <- <-. exists l1. now apply Hhd.
    + injection H as <- <-. exists l1. now apply Hhd.
Qed.

Lemma published_first_and_last io_factory this d0 rest d :
  sent_of (fst (reader_thread_body io_factory this)) = d0 :: rest ->
  In d (d0 :: rest) ->
  first_frame (frame_info d) = absolute_frame (frame_info d0)
  /\ first_time (frame_info d) = absolute_time (frame_info d0)
  /\ last_frame (frame_info d) = absolute_frame (frame_info d)
  /\ last_time (frame_info d) = absolute_time (frame_info d)
  /\ absolute_time (frame_info d) = t (frame d)
  /\ win_size_frames (frame_info d) = TP.window_size_frames this
  /\ win_size_time (frame_info d) = TP.window_size_time this.
Proof.
  intros Hsent Hin.
  assert (Hd : In d (sent_of (fst (reader_thread_body io_factory this))))
    by now rewrite Hsent.
  destruct (published_metadata _ _ _ Hd) as (Ht & Hlf & Hlt & Hwf & Hwt).
  assert (F : exists l', firsts locals0 (fst (reader_thread_body io_factory this)) l').
  { unfold reader_thread_body.
    destruct (files_loop io_factory this (TP.traj_files this) locals0) as [ev x] eqn:H.
    destruct (files_loop_firsts _ _ _ _ _ _ H) as [l' C]. exists l'.
    destruct x; cbn [fst]; try exact C;
      (eapply firsts_app; [exact C | now apply firsts_silent]). }
  destruct F as [l' F]. unfold firsts in F. rewrite Hsent in F.
  specialize (F ltac:(cbn; lia)). cbn in F. destruct F as (_ & _ & Hall).
  specialize (Hall d Hin). unfold first_of in Hall. injection Hall as Hff Hft.
  now repeat split.
Qed.

(** X2. Every container published repeats, as the run's first frame and
    first time, the absolute index and the time of the first container
    published; as last frame and last time it carries its own index and
    time, its time being that of its frame; and it carries the window
    sizes of the processor. *)
Theorem published_metadata_first_and_last io_factory this d0 rest d :
  sent_of (fst (reader_thread_body io_factory this)) = d0 :: rest ->
  In d (d0 :: rest) ->
  first_frame (frame_info d) = absolute_frame (frame_info d0)
  /\ first_time (frame_info d) = absolute_time (frame_info d0)
  /\ last_frame (frame_info d) = absolute_frame (frame_info d)
  /\ last_time (frame_info d) = absolute_time (frame_info d)
  /\ absolute_time (frame_info d) = t (frame d)
  /\ win_size_frames (frame_info d) = TP.window_size_frames this
  /\ win_size_time (frame_info d) = TP.window_size_time this.
Proof. apply published_first_and_last. Qed.

(** ** Reader thread: the two counters against each other *)

Lemma Forall_on_send (Q : Data_container -> Prop) ev :
  (forall d, In d (sent_of ev) -> Q d) <-> Forall (on_send Q) ev.
Proof.
  induction ev as [ | e ev IH]; split; intros H.
  - constructor.
  - intros d [].
  - constructor.
    + destruct e; try exact I. apply H. now left.
    + apply IH. intros d Hd. apply H. destruct e; try exact Hd. now right.
  - inversion_clear H as [ | ? ? He Hev]. intros d Hd.
    destruct e; try (now apply IH); cbn in Hd.
    destruct Hd as [<- | Hd]; [exact He | now apply IH].
Qed.

Lemma published_invariant io_factory this (I : locals -> Prop)
  (Q : Data_container -> Prop) :
  (forall l fr0 ev l' x, I l -> on_disk io_factory this fr0 ->
     frame_body this l fr0 = (ev, l', x) ->
     (x = Continue -> I l') /\ (forall d, In d (sent_of ev) -> Q d)) ->
  I locals0 ->
  forall d, In d (sent_of (fst (reader_thread_body io_factory this))) -> Q d.
Proof.
  intros Hstep HI. apply Forall_on_send.
  apply (reader_invariant io_factory this I); try (intros; exact I0); try exact HI.
  - intros line. exact Logic.I.
  - intros f. exact Logic.I.
  - exact Logic.I.
  - intros l fr0 ev l' x Hl Hd Hb.
    destruct (Hstep _ _ _ _ _ Hl Hd Hb) as [H1 H2]. split; [exact H1 | ].
    now apply Forall_on_send.
Qed.

(** One iteration, by what the filter says of the frame read: nothing is
    sent, or the frame is valid and inside the interval and is sent with
    both counters advanced. *)
Lemma frame_body_cases this l fr0 ev l' x :
  frame_body this l fr0 = (ev, l', x) ->
  let a := abs_frame l + 1 in
  let fr := set_t fr0 (frame_time this a fr0) in
  (sent_of ev = []
   /\ (x = Continue ->
       is_frame_valid this a (t fr) = Ok false
       /\ abs_frame l' = a /\ l_valid_frame l' = l_valid_frame l))
  \/ (x = Continue
      /\ is_end_of_interval this a (t fr) = false
      /\ is_frame_valid this a (t fr) = Ok true
      /\ abs_frame l' = a /\ l_valid_frame l' = l_valid_frame l + 1
      /\ sent_of ev = [fill this l' fr]).
Proof.
  unfold frame_body. intros H. cbn zeta.
  destruct (int_incr (abs_frame l)) as [abs | u] eqn:Habs.
  2:{ injection H as <- <- <-. left. split; [reflexivity | discriminate]. }
  apply int_incr_ok in Habs. destruct Habs as [-> _].
  assert (Hs : forall tl, sent_of tl = [] ->
            sent_of (log_loaded this (abs_frame l + 1) ++ tl) = []).
  { intros tl Htl. now rewrite sent_of_app, sent_of_log. }
  destruct (is_end_of_interval _ _ _) eqn:Hend.
  { injection H as <- <- <-. left. split; [now apply Hs | discriminate]. }
  destruct (is_frame_valid _ _ _) as [[ | ] | u] eqn:Hval.
  - cbn [l_valid_frame] in H.
    destruct (int_incr (l_valid_frame l)) as [valid | u] eqn:Hvalid.
    + apply int_incr_ok in Hvalid. destruct Hvalid as [-> _].
      injection H as <- <- <-. right.
      rewrite sent_of_app, sent_of_log. cbn [app sent_of].
      repeat split; now destruct (l_valid_frame l + 1 =? 0).
    + injection H as <- <- <-. left. split; [now apply Hs | discriminate].
  - injection H as <- <- <-. left. split; [now apply Hs | ]. now intros _.
  - injection H as <- <- <-. left. split; [now apply Hs | discriminate].
Qed.

Lemma div_next_multiple a k :
  0 < k -> (a + 1) mod k = 0 -> (a + 1) / k = a / k + 1.
Proof.
  intros Hk Hm. pose proof (Z.div_mod (a + 1) k ltac:(lia)) as E. rewrite Hm in E.
  symmetry. apply Z.add_move_r. symmetry.
  apply (Z.div_unique a k _ (k - 1)); [lia | nia].
Qed.

Lemma div_next_other a k :
  0 < k -> (a + 1) mod k <> 0 -> (a + 1) / k = a / k.
Proof.
  intros Hk Hm. pose proof (Z.div_mod (a + 1) k ltac:(lia)) as E.
  pose proof (Z.mod_pos_bound (a + 1) k Hk) as B.
  apply (Z.div_unique a k _ ((a + 1) mod k - 1)); [lia | nia].
Qed.

Lemma is_frame_valid_stride this a time :
  TP.first_frame this < 0 -> flt (TP.first_time this) f0 = true ->
  0 < TP.skip this -> 0 <= a ->
  is_frame_valid this a time = Ok (a mod TP.skip this =? 0).
Proof.
  intros Hf Ht Hk Ha. unfold is_frame_valid, and_then, or_else, int_rem, INT_MIN.
  rewrite Ht. cbn [orb].
  destruct (Z.ltb_spec (TP.first_frame this) 0); [ | lia]. cbn [orb].
  destruct (Z.ltb_spec (TP.skip this) 0); [lia | ].
  destruct (Z.eqb_spec (TP.skip this) 0); [lia | ].
  destruct (Z.eqb_spec a (-2147483648)); [lia | ]. cbn [andb bind].
  now rewrite rem_zero_iff_mod_zero.
Qed.

(** X3. With a stride and no lower bound, the ordinal of a container
    counts the multiples of the stride: the absolute index of every
    container published is [skip] times its valid-frame ordinal. *)
Theorem published_on_stride io_factory this d :
  TP.first_frame this < 0 -> flt (TP.first_time this) f0 = true ->
  0 < TP.skip this ->
  In d (sent_of (fst (reader_thread_body io_factory this))) ->
  absolute_frame (frame_info d) = TP.skip this * valid_frame (frame_info d).
Proof.
  intros Hf Ht Hk Hin. revert d Hin.
  apply (published_invariant io_factory this
           (fun l => -1 <= abs_frame l
                     /\ l_valid_frame l = abs_frame l / TP.skip this)
           (fun d => absolute_frame (frame_info d)
                     = TP.skip this * valid_frame (frame_info d))).
  2:{ cbn. split; [lia | ]. apply (Z.div_unique _ _ _ (TP.skip this - 1)); lia. }
  intros l fr0 ev l' x [Ha Hv] _ Hb.
  destruct (frame_body_cases _ _ _ _ _ _ Hb) as [[Hs Hc] | (Hx & _ & Hval & Ea & Ev & Hs)].
  - split; [ | rewrite Hs; intros d0 []].
    intros Hx. destruct (Hc Hx) as (Hval & Ea & Ev).
    rewrite is_frame_valid_stride in Hval by (assumption || lia).
    injection Hval as Hval. apply Z.eqb_neq in Hval.
    rewrite Ea, Ev, Hv. split; [lia | ]. symmetry. now apply div_next_other.
  - rewrite is_frame_valid_stride in Hval by (assumption || lia).
    injection Hval as Hval. apply Z.eqb_eq in Hval.
    assert (E : l_valid_frame l' = abs_frame l' / TP.skip this).
    { rewrite Ea, Ev, Hv. symmetry. now apply div_next_multiple. }
    split; [intros _; split; [lia | exact E] | ].
    rewrite Hs. intros d0 [<- | []]. cbn. rewrite E, Ea.
    pose proof (Z.div_mod (abs_frame l + 1) (TP.skip this) ltac:(lia)). lia.
Qed.

Lemma is_frame_valid_offset this a time :
  flt (TP.first_time this) f0 = true -> TP.skip this < 0 ->
  is_frame_valid this a time
  = Ok ((TP.first_frame this <? 0) || (a >=? TP.first_frame this)).
Proof.
  intros Ht Hk. unfold is_frame_valid, and_then, or_else. rewrite Ht. cbn [orb].
  destruct (Z.ltb_spec (TP.skip this) 0); [ | lia].
  now destruct ((TP.first_frame this <? 0) || (a >=? TP.first_frame this)).
Qed.

(** X4. Without a stride and without a first time, the ordinal of a
    container is its distance from the first frame asked for: the absolute
    index of every container published is [first_frame], or 0 where that
    is unset, plus its valid-frame ordinal. *)
Theorem published_from_first_frame io_factory this d :
  flt (TP.first_time this) f0 = true -> TP.skip this < 0 ->
  In d (sent_of (fst (reader_thread_body io_factory this))) ->
  absolute_frame (frame_info d)
  = Z.max 0 (TP.first_frame this) + valid_frame (frame_info d).
Proof.
  intros Ht Hk Hin. revert d Hin.
  apply (published_invariant io_factory this
           (fun l => -1 <= abs_frame l
                     /\ l_valid_frame l
                        = Z.max (-1) (abs_frame l - Z.max 0 (TP.first_frame this)))
           (fun d => absolute_frame (frame_info d)
                     = Z.max 0 (TP.first_frame this) + valid_frame (frame_info d))).
  2:{ cbn [abs_frame l_valid_frame locals0]. lia. }
  intros l fr0 ev l' x [Ha Hv] _ Hb.
  destruct (frame_body_cases _ _ _ _ _ _ Hb) as [[Hs Hc] | (Hx & _ & Hval & Ea & Ev & Hs)].
  - split; [ | rewrite Hs; intros d0 []].
    intros Hx. destruct (Hc Hx) as (Hval & Ea & Ev).
    rewrite is_frame_valid_offset in Hval by assumption.
    injection Hval as Hval. apply orb_false_iff in Hval. lia.
  - rewrite is_frame_valid_offset in Hval by assumption.
    injection Hval as Hval. apply orb_true_iff in Hval.
    assert (E : l_valid_frame l'
                = Z.max (-1) (abs_frame l' - Z.max 0 (TP.first_frame this))) by lia.
    split; [intros _; split; [lia | exact E] | ].
    rewrite Hs. intros d0 [<- | []].
    cbn [fill frame_info absolute_frame valid_frame]. lia.
Qed.

(** ** Reader thread: when it returns *)






(** ** Reader thread: the end-of-stream mark *)

Lemma orderly_split pre post :
  orderly (pre ++ Channel_send_stop :: post) -> sent_of post = [].
Proof.
  induction pre as [ | e pre IH]; cbn; [tauto | ].
  destruct e; cbn; try exact IH.
  rewrite sent_of_app. cbn. intros H. now apply app_eq_nil in H.
Qed.

Lemma stops_of_app ev1 ev2 : stops_of (ev1 ++ ev2) = (stops_of ev1 + stops_of ev2)%nat.
Proof.
  induction ev1 as [ | e ev1 IH]; [reflexivity | ].
  destruct e; cbn; now rewrite IH.
Qed.

Lemma stops_of_log this a : stops_of (log_loaded this a) = 0%nat.
Proof. unfold log_loaded. now destruct (_ && _). Qed.

Lemma frame_body_stops this l fr0 ev l' x :
  frame_body this l fr0 = (ev, l', x) ->
  stops_of ev = match x with Break_finished => 1%nat | _ => 0%nat end.
Proof.
  unfold frame_body. intros H.
  destruct (int_incr (abs_frame l)) as [abs | u].
  2:{ injection H as <- <- <-. reflexivity. }
  destruct (is_end_of_interval _ _ _).
  { injection H as <- <- <-. now rewrite stops_of_app, stops_of_log. }
  destruct (is_frame_valid _ _ _) as [[ | ] | u].
  - destruct (int_incr _) as [valid | u]; injection H as <- <- <-;
      now rewrite stops_of_app, stops_of_log.
  - injection H as <- <- <-. now rewrite stops_of_app, stops_of_log.
  - injection H as <- <- <-. now rewrite stops_of_app, stops_of_log.
Qed.

Lemma frames_loop_stops this rs : forall l ev l' x,
  frames_loop this rs l = (ev, l', x) ->
  stops_of ev = match x with Finished => 1%nat | _ => 0%nat end.
Proof.
  induction rs as [ | r rs IH]; intros l ev l' x H.
  - injection H as <- <- <-. reflexivity.
  - destruct r as [fr | w].
    2:{ injection H as <- <- <-. reflexivity. }
    cbn [frames_loop] in H.
    destruct (frame_body this l fr) as [[ev1 l1] x1] eqn:Hb.
    apply frame_body_stops in Hb.
    destruct x1.
    + destruct (frames_loop this rs l1) as [[ev2 l2] x2] eqn:Hr.
      injection H as <- <- <-. rewrite stops_of_app, Hb. exact (IH _ _ _ _ Hr).
    + injection H as <- <- <-. exact Hb.
    + injection H as <- <- <-. exact Hb.
Qed.

Lemma files_loop_stops io_factory this fs : forall l ev x,
  files_loop io_factory this fs l = (ev, x) ->
  (stops_of ev <= 1)%nat
  /\ match x with Fell_through => True | _ => stops_of ev = 0%nat end.
Proof.
  induction fs as [ | f fs IH]; intros l ev x H.
  - injection H as <- <-. cbn. split; [lia | exact I].
  - cbn [files_loop] in H.
    destruct (open_throws (io_factory f)).
    { injection H as <- <-. cbn. split; [lia | reflexivity]. }
    destruct (frames_loop this (reads (io_factory f)) l) as [[ev1 l1] x1] eqn:Hf.
    apply frames_loop_stops in Hf.
    destruct x1.
    + destruct (files_loop io_factory this fs l1) as [ev2 x2] eqn:Hr.
      injection H as <- <-. cbn [app stops_of]. rewrite stops_of_app, Hf.
      exact (IH _ _ _ Hr).
    + injection H as <- <-. cbn [app stops_of]. rewrite stops_of_app, Hf. cbn.
      split; [lia | exact I].
    + injection H as <- <-. cbn [app stops_of]. rewrite Hf. split; [lia | reflexivity].
    + injection H as <- <-. cbn [app stops_of]. rewrite Hf. split; [lia | reflexivity].
Qed.

(** X6. The end-of-stream mark of the reader: nothing is published after
    a call of [send_stop]; a reader that returns has called it once or
    twice, and its last effect is that call, or, after a caught error, its
    only such call followed by the two lines of the diagnostic; a reader
    that does not return has not called it. *)
Theorem reader_stop_discipline io_factory this :
  let ev := fst (reader_thread_body io_factory this) in
  (forall pre post, ev = pre ++ Channel_send_stop :: post -> sent_of post = [])
  /\ match snd (reader_thread_body io_factory this) with
     | Ok _ =>
       (1 <= stops_of ev <= 2)%nat
       /\ ((exists pre, ev = pre ++ [Channel_send_stop])
           \/ (stops_of ev = 1%nat
               /\ exists pre w,
                    ev = pre ++ [Channel_send_stop; Cout Reading_stopped; Cout (What w)]))
     | Undefined _ => stops_of ev = 0%nat
     end.
Proof.
  cbn zeta. split.
  - intros pre post E. pose proof (reader_orderly io_factory this) as H.
    rewrite E in H. exact (orderly_split _ _ H).
  - unfold reader_thread_body.
    destruct (files_loop io_factory this (TP.traj_files this) locals0) as [ev x] eqn:H.
    apply files_loop_stops in H. destruct H as [H1 H2].
    destruct x as [ | w | u]; cbn [fst snd].
    + rewrite stops_of_app. cbn. split; [lia | ]. left. now exists ev.
    + rewrite stops_of_app, H2. cbn. split; [lia | ]. right.
      split; [reflexivity | ]. now exists ev, w.
    + exact H2.
Qed.

(** ** Reader thread: the files it opens *)

Lemma opened_of_app ev1 ev2 : opened_of (ev1 ++ ev2) = opened_of ev1 ++ opened_of ev2.
Proof.
  induction ev1 as [ | e ev1 IH]; [reflexivity | ].
  destruct e; cbn; now rewrite IH.
Qed.

Lemma opens_nothing_opened_of ev : Forall opens_nothing ev -> opened_of ev = [].
Proof.
  induction 1 as [ | e ev He _ IH]; [reflexivity | ].
  destruct e; cbn; try exact IH. destruct He.
Qed.

Lemma frames_loop_opens_nothing this rs l ev l' x :
  frames_loop this rs l = (ev, l', x) -> opened_of ev = [].
Proof.
  intros H. apply opens_nothing_opened_of.
  apply (frames_loop_invariant this (fun _ => True) opens_nothing (fun _ => True))
    in H; [apply H | | intros; exact I | exact I].
  intros l0 fr0 ev0 l0' x0 _ _ Hb. split; [intros _; exact I | ].
  destruct (frame_body_shape _ _ _ _ _ _ Hb) as [-> | [tl [-> Htl]]]; [constructor | ].
  apply Forall_app. split; [apply Forall_log_loaded; intros; exact I | ].
  constructor; [exact I | ].
  destruct Htl as [-> | [-> | [l2 (-> & _ & _)]]]; repeat constructor.
Qed.

Lemma files_loop_opened io_factory this fs : forall l ev x,
  files_loop io_factory this fs l = (ev, x) ->
  exists k, opened_of ev = firstn k fs.
Proof.
  induction fs as [ | f fs IH]; intros l ev x H.
  - injection H as <- <-. now exists 0%nat.
  - cbn [files_loop] in H.
    destruct (open_throws (io_factory f)).
    { injection H as <- <-. now exists 1%nat. }
    destruct (frames_loop this (reads (io_factory f)) l) as [[ev1 l1] x1] eqn:Hf.
    apply frames_loop_opens_nothing in Hf.
    destruct x1.
    + destruct (files_loop io_factory this fs l1) as [ev2 x2] eqn:Hr.
      injection H as <- <-. destruct (IH _ _ _ Hr) as [k Hk]. exists (S k).
      cbn [app opened_of firstn]. now rewrite opened_of_app, Hf, <- Hk.
    + injection H as <- <-. exists 1%nat.
      cbn [app opened_of firstn]. now rewrite opened_of_app, Hf.
    + injection H as <- <-. exists 1%nat. cbn [app opened_of firstn]. now rewrite Hf.
    + injection H as <- <-. exists 1%nat. cbn [app opened_of firstn]. now rewrite Hf.
Qed.

Lemma reader_opens_prefix io_factory this :
  exists k, opened_of (fst (reader_thread_body io_factory this))
            = firstn k (TP.traj_files this).
Proof.
  unfold reader_thread_body.
  destruct (files_loop io_factory this (TP.traj_files this) locals0) as [ev x] eqn:H.
  destruct (files_loop_opened _ _ _ _ _ _ H) as [k Hk]. exists k.
  destruct x; cbn [fst]; try exact Hk; now rewrite opened_of_app, app_nil_r.
Qed.

(** X7. The reader opens the trajectory files in the order of the list,
    each at most once and none out of turn: the names it hands to
    [io_factory] are the first so many of [traj_files]. *)
Theorem files_opened_in_order io_factory this :
  exists k, opened_of (fst (reader_thread_body io_factory this))
            = firstn k (TP.traj_files this).
Proof. apply reader_opens_prefix. Qed.

(** ** Reader thread: the log interval *)

Lemma quiet_app ev1 ev2 : quiet (ev1 ++ ev2) = quiet ev1 ++ quiet ev2.
Proof. apply filter_app. Qed.

Lemma quiet_log this a : quiet (log_loaded this a) = [].
Proof. unfold log_loaded. now destruct (_ && _). Qed.

Lemma frame_body_log_interval n this l fr0 :
  let r := frame_body this l fr0 in
  let r' := frame_body (with_log_interval n this) l fr0 in
  quiet (fst (fst r')) = quiet (fst (fst r))
  /\ snd (fst r') = snd (fst r) /\ snd r' = snd r.
Proof.
  cbn zeta. unfold frame_body.
  change (frame_time (with_log_interval n this)) with (frame_time this).
  change (is_end_of_interval (with_log_interval n this))
    with (is_end_of_interval this).
  change (is_frame_valid (with_log_interval n this)) with (is_frame_valid this).
  change (fill (with_log_interval n this)) with (fill this).
  destruct (int_incr (abs_frame l)) as [abs | u]; [ | now repeat split].
  destruct (is_end_of_interval _ _ _).
  { cbn [fst snd]. rewrite !quiet_app, !quiet_log. now repeat split. }
  destruct (is_frame_valid _ _ _) as [[ | ] | u].
  - destruct (int_incr _) as [valid | u]; cbn [fst snd];
      rewrite !quiet_app, !quiet_log; now repeat split.
  - cbn [fst snd]. rewrite !quiet_app, !quiet_log. now repeat split.
  - cbn [fst snd]. rewrite !quiet_app, !quiet_log. now repeat split.
Qed.

Lemma frames_loop_log_interval n this rs : forall l,
  let r := frames_loop this rs l in
  let r' := frames_loop (with_log_interval n this) rs l in
  quiet (fst (fst r')) = quiet (fst (fst r))
  /\ snd (fst r') = snd (fst r) /\ snd r' = snd r.
Proof.
  cbn zeta. induction rs as [ | r rs IH]; intros l; [now repeat split | ].
  destruct r as [fr | w]; [ | now repeat split].
  cbn [frames_loop].
  destruct (frame_body_log_interval n this l fr) as (Hq & Hl & Hx).
  destruct (frame_body this l fr) as [[ev1 l1] x1].
  destruct (frame_body (with_log_interval n this) l fr) as [[ev1' l1'] x1'].
  cbn [fst snd] in Hq, Hl, Hx. subst l1' x1'.
  destruct x1; try (cbn [fst snd]; now repeat split).
  specialize (IH l1).
  destruct (frames_loop this rs l1) as [[ev2 l2] x2].
  destruct (frames_loop (with_log_interval n this) rs l1) as [[ev2' l2'] x2'].
  cbn [fst snd] in IH |- *. destruct IH as (Hq2 & Hl2 & Hx2).
  rewrite !quiet_app, Hq, Hq2. now repeat split.
Qed.

Lemma files_loop_log_interval io_factory n this fs : forall l,
  let r := files_loop io_factory this fs l in
  let r' := files_loop io_factory (with_log_interval n this) fs l in
  quiet (fst r') = quiet (fst r) /\ snd r' = snd r.
Proof.
  cbn zeta. induction fs as [ | f fs IH]; intros l; [now split | ].
  cbn [files_loop].
  destruct (open_throws (io_factory f)); [now split | ].
  destruct (frames_loop_log_interval n this (reads (io_factory f)) l) as (Hq & Hl & Hx).
  destruct (frames_loop this (reads (io_factory f)) l) as [[ev1 l1] x1].
  destruct (frames_loop (with_log_interval n this) (reads (io_factory f)) l)
    as [[ev1' l1'] x1'].
  cbn [fst snd] in Hq, Hl, Hx. subst l1' x1'.
  destruct x1.
  - specialize (IH l1).
    destruct (files_loop io_factory this fs l1) as [ev2 x2].
    destruct (files_loop io_factory (with_log_interval n this) fs l1) as [ev2' x2'].
    cbn [fst snd] in IH |- *. destruct IH as [Hq2 Hx2].
    cbn [app quiet filter]. rewrite !quiet_app, Hq. cbn [app quiet filter].
    fold (quiet ev2). fold (quiet ev2'). now rewrite Hq2.
  - cbn [fst snd app quiet filter]. now rewrite !quiet_app, Hq.
  - cbn [fst snd app quiet filter]. fold (quiet ev1). fold (quiet ev1'). now rewrite Hq.
  - cbn [fst snd app quiet filter]. fold (quiet ev1). fold (quiet ev1'). now rewrite Hq.
Qed.

(** X8. The log interval decides only which "Loaded frame" lines are
    written: with any other value the reader performs the same effects
    but for those lines, publishes the same containers, and returns or
    not as before. *)
Theorem log_interval_only_logs io_factory n this :
  let r := reader_thread_body io_factory this in
  let r' := reader_thread_body io_factory (with_log_interval n this) in
  quiet (fst r') = quiet (fst r)
  /\ sent_of (fst r') = sent_of (fst r)
  /\ loaded_of (fst r') = loaded_of (fst r)
  /\ snd r' = snd r.
Proof.
  cbn zeta.
  assert (Hs : forall ev, sent_of (quiet ev) = sent_of ev).
  { unfold quiet. induction ev as [ | e ev IH]; [reflexivity | ].
    destruct e as [[] | | | | ]; cbn [filter sent_of loaded_of]; now rewrite ?IH. }
  assert (Hl : forall ev, loaded_of (quiet ev) = loaded_of ev).
  { unfold quiet. induction ev as [ | e ev IH]; [reflexivity | ].
    destruct e as [[] | | | | ]; cbn [filter sent_of loaded_of]; now rewrite ?IH. }
  assert (Hq : quiet (fst (reader_thread_body io_factory (with_log_interval n this)))
               = quiet (fst (reader_thread_body io_factory this))
               /\ snd (reader_thread_body io_factory (with_log_interval n this))
                  = snd (reader_thread_body io_factory this)).
  { unfold reader_thread_body.
    change (TP.traj_files (with_log_interval n this)) with (TP.traj_files this).
    destruct (files_loop_log_interval io_factory n this (TP.traj_files this) locals0)
      as [Hq Hx].
    destruct (files_loop io_factory this (TP.traj_files this) locals0) as [ev x].
    destruct (files_loop io_factory (with_log_interval n this) (TP.traj_files this)
                locals0) as [ev' x'].
    cbn [fst snd] in Hq, Hx. subst x'.
    destruct x; cbn [fst snd]; rewrite ?quiet_app, ?Hq; now split. }
  destruct Hq as [Hq Hx]. split; [exact Hq | ].
  split; [now rewrite <- Hs, Hq, Hs | ].
  split; [now rewrite <- Hl, Hq, Hl | exact Hx].
Qed.

(** ** Reader thread: the frames it passes on *)

Lemma set_t_same fr : set_t fr (t fr) = fr.
Proof. now destruct fr. Qed.

Lemma from_disk_set_t io_factory this a fr0 :
  on_disk io_factory this fr0 ->
  from_disk io_factory this (set_t fr0 (frame_time this a fr0)).
Proof.
  intros H. exists fr0. split; [exact H | ]. split; [reflexivity | ].
  intros Hdt. unfold frame_time. rewrite Hdt. apply set_t_same.
Qed.

(** X9. The reader never alters the coordinates of a frame and never
    makes one up: every frame it reads on and every frame it publishes
    has the coordinates of a frame one of the trajectory files yields,
    and without a time override it is that frame, time stamp included. *)
Theorem frames_passed_unchanged io_factory this :
  let ev := fst (reader_thread_body io_factory this) in
  (forall a fr, In (a, fr) (loaded_of ev) -> from_disk io_factory this fr)
  /\ (forall d, In d (sent_of ev) -> from_disk io_factory this (frame d)).
Proof.
  cbn zeta.
  assert (H : Forall (frames_from_disk io_factory this)
                (fst (reader_thread_body io_factory this))).
  { apply (reader_invariant io_factory this (fun _ => True)); try (intros; exact I).
    intros l fr0 ev l' x _ Hd Hb. split; [intros _; exact I | ].
    destruct (frame_body_shape _ _ _ _ _ _ Hb) as [-> | [tl [-> Htl]]]; [constructor | ].
    apply Forall_app. split; [apply Forall_log_loaded; intros; exact I | ].
    constructor; [now apply from_disk_set_t | ].
    destruct Htl as [-> | [-> | [l2 (-> & _ & _)]]]; repeat constructor.
    now apply from_disk_set_t. }
  rewrite Forall_forall in H. split.
  - intros a fr Hin. exact (H _ (in_loaded_of _ _ _ Hin)).
  - intros d Hin. exact (H _ (in_sent_of _ _ Hin)).
Qed.

(** ** Reader thread: how far it reads *)

Lemma frame_body_read_within this l fr0 ev l' x :
  0 <= TP.last_frame this ->
  abs_frame l <= TP.last_frame this ->
  frame_body this l fr0 = (ev, l', x) ->
  (x = Continue -> abs_frame l' <= TP.last_frame this)
  /\ Forall (read_within this) ev.
Proof.
  intros Hlast Ha. unfold frame_body. intros H.
  destruct (int_incr (abs_frame l)) as [abs | u] eqn:Habs.
  2:{ injection H as <- <- <-. split; [discriminate | constructor]. }
  apply int_incr_ok in Habs. destruct Habs as [-> _].
  assert (Hev : forall tl, Forall (read_within this) tl ->
            Forall (read_within this)
              (log_loaded this (abs_frame l + 1)
               ++ Loaded (abs_frame l + 1)
                    (set_t fr0 (frame_time this (abs_frame l + 1) fr0)) :: tl)).
  { intros tl Htl. apply Forall_app. split; [apply Forall_log_loaded; intros; exact I | ].
    constructor; [cbn; lia | exact Htl]. }
  destruct (is_end_of_interval _ _ _) eqn:Hend.
  { injection H as <- <- <-. split; [discriminate | ]. apply Hev. repeat constructor. }
  assert (Hin : abs_frame l + 1 <= TP.last_frame this).
  { unfold is_end_of_interval in Hend. apply orb_false_iff in Hend.
    destruct Hend as [Hend _]. apply andb_false_iff in Hend.
    destruct Hend as [Hend | Hend]; lia. }
  destruct (is_frame_valid _ _ _) as [[ | ] | u].
  - destruct (int_incr _) as [valid | u]; injection H as <- <- <-.
    + split; [intros _; now destruct (valid =? 0) | ].
      apply Hev. repeat constructor.
    + split; [discriminate | ]. apply Hev. constructor.
  - injection H as <- <- <-. split; [intros _; exact Hin | ]. apply Hev. constructor.
  - injection H as <- <- <-. split; [discriminate | ]. apply Hev. constructor.
Qed.

Lemma zseq_In_last n : forall a, In (a + Z.of_nat n) (zseq a (S n)).
Proof.
  induction n as [ | n IH]; intros a.
  - left. lia.
  - right. replace (a + Z.of_nat (S n)) with (a + 1 + Z.of_nat n) by lia. apply IH.
Qed.

Lemma published_ordinal_below io_factory this d :
  In d (sent_of (fst (reader_thread_body io_factory this))) ->
  valid_frame (frame_info d)
  <= absolute_frame (frame_info d) - Z.max 0 (TP.first_frame this).
Proof.
  revert d.
  apply (published_invariant io_factory this
           (fun l => -1 <= abs_frame l
                     /\ l_valid_frame l
                        <= Z.max (-1) (abs_frame l - Z.max 0 (TP.first_frame this)))
           (fun d => valid_frame (frame_info d)
                     <= absolute_frame (frame_info d)
                        - Z.max 0 (TP.first_frame this))).
  2:{ cbn [abs_frame l_valid_frame locals0]. lia. }
  intros l fr0 ev l' x [Ha Hv] _ Hb.
  destruct (frame_body_cases _ _ _ _ _ _ Hb) as [[Hs Hc] | (Hx & _ & Hval & Ea & Ev & Hs)].
  - split; [ | rewrite Hs; intros d0 []].
    intros Hx. destruct (Hc Hx) as (_ & Ea & Ev). lia.
  - assert (Hfirst : TP.first_frame this < 0
                     \/ TP.first_frame this <= abs_frame l + 1).
    { unfold is_frame_valid, and_then in Hval.
      destruct ((TP.first_frame this <? 0) || (abs_frame l + 1 >=? TP.first_frame this))
        eqn:H1; [ | discriminate Hval].
      apply orb_true_iff in H1. destruct H1 as [H1 | H1]; lia. }
    assert (E : l_valid_frame l' <= abs_frame l' - Z.max 0 (TP.first_frame this))
      by lia.
    split; [intros _; lia | ].
    rewrite Hs. intros d0 [<- | []].
    cbn [fill frame_info absolute_frame valid_frame]. exact E.
Qed.

(** X19. The ordinal of a container never runs ahead of the frames read:
    whatever the filter, the valid-frame ordinal of a container published
    is at most its absolute index less [first_frame], or less 0 where
    that is unset. *)
Theorem ordinal_at_most_offset io_factory this d :
  In d (sent_of (fst (reader_thread_body io_factory this))) ->
  0 <= valid_frame (frame_info d)
       <= absolute_frame (frame_info d) - Z.max 0 (TP.first_frame this).
Proof.
  intros Hin. split; [ | exact (published_ordinal_below _ _ _ Hin)].
  destruct (reader_counted io_factory this) as [l' (_ & V & _)].
  apply (in_map (fun d => valid_frame (frame_info d))) in Hin.
  rewrite V in Hin. apply zseq_above in Hin. cbn in Hin. lia.
Qed.

(** X20. With a last frame set the reader reads at most one frame past
    it, and publishes no more containers than the range has frames: the
    frames read are at most [last_frame + 2], the containers at most
    [last_frame + 1] less [first_frame] where that is set. *)
Theorem reading_bounded_by_last_frame io_factory this :
  0 <= TP.last_frame this ->
  let ev := fst (reader_thread_body io_factory this) in
  Z.of_nat (List.length (loaded_of ev)) <= TP.last_frame this + 2
  /\ Z.of_nat (List.length (sent_of ev))
     <= Z.max 0 (TP.last_frame this + 1 - Z.max 0 (TP.first_frame this)).
Proof.
  intros Hlast. cbn zeta.
  destruct (reader_counted io_factory this) as [l' (A & V & _)].
  cbn [abs_frame l_valid_frame locals0] in A, V. change (-1 + 1) with 0 in A, V.
  split.
  - assert (H : Forall (read_within this) (fst (reader_thread_body io_factory this))).
    { apply (reader_invariant io_factory this
               (fun l => abs_frame l <= TP.last_frame this));
        try (intros; exact I); [ | cbn; lia].
      intros l fr0 ev l1 x Ha _ Hb.
      exact (frame_body_read_within _ _ _ _ _ _ Hlast Ha Hb). }
    destruct (List.length (loaded_of (fst (reader_thread_body io_factory this))))
      as [ | n] eqn:En; [lia | ].
    pose proof (zseq_In_last n 0) as Hin. rewrite <- A in Hin.
    apply in_map_iff in Hin. destruct Hin as [[a fr] [Ea Hin]]. cbn [fst] in Ea.
    apply in_loaded_of in Hin. rewrite Forall_forall in H.
    specialize (H _ Hin). cbn in H. lia.
  - destruct (List.length (sent_of (fst (reader_thread_body io_factory this))))
      as [ | n] eqn:En; [lia | ].
    pose proof (zseq_In_last n 0) as Hin. rewrite <- V in Hin.
    apply in_map_iff in Hin. destruct Hin as [d [Ed Hin]].
    pose proof (published_ordinal_below _ _ _ Hin) as Hord.
    pose proof (published_accepted _ _ _ Hin) as Hacc.
    unfold accepted, key_of in Hacc. cbn [fst snd] in Hacc.
    apply andb_true_iff in Hacc. destruct Hacc as [Hend _].
    apply negb_true_iff in Hend. unfold is_end_of_interval in Hend.
    apply orb_false_iff in Hend. destruct Hend as [Hend _].
    apply andb_false_iff in Hend. destruct Hend as [Hend | Hend]; lia.
Qed.

(** ** [run]: the files of the command line *)

(** X10. What the sorting of the command line's files yields when it
    does not throw: the trajectory files are those of a trajectory format
    in the order given; the structure file is the one named file of a
    structure format, or empty when there is none, and likewise the
    topology file. *)
Theorem sort_files_result recognize_format values sf tf traj :
  sort_files recognize_format values EmptyString EmptyString [] = inr (sf, tf, traj) ->
  traj = of_class recognize_format is_trajectory values
  /\ named_of_class recognize_format is_structure values = kept sf
  /\ named_of_class recognize_format is_topology values = kept tf.
Proof.
  intros H. apply sort_files_sorted in H. exact H.
Qed.

(** ** [run]: its errors *)

Lemma check_range_error this e :
  check_range this = Some e ->
  match e with
  | Last_frame_smaller last first =>
    last = TP.last_frame this /\ first = TP.first_frame this /\ 0 <= last < first
  | Last_time_smaller last first =>
    last = TP.last_time this /\ first = TP.first_time this
    /\ fge first f0 = true /\ fge last f0 = true /\ flt last first = true
  | _ => False
  end.
Proof.
  unfold check_range.
  destruct ((TP.first_frame this >=? 0) && (TP.last_frame this >=? 0)
            && (TP.last_frame this <? TP.first_frame this)) eqn:Hf.
  { intros H. injection H as <-.
    apply andb_true_iff in Hf. destruct Hf as [Hf H3].
    apply andb_true_iff in Hf. destruct Hf as [H1 H2]. repeat split; lia. }
  destruct (fge (TP.first_time this) f0 && fge (TP.last_time this) f0
            && flt (TP.last_time this) (TP.first_time this)) eqn:Ht; [ | discriminate].
  intros H. injection H as <-.
  apply andb_true_iff in Ht. destruct Ht as [Ht H3].
  apply andb_true_iff in Ht. destruct Ht as [H1 H2]. now repeat split.
Qed.

(** X11. Every error that leaves the sequential part of [run], before
    the reader thread is started, has its reason: "no consumers" with none
    registered, "only one structure file" and "only one topology file"
    with two or more files of such a format on the command line, "no
    trajectory file" with none of a trajectory format, the two range
    errors with both bounds given and the last below the first, naming
    the two bounds, and an error from [sys1->load] with a load of the
    named structure file or of the named topology file that throws it. *)
Theorem run_error_reason
  recognize_format load_throws io_factory log_interval consumers options e :
  snd (run recognize_format load_throws io_factory log_interval consumers options)
  = inl e ->
  error_condition recognize_format load_throws consumers options e.
Proof.
  unfold run, run_prologue.
  destruct consumers as [ | c cs].
  { intros H. injection H as <-. reflexivity. }
  destruct (sort_files recognize_format (trajectory options) EmptyString EmptyString [])
    as [e0 | [[sf tf] traj]] eqn:Hsort.
  { intros H. injection H as <-. apply sort_files_error in Hsort.
    destruct e0; try contradiction; exact Hsort. }
  apply sort_files_sorted in Hsort. destruct Hsort as (Ht & Hsf & Htf).
  cbn [app] in Ht. cbn [nonempty String.eqb negb] in Hsf, Htf.
  destruct traj as [ | f fs].
  { intros H. injection H as <-. cbn. now symmetry. }
  pose proof (load_system_result load_throws sf tf) as Hl.
  destruct (load_system load_throws sf tf) as [ev_load [e1 | sys1]].
  { destruct Hl as [[w [sys [file (-> & Hin & Hw)]]] _]. intros H. injection H as <-.
    exists sys, file. rewrite Hsf, Htf. now split. }
  destruct (check_range _) as [e1 | ] eqn:Hr; [ | discriminate].
  intros H. injection H as <-. apply check_range_error in Hr.
  destruct e1; try contradiction; exact Hr.
Qed.

(** ** [run]: the time override it hands to the reader *)

Lemma f0_value : f0 = S754_zero false.
Proof. vm_compute. reflexivity. Qed.

Lemma fm1_value : fm1 = S754_finite true 8388608 (-23).
Proof. vm_compute. reflexivity. Qed.

Lemma not_negative_is_not_unset x : fge x f0 = true -> feq x fm1 = false.
Proof.
  unfold fge, feq, SFleb, SFeqb. rewrite f0_value, fm1_value.
  destruct x as [s | s | | s m e]; try destruct s; cbn [SFcompare]; congruence.
Qed.

(** X12. The time override as [run] completes it: a start time alone
    gets the step 1, a step alone gets the start time 0, neither of them
    leaves the frames' own times in force, and whenever the override is
    in force the start time is not the value that stands for "unset". *)
Theorem custom_time_defaults options log_interval traj_files :
  let this := get_parameters options log_interval traj_files in
  (fge (TP.custom_dt this) f0 = true -> feq (TP.custom_start_time this) fm1 = false)
  /\ (forall start, o_custom_start_time options = Some start ->
        o_custom_dt options = None -> fge start f0 = true ->
        TP.custom_start_time this = start /\ TP.custom_dt this = float_of_int 1)
  /\ (forall dt, o_custom_dt options = Some dt ->
        o_custom_start_time options = None -> fge dt f0 = true ->
        TP.custom_start_time this = f0 /\ TP.custom_dt this = dt)
  /\ (o_custom_start_time options = None -> o_custom_dt options = None ->
      fge (TP.custom_dt this) f0 = false).
Proof.
  cbn zeta. unfold get_parameters. cbn [TP.custom_dt TP.custom_start_time].
  assert (E1 : feq fm1 fm1 = true) by (vm_compute; reflexivity).
  assert (E2 : fge fm1 f0 = false) by (vm_compute; reflexivity).
  assert (E3 : feq f0 fm1 = false) by (vm_compute; reflexivity).
  assert (E4 : fge (float_of_int 1) f0 = true) by (vm_compute; reflexivity).
  split; [ | split; [ | split]].
  - destruct (feq (get_value (o_custom_start_time options) fm1) fm1) eqn:Hs;
      cbn [andb]; [ | intros _; exact Hs].
    intros Hd. rewrite Hd. exact E3.
  - intros start Hs Hd Hge. rewrite Hs, Hd. cbn [get_value].
    rewrite Hge, E1. cbn [andb]. rewrite (not_negative_is_not_unset _ Hge).
    cbn [andb]. split; reflexivity.
  - intros dt Hd Hs Hge. rewrite Hs, Hd. cbn [get_value].
    rewrite E2, E1. cbn [andb]. rewrite Hge. split; reflexivity.
  - intros Hs Hd. rewrite Hs, Hd. cbn [get_value]. rewrite E2. cbn [andb]. exact E2.
Qed.

(** ** [run] and the reader *)

(** X13. A run that starts streaming has its reader open files of a
    trajectory format only, in the order of the command line: the names
    handed to [io_factory] are the first so many of the trajectory files
    given. *)
Theorem run_opens_trajectories_in_order
  recognize_format load_throws io_factory log_interval consumers options s :
  snd (run recognize_format load_throws io_factory log_interval consumers options)
  = inr s ->
  exists k, opened_of (reader s)
            = firstn k (of_class recognize_format is_trajectory (trajectory options)).
Proof.
  unfold run, run_prologue.
  destruct consumers as [ | c cs]; [discriminate | ].
  destruct (sort_files recognize_format (trajectory options) EmptyString EmptyString [])
    as [e0 | [[sf tf] traj]] eqn:Hsort; [discriminate | ].
  apply sort_files_sorted in Hsort. destruct Hsort as (Ht & _). cbn [app] in Ht.
  destruct traj as [ | f fs]; [discriminate | ].
  destruct (load_system load_throws sf tf) as [ev_load [e1 | sys1]]; [discriminate | ].
  destruct (check_range _) as [e1 | ]; [discriminate | ].
  cbn [snd]. intros H. injection H as <-.
  unfold start, initial. cbn [reader s_this fst].
  destruct (reader_opens_prefix io_factory
              (get_parameters options log_interval (f :: fs))) as [k Hk].
  exists k. rewrite Hk. cbn [get_parameters TP.traj_files]. now rewrite Ht.
Qed.

(** ** [run]: the systems of the consumers *)

Lemma loads_of_app ev1 ev2 : loads_of (ev1 ++ ev2) = loads_of ev1 ++ loads_of ev2.
Proof.
  induction ev1 as [ | e ev1 IH]; [reflexivity | ].
  destruct e; cbn; now rewrite IH.
Qed.

Lemma loads_of_copy_system n : loads_of (copy_system n) = [].
Proof.
  unfold copy_system. destruct (1 <? n)%nat; [ | reflexivity].
  induction (seq 1 (n - 1)) as [ | i l IH]; [reflexivity | exact IH].
Qed.

Lemma loads_of_loading_events files : loads_of (loading_events files) = files.
Proof.
  unfold loading_events. destruct files as [ | f l]; [reflexivity | ].
  induction (f :: l) as [ | x r IH]; [reflexivity | ]. cbn. now rewrite IH.
Qed.

(** X21. What a run that starts streaming has loaded: the named
    structure file and then the named topology file of the command line,
    whichever are given and in whatever order they were given, each
    once, into the system of the first consumer; and every consumer's
    system holds just that. *)
Theorem run_loads_structure_then_topology
  recognize_format load_throws log_interval consumers options ev st :
  run_prologue recognize_format load_throws log_interval consumers options
  = (ev, inr st) ->
  let files :=
    named_of_class recognize_format is_structure (trajectory options)
    ++ named_of_class recognize_format is_topology (trajectory options) in
  loads_of ev = files
  /\ s_systems st = repeat files (List.length consumers).
Proof.
  unfold run_prologue. cbn zeta.
  destruct consumers as [ | c cs]; [discriminate | ].
  destruct (sort_files recognize_format (trajectory options) EmptyString EmptyString [])
    as [e0 | [[sf tf] traj]] eqn:Hsort; [discriminate | ].
  apply sort_files_sorted in Hsort. destruct Hsort as (_ & Hs & Ht).
  cbn [nonempty String.eqb negb] in Hs, Ht. rewrite Hs, Ht.
  destruct traj as [ | f fs]; [discriminate | ].
  pose proof (load_system_result load_throws sf tf) as Hl.
  destruct (load_system load_throws sf tf) as [ev_load [e1 | sys1]]; [discriminate | ].
  destruct Hl as [Hsys Hl].
  destruct (check_range _) as [e1 | ]; [discriminate | ].
  intros H. injection H as <- <-. cbn [s_systems]. split.
  - rewrite !loads_of_app. cbn [loads_of].
    rewrite loads_of_app, loads_of_copy_system, Hl, loads_of_loading_events,
      !app_nil_r.
    now destruct (nonempty (get_value (dump_input options) EmptyString)).
  - rewrite Hsys. cbn [List.length repeat]. now rewrite map_const.
Qed.

(** ** Registration of consumers *)

Lemma add_consumers_from ps : forall m,
  Registration.consumers (Registration.add_consumers ps m)
  = Registration.consumers m ++ ps
  /\ Registration.set_id_calls (Registration.add_consumers ps m)
     = Registration.set_id_calls m
       ++ combine ps (zseq (Z.of_nat (List.length (Registration.consumers m)))
                        (List.length ps)).
Proof.
  unfold Registration.add_consumers.
  induction ps as [ | p ps IH]; intros m.
  - cbn. now rewrite !app_nil_r.
  - cbn [fold_left]. destruct (IH (Registration.add_consumer p m)) as [Hc Hs].
    rewrite Hc, Hs. cbn [Registration.add_consumer Registration.consumers
                         Registration.set_id_calls List.length combine zseq].
    rewrite last_last, length_app, <- !app_assoc. cbn [List.length app].
    split; [reflexivity | ].
    replace (Z.of_nat (List.length (Registration.consumers m) + 1))
      with (Z.of_nat (List.length (Registration.consumers m)) + 1) by lia.
    do 3 f_equal. lia.
Qed.

(** X14. Registration numbers the consumers by position: after any
    number of calls of [add_consumer] on a processor without consumers,
    the vector holds the consumers in the order of the calls, and each
    was told by [set_id] its index in the vector, 0 for the first. *)
Theorem add_consumer_numbers_by_position ps :
  let m := Registration.add_consumers ps Registration.none in
  Registration.consumers m = ps
  /\ Registration.set_id_calls m = combine ps (zseq 0 (List.length ps)).
Proof.
  cbn zeta. destruct (add_consumers_from ps Registration.none) as [Hc Hs].
  now rewrite Hc, Hs.
Qed.

(** ** Threads of [run]: the joins *)

Lemma replace_nth_nil {A} i (x : A) : replace_nth i x [] = [].
Proof. now destruct i. Qed.

Lemma joins_ok_initial n buf_size ev ret :
  joins_ok ret (initial n buf_size ev ret).
Proof.
  unfold joins_ok, initial. cbn [reader_returns size workers pc].
  split; [reflexivity | ]. split; [intros H; now rewrite H | ].
  split; [intros [H | H] | intros H]; destruct (1 <? n)%nat; discriminate H.
Qed.

Lemma step_reader_keeps s s' :
  step_reader s = Some s' ->
  reader s <> [] /\ pc s' = pc s /\ workers s' = workers s
  /\ size s' = size s /\ reader_returns s' = reader_returns s.
Proof.
  unfold step_reader. intros H.
  destruct (reader s) as [ | e rest]; [discriminate H | ].
  split; [discriminate | ].
  destruct e; try (injection H as <-; now repeat split).
  destruct (send _ _); [injection H as <-; now repeat split | discriminate H].
Qed.

Lemma step_worker_not_returned w w' :
  step_worker w = Some w' -> worker_returned w = false.
Proof.
  unfold step_worker, worker_returned. destruct (w_pc w); try reflexivity. discriminate.
Qed.

Ltac main_cases H :=
  repeat match type of H with
         | context [match ?x with _ => _ end] => destruct x eqn:?
         end;
  try discriminate H; injection H as <-.

Lemma joins_ok_step ret th s s' :
  joins_ok ret s -> step th s = Some s' -> joins_ok ret s'.
Proof.
  intros (Hret & Hw & Hj & Hf) H. destruct th as [ | | i]; cbn [step] in H.
  - apply step_reader_keeps in H. destruct H as (Hne & Hpc & Hws & Hsz & Hrr).
    unfold joins_ok. rewrite Hpc, Hws, Hsz, Hrr.
    split; [exact Hret | ]. split; [exact Hw | ].
    assert (Hno : pc s = Join_workers \/ pc s = Run_finished -> False).
    { intros Hp. specialize (Hj Hp). unfold reader_joined in Hj.
      destruct (reader s); [now apply Hne | discriminate Hj]. }
    split; [intros Hp; now destruct (Hno Hp) | ].
    intros Hp. destruct (Hno (or_intror Hp)).
  - unfold step_main, foreach_send in H.
    destruct (pc s) eqn:Hpc; main_cases H;
      unfold joins_ok, set_pc, set_main, set_worker, reader_joined;
      cbn [pc workers reader reader_returns size];
      (split; [exact Hret | ]);
      (split; [intros Hs;
               first [rewrite (Hw Hs)
                     | rewrite Hs in *; first [discriminate | rewrite (Hw eq_refl)]];
               now rewrite ?replace_nth_nil | ]);
      try (split; [intros [E | E]; discriminate E | intros E; discriminate E]).
    + unfold reader_joined in Heqb. split; [intros _; exact Heqb | discriminate].
    + unfold reader_joined in Heqb.
      split; [intros _; exact Heqb | intros _; now rewrite (Hw eq_refl)].
    + unfold reader_joined in Hj.
      split; [intros _; apply Hj; now left | intros _; assumption].
  - destruct (nth_error (workers s) i) as [w | ] eqn:Hi; [ | discriminate H].
    destruct (step_worker w) as [w' | ] eqn:Hstep; [ | discriminate H].
    injection H as <-. apply step_worker_not_returned in Hstep.
    unfold joins_ok, set_worker, reader_joined.
    cbn [pc workers reader reader_returns size].
    split; [exact Hret | ].
    split; [intros Hs; rewrite (Hw Hs) in Hi; now destruct i | ].
    split; [exact Hj | ].
    intros Hp. specialize (Hf Hp). rewrite forallb_forall in Hf.
    rewrite (Hf w (nth_error_In _ _ Hi)) in Hstep. discriminate Hstep.
Qed.

Lemma joins_ok_reachable n buf_size ev ret s :
  reachable (initial n buf_size ev ret) s -> joins_ok ret s.
Proof.
  induction 1 as [ | s th s' _ IH Hstep]; [apply joins_ok_initial | ].
  exact (joins_ok_step _ _ _ _ IH Hstep).
Qed.

(** X15. [run] ends only after its joins: in a state in which [run] has
    returned, under any interleaving of the threads, the reader thread has
    performed all its effects and returned, and every worker thread has
    returned; a reader thread that does not return keeps [run] from
    returning. *)
Theorem run_finishes_after_joins n buf_size ev ret s :
  reachable (initial n buf_size ev ret) s ->
  pc s = Run_finished ->
  reader s = [] /\ ret = Ok tt
  /\ Forall (fun w => w_pc w = W_returned) (workers s).
Proof.
  intros Hreach Hpc.
  destruct (joins_ok_reachable _ _ _ _ _ Hreach) as (Hret & _ & Hj & Hf).
  specialize (Hj (or_intror Hpc)). specialize (Hf Hpc).
  unfold reader_joined in Hj. rewrite Hret in Hj.
  destruct (reader s); [ | discriminate Hj].
  destruct ret as [[] | u]; [ | discriminate Hj].
  split; [reflexivity | ]. split; [reflexivity | ].
  rewrite forallb_forall in Hf. apply Forall_forall. intros w Hin.
  specialize (Hf w Hin). unfold worker_returned in Hf.
  destruct (w_pc w); (reflexivity || discriminate Hf).
Qed.

(** ** Threads of [run]: the calls on the one consumer *)

Lemma step_keeps_log0 th s s' :
  th <> Main -> step th s = Some s' -> pc s' = pc s /\ log0 s' = log0 s.
Proof.
  intros Hth H. destruct th as [ | | i]; [ | now destruct Hth | ]; cbn [step] in H.
  - unfold step_reader in H. destruct (reader s) as [ | e rest]; [discriminate H | ].
    destruct e; try (injection H as <-; now split).
    destruct (send _ _); [injection H as <-; now split | discriminate H].
  - destruct (nth_error (workers s) i) as [w | ]; [ | discriminate H].
    destruct (step_worker w) as [w' | ]; [ | discriminate H].
    injection H as <-. now split.
Qed.

Lemma hooks_in_order_step th s s' :
  hooks_in_order s -> step th s = Some s' -> hooks_in_order s'.
Proof.
  intros Hh H. destruct th as [ | | i].
  - apply step_keeps_log0 in H; [ | discriminate]. destruct H as [Hpc Hlog].
    unfold hooks_in_order. now rewrite Hpc, Hlog.
  - cbn [step] in H. unfold hooks_in_order in *. unfold step_main, foreach_send in H.
    destruct (pc s) eqn:Hpc; try contradiction; main_cases H;
      unfold set_pc, set_main; cbn [pc log0]; try exact Hh.
    + rewrite Hh. now exists [].
    + destruct Hh as [tk ->]. rewrite streamed_snoc. now eexists.
    + destruct Hh as [tk ->]. rewrite streamed_snoc. now eexists.
    + destruct Hh as [tk ->]. rewrite streamed_snoc. now eexists.
    + destruct Hh as [tk ->]. now exists tk, (frame_info d).
  - apply step_keeps_log0 in H; [ | discriminate]. destruct H as [Hpc Hlog].
    unfold hooks_in_order. now rewrite Hpc, Hlog.
Qed.

(** X16. With one consumer, [run] makes its calls on the consumer in
    order, under any interleaving with the reader: nothing before
    [pre_process], then [pre_process] once and calls of [consume_frame]
    only, and [post_process] once, as the last call, before [run] waits
    for the reader; [run] never enters the fan-out. *)
Theorem single_consumer_hooks_in_order n buf_size ev ret s :
  (n <= 1)%nat ->
  reachable (initial n buf_size ev ret) s ->
  hooks_in_order s.
Proof.
  intros Hn. induction 1 as [ | s th s' _ IH Hstep].
  - unfold hooks_in_order, initial. cbn [pc log0].
    destruct (Nat.ltb_spec 1 n); [lia | reflexivity].
  - exact (hooks_in_order_step _ _ _ IH Hstep).
Qed.

Lemma fan_out_step th s s' :
  in_fan_out (pc s) = true /\ log0 s = [] ->
  step th s = Some s' ->
  in_fan_out (pc s') = true /\ log0 s' = [].
Proof.
  intros [Hp Hl] H. destruct th as [ | | i].
  - apply step_keeps_log0 in H; [ | discriminate]. destruct H as [Hpc Hlog].
    now rewrite Hpc, Hlog.
  - cbn [step] in H. unfold step_main, foreach_send in H.
    destruct (pc s) eqn:Hpc; try discriminate Hp; main_cases H;
      unfold set_pc, set_main, set_worker; cbn [pc log0 in_fan_out]; now split.
  - apply step_keeps_log0 in H; [ | discriminate]. destruct H as [Hpc Hlog].
    now rewrite Hpc, Hlog.
Qed.

(** X17. With two or more consumers, [run] itself calls no consumer:
    under any interleaving it stays within the fan-out and its joins, and
    the calls on the consumers are left to the worker threads. *)
Theorem fan_out_run_calls_no_consumer n buf_size ev ret s :
  (1 < n)%nat ->
  reachable (initial n buf_size ev ret) s ->
  in_fan_out (pc s) = true /\ log0 s = [].
Proof.
  intros Hn. induction 1 as [ | s th s' _ IH Hstep].
  - unfold initial. cbn [pc log0].
    destruct (Nat.ltb_spec 1 n); [now split | lia].
  - exact (fan_out_step _ _ _ IH Hstep).
Qed.

(** ** The plugin [rms] behind the reader *)

Lemma last_map {A B} (f : A -> B) l d : last (map f l) (f d) = f (last l d).
Proof.
  induction l as [ | x l IH]; [reflexivity | ].
  destruct l as [ | y l]; [reflexivity | ]. exact IH.
Qed.

Lemma zseq_last n : forall a d, last (zseq a (S n)) d = a + Z.of_nat n.
Proof.
  induction n as [ | n IH]; intros a d; [cbn; lia | ].
  change (zseq a (S (S n))) with (a :: zseq (a + 1) (S n)).
  change (last (a :: zseq (a + 1) (S n)) d) with (last (zseq (a + 1) (S n)) d).
  rewrite IH. lia.
Qed.

Lemma combine_same_length {A B} (l1 : list A) : forall (l2 : list B),
  List.length l2 = List.length l1 ->
  map fst (combine l1 l2) = l1 /\ map snd (combine l1 l2) = l2.
Proof.
  induction l1 as [ | x l1 IH]; intros [ | y l2] H; try discriminate H; [now split | ].
  injection H as H. destruct (IH l2 H) as [H1 H2]. cbn. now rewrite H1, H2.
Qed.

Lemma filter_none {A} (p : A -> bool) l :
  (forall x, In x l -> p x = false) -> filter p l = [].
Proof.
  induction l as [ | x l IH]; intros H; [reflexivity | ]. cbn.
  rewrite (H x (or_introl eq_refl)). apply IH. intros y Hy. apply H. now right.
Qed.

Lemma process_frames_from ds : forall r,
  Rms.data (Rms.process_frames ds r) = Rms.data r ++ map snd ds
  /\ Rms.mean (Rms.process_frames ds r) = fold_left fadd (map snd ds) (Rms.mean r)
  /\ Rms.frame_dups (Rms.process_frames ds r)
     = (Rms.frame_dups r
        + List.length (filter (fun d => (valid_frame (frame_info d) =? 0)%Z)
                         (map fst ds)))%nat.
Proof.
  unfold Rms.process_frames.
  induction ds as [ | [d v] ds IH]; intros r.
  - cbn. rewrite app_nil_r. repeat split. lia.
  - cbn [fold_left map fst snd filter].
    destruct (IH (Rms.process_frame (frame_info d) v r)) as (Hd & Hm & Hf).
    rewrite Hd, Hm, Hf. cbn [Rms.process_frame Rms.data Rms.mean Rms.frame_dups].
    rewrite <- app_assoc. repeat split.
    destruct (valid_frame (frame_info d) =? 0); cbn [List.length]; lia.
Qed.

(** X18. The plugin [rms] behind the reader: given the containers the
    reader publishes, in order, and then the metadata of the last one,
    it duplicates the reference frame exactly once, reports as mean the
    sum of the values divided by the number of frames less one, the
    ordinal of the last frame, and spaces the rows by the time between
    the first and the last frame divided by the same number. *)
Theorem rms_behind_reader io_factory this d0 rest vs r0 :
  sent_of (fst (reader_thread_body io_factory this)) = d0 :: rest ->
  List.length vs = List.length (d0 :: rest) ->
  let ds := d0 :: rest in
  let dl := last ds d0 in
  let n := float_of_int (Z.of_nat (List.length ds) - 1) in
  let r := Rms.process_frames (combine ds vs) (Rms.pre_process r0) in
  Rms.post_process (frame_info dl) r
  = {| Rms.header_mean := fdiv (fold_left fadd vs f0) n;
       Rms.rows := Rms.rows_from 0 (fdiv (fsub (t (frame dl)) (t (frame d0))) n) vs |}
  /\ Rms.frame_dups r = S (Rms.frame_dups r0).
Proof.
  intros Hsent Hlen. cbn zeta.
  destruct (combine_same_length (d0 :: rest) vs Hlen) as [Hfst Hsnd].
  destruct (process_frames_from (combine (d0 :: rest) vs) (Rms.pre_process r0))
    as (Hd & Hm & Hf).
  rewrite Hfst in Hf. rewrite Hsnd in Hd, Hm.
  cbn [Rms.pre_process Rms.data Rms.mean Rms.frame_dups app] in Hd, Hm, Hf.
  destruct (reader_counted io_factory this) as [l' (_ & V & _)].
  rewrite Hsent in V. cbn [l_valid_frame locals0] in V. change (-1 + 1) with 0 in V.
  assert (Hlast : valid_frame (frame_info (last (d0 :: rest) d0))
                  = Z.of_nat (List.length (d0 :: rest)) - 1).
  { rewrite <- (last_map (fun d => valid_frame (frame_info d))), V.
    cbn [List.length]. rewrite zseq_last. lia. }
  assert (Hin : In (last (d0 :: rest) d0) (d0 :: rest)).
  { destruct (exists_last (l := d0 :: rest) ltac:(discriminate)) as [pre [dl E]].
    rewrite E, last_last. apply in_or_app. right. now left. }
  destruct (published_first_and_last io_factory this d0 rest _ Hsent Hin)
    as (_ & Hft & _ & Hlt & Hat & _).
  destruct (published_first_and_last io_factory this d0 rest d0 Hsent
              (or_introl eq_refl)) as (_ & _ & _ & _ & Hat0 & _).
  split.
  - unfold Rms.post_process. rewrite Hd, Hm, Hlast, Hft, Hlt, Hat, Hat0. reflexivity.
  - rewrite Hf. cbn [filter List.length map] in V |- *.
    injection V as V0 Vrest. rewrite V0. cbn [Z.eqb].
    rewrite filter_none; [cbn; lia | ].
    intros d Hd0. apply (in_map (fun d => valid_frame (frame_info d))) in Hd0.
    rewrite Vrest in Hd0. apply zseq_above in Hd0. apply Z.eqb_neq. lia.
Qed.

(** ** The properties at the sample inputs *)

Local Open Scope string_scope.

Lemma is_frame_valid_skip_zero_witness :
  is_frame_valid (sample (-1) (-1) 0 fm1 fm1 []) 0 f0 = Undefined Division_by_zero
  /\ is_frame_valid_documented (sample (-1) (-1) 0 fm1 fm1 []) 0 f0 = true.
Proof.
  apply (is_frame_valid_skip_zero (sample (-1) (-1) 0 fm1 fm1 []) 0 f0);
    reflexivity.
Defined.

Lemma reader_stops_at_end_of_interval_witness :
  let this := sample (-1) 1 (-1) fm1 fm1 ["a.xtc"; "b.xtc"] in
  let ev := fst (reader_thread_body three_frames this) in
  ev = (firstn 6 ev ++ Loaded 2 frame_C :: skipn 7 ev)%list
  /\ is_end_of_interval this 2 (t frame_C) = true
  /\ skipn 7 ev = [Channel_send_stop; Cout Reading_done; Channel_send_stop]
  /\ snd (reader_thread_body three_frames this) = Ok tt.
Proof.
  cbn zeta. split; [reflexivity | ]. split; [reflexivity | ].
  apply (reader_stops_at_end_of_interval three_frames
           (sample (-1) 1 (-1) fm1 fm1 ["a.xtc"; "b.xtc"])
           (firstn 6 (fst (reader_thread_body three_frames
                             (sample (-1) 1 (-1) fm1 fm1 ["a.xtc"; "b.xtc"]))))
           2 frame_C); reflexivity.
Defined.

Lemma reader_counters_witness :
  let ev := fst (reader_thread_body three_frames start_10_step_2) in
  map fst (loaded_of ev) = [0; 1; 2; 3; 4; 5]
  /\ map (fun x => coord (snd x)) (loaded_of ev)
     = map coord [frame_A; frame_B; frame_C; frame_A; frame_B; frame_C]
  /\ map (fun d => valid_frame (frame_info d)) (sent_of ev) = [0; 1; 2; 3; 4; 5].
Proof.
  cbn zeta.
  assert (Hret : snd (reader_thread_body three_frames start_10_step_2) = Ok tt)
    by (vm_compute; reflexivity).
  assert (Hno : ended start_10_step_2
                  (fst (reader_thread_body three_frames start_10_step_2)) = false)
    by (vm_compute; reflexivity).
  destruct (reader_counters three_frames start_10_step_2)
    as (_ & V & _ & _ & _ & _ & Hall).
  rewrite (Hall Hret Hno), V.
  split; [vm_compute; reflexivity | ]. split; vm_compute; reflexivity.
Defined.

Lemma custom_time_overrides_witness :
  let ev := fst (reader_thread_body three_frames start_10_step_2) in
  fge (TP.custom_dt start_10_step_2) f0 = true
  /\ t frame_C = float_of_int 300
  /\ In (5, set_t frame_C (float_of_int 20)) (loaded_of ev)
  /\ forall fr, In (5, fr) (loaded_of ev) -> t fr = float_of_int 20.
Proof.
  cbn zeta.
  assert (Hdt : fge (TP.custom_dt start_10_step_2) f0 = true)
    by (vm_compute; reflexivity).
  assert (Hret : snd (reader_thread_body three_frames start_10_step_2) = Ok tt)
    by (vm_compute; reflexivity).
  assert (Hno : ended start_10_step_2
                  (fst (reader_thread_body three_frames start_10_step_2)) = false)
    by (vm_compute; reflexivity).
  destruct (custom_time_overrides three_frames start_10_step_2 Hdt)
    as (_ & _ & H5 & _ & Hall).
  split; [exact Hdt | ]. split; [reflexivity | ]. split.
  - rewrite (Hall Hret Hno). vm_compute.
    right. right. right. right. right. left. reflexivity.
  - exact (H5 eq_refl eq_refl).
Defined.

(** C4, as stated, fails: with a structure file given, two consumers and
    a range that ends before it starts, [run] throws only after it has
    loaded the structure file into the system of the first consumer and
    copied that system to the second. *)
Lemma invalid_range_fails_after_load :
  configuration_error recognize_by_extension [[]; []] backwards_range
  /\ run recognize_by_extension loads_fine three_frames (-1) [[]; []] backwards_range
     = ([System_clear; System_load "conf.gro"; System_copied 1],
        inl (Last_frame_smaller 2 5))
  /\ ~ fails_before_any_file recognize_by_extension loads_fine three_frames (-1)
         [[]; []] backwards_range.
Proof.
  split; [right; right; reflexivity | ]. split; [reflexivity | ].
  intros (_ & _ & H). discriminate H.
Defined.

Lemma configuration_error_fails_witness :
  configuration_error recognize_by_extension [[]; []] backwards_range
  /\ fails_before_streaming recognize_by_extension loads_fine three_frames (-1)
       [[]; []] backwards_range
  /\ fst (run recognize_by_extension loads_fine three_frames (-1) [[]; []]
            backwards_range)
     = [System_clear; System_load "conf.gro"; System_copied 1].
Proof.
  assert (H : configuration_error recognize_by_extension [[]; []] backwards_range)
    by (right; right; reflexivity).
  split; [exact H | ]. split; [ | reflexivity].
  exact (configuration_error_fails recognize_by_extension loads_fine three_frames
           (-1) [[]; []] backwards_range H).
Defined.

Lemma no_structure_no_topology_is_not_an_error_witness :
  run recognize_by_extension loads_fine three_frames (-1) [[]] only_a_trajectory
  = ([System_clear; Error_not_thrown; Buffer_size_set 10; Reader_thread_started],
     inr (start three_frames
            {| s_this := unset ["traj.xtc"]; s_buf_size := 10; s_systems := [[]] |})).
Proof.
  refine (no_structure_no_topology_is_not_an_error recognize_by_extension loads_fine
            three_frames (-1) [[]] only_a_trajectory _ eq_refl _ _).
  - discriminate.
  - intros s [<- | []]. reflexivity.
  - exists "traj.xtc". split; [now left | reflexivity].
Defined.

Lemma single_consumer_post_process_witness :
  sent_of (fst (reader_thread_body three_frames (s_this all_rejected))) = []
  /\ pc all_rejected_end = Run_undefined Null_dereference
  /\ log0 all_rejected_end = [Pre_process].
Proof.
  destruct (single_consumer_post_process three_frames all_rejected all_rejected_end)
    as [H | [d [H _]]].
  - reflexivity.
  - reflexivity.
  - reflexivity.
  - exact (reachable_run_schedule _ _ _ (reach_start _)).
  - apply can_move_none. vm_compute. reflexivity.
  - exact H.
  - discriminate H.
Defined.

Lemma read_failure_outcome_witness :
  files_loop broken (unset ["traj.xtc"]) ["traj.xtc"] locals0
  = ([Cout (Reading_trajectory "traj.xtc"); Io_factory "traj.xtc"],
     Thrown "read error")
  /\ reader_thread_body broken (unset ["traj.xtc"])
     = ([Cout (Reading_trajectory "traj.xtc"); Io_factory "traj.xtc";
         Channel_send_stop; Cout Reading_stopped; Cout (What "read error")], Ok tt)
  /\ pc broken_end = Run_undefined Null_dereference
  /\ log0 broken_end = [Pre_process].
Proof.
  split; [reflexivity | ].
  destruct (read_failure_outcome broken (unset ["traj.xtc"])
              [Cout (Reading_trajectory "traj.xtc"); Io_factory "traj.xtc"]
              "read error" eq_refl) as (E & H & _).
  split; [exact E | ].
  apply (H 10 broken_end).
  - reflexivity.
  - exact (reachable_run_schedule _ _ _ (reach_start _)).
  - apply can_move_none. vm_compute. reflexivity.
Defined.

(** C5, as stated, fails: with buffers without room for an item the
    reader waits at its first [send] for ever; no thread can move, [run]
    waits in its first loop, and no worker channel has been sent a frame
    or the stop, although the reader has three frames to publish. *)
Lemma fan_out_blocked_without_buffer :
  (2 <= List.length (s_systems abc_blocked))%nat
  /\ List.length (sent_of (fst (reader_thread_body three_frames (s_this abc_blocked))))
     = 3%nat
  /\ reachable (start three_frames abc_blocked) abc_blocked_end
  /\ terminal abc_blocked_end
  /\ pc abc_blocked_end = Fan_recieve
  /\ map (fun w => (sent (w_channel w), stops (w_channel w))) (workers abc_blocked_end)
     = [([], 0%nat); ([], 0%nat); ([], 0%nat)].
Proof.
  split; [cbn; lia | ]. split; [vm_compute; reflexivity | ].
  split; [exact (reachable_run_schedule _ _ _ (reach_start _)) | ].
  split; [apply can_move_none; vm_compute; reflexivity | ].
  split; vm_compute; reflexivity.
Defined.

Lemma fan_out_delivery_witness :
  let published :=
    map Some (sent_of (fst (reader_thread_body three_frames (s_this (abc 3))))) in
  map (fun p => option_map frame (p : Data_ptr)) published
  = [Some frame_A; Some frame_B; Some frame_C]
  /\ pc (abc_end 3) = Run_finished
  /\ List.length (workers (abc_end 3)) = 3%nat
  /\ forall i w, nth_error (workers (abc_end 3)) i = Some w ->
       sent (w_channel w) = published
       /\ taken (w_channel w) = published
       /\ stops (w_channel w) = 1%nat.
Proof.
  cbn zeta. split; [vm_compute; reflexivity | ].
  assert (Hn : (2 <= List.length (s_systems (abc 3)))%nat) by (cbn; lia).
  assert (Hr : reachable (start three_frames (abc 3)) (abc_end 3))
    by exact (reachable_run_schedule _ _ _ (reach_start _)).
  destruct (fan_out_delivery three_frames (abc 3) (abc_end 3) Hn Hr)
    as (_ & _ & _ & _ & H).
  apply H.
  - reflexivity.
  - reflexivity.
  - apply can_move_none. vm_compute. reflexivity.
Defined.

Lemma single_and_fan_out_compared_witness :
  let w0 := hd (new_worker 0) (workers all_rejected_fan_end) in
  sent_of (fst (reader_thread_body three_frames (s_this all_rejected))) = []
  /\ pc all_rejected_end = Run_undefined Null_dereference
  /\ log0 all_rejected_end = [Pre_process]
  /\ pc all_rejected_fan_end = Run_finished
  /\ w_log w0 = [Pre_process; Post_process None].
Proof.
  cbn zeta.
  assert (Hnil : sent_of (fst (reader_thread_body three_frames (s_this all_rejected)))
                 = []) by (vm_compute; reflexivity).
  assert (Hw : nth_error (workers all_rejected_fan_end) 0
               = Some (hd (new_worker 0) (workers all_rejected_fan_end))).
  { assert (Hlen : List.length (workers all_rejected_fan_end) = 2%nat)
      by (vm_compute; reflexivity).
    destruct (workers all_rejected_fan_end); [discriminate Hlen | reflexivity]. }
  assert (Hret : snd (reader_thread_body three_frames (s_this all_rejected)) = Ok tt)
    by (vm_compute; reflexivity).
  assert (Ht1 : terminal all_rejected_end)
    by (apply can_move_none; vm_compute; reflexivity).
  assert (Ht2 : terminal all_rejected_fan_end)
    by (apply can_move_none; vm_compute; reflexivity).
  destruct (single_and_fan_out_compared three_frames (s_this all_rejected) 10 10
              all_rejected_end all_rejected_fan_end
              (hd (new_worker 0) (workers all_rejected_fan_end))
              eq_refl eq_refl Hret
              (reachable_run_schedule _ _ _ (reach_start _)) Ht1
              (reachable_run_schedule _ _ _ (reach_start _)) Ht2 Hw)
    as (Hpc2 & _ & Hm).
  rewrite Hnil in Hm. destruct Hm as (Hpc1 & Hlog1 & Hlog2).
  split; [exact Hnil | ]. split; [exact Hpc1 | ]. split; [exact Hlog1 | ].
  split; [exact Hpc2 | exact Hlog2].
Defined.

Local Close Scope string_scope.

(** ** The further properties at the sample inputs *)

Local Open Scope string_scope.

Lemma published_within_window_witness :
  let d := published three_frames only_frame_1 0 in
  In d (sent_of (fst (reader_thread_body three_frames only_frame_1)))
  /\ 1 <= absolute_frame (frame_info d) <= 1.
Proof.
  cbn zeta.
  assert (H : In (published three_frames only_frame_1 0)
                (sent_of (fst (reader_thread_body three_frames only_frame_1))))
    by (vm_compute; left; reflexivity).
  split; [exact H | ].
  destruct (published_within_window three_frames only_frame_1 _ H)
    as (_ & Hf & Hl & _).
  split; [apply Hf | apply Hl]; vm_compute; discriminate.
Defined.

Lemma published_metadata_first_and_last_witness :
  let d0 := published three_frames from_frame_2 0 in
  let d := published three_frames from_frame_2 3 in
  sent_of (fst (reader_thread_body three_frames from_frame_2))
  = [d0; published three_frames from_frame_2 1; published three_frames from_frame_2 2; d]
  /\ first_frame (frame_info d) = 2
  /\ first_time (frame_info d) = float_of_int 300
  /\ last_frame (frame_info d) = 5.
Proof.
  cbn zeta.
  assert (H : sent_of (fst (reader_thread_body three_frames from_frame_2))
              = [published three_frames from_frame_2 0;
                 published three_frames from_frame_2 1;
                 published three_frames from_frame_2 2;
                 published three_frames from_frame_2 3])
    by (vm_compute; reflexivity).
  split; [exact H | ].
  destruct (published_metadata_first_and_last three_frames from_frame_2 _ _
              (published three_frames from_frame_2 3) H
              (or_intror (or_intror (or_intror (or_introl eq_refl)))))
    as (Hff & Hft & Hlf & _).
  rewrite Hff, Hft, Hlf. repeat split; vm_compute; reflexivity.
Defined.

Lemma published_on_stride_witness :
  let d := published three_frames every_second 2 in
  In d (sent_of (fst (reader_thread_body three_frames every_second)))
  /\ valid_frame (frame_info d) = 2
  /\ absolute_frame (frame_info d) = 2 * valid_frame (frame_info d).
Proof.
  cbn zeta.
  assert (H : In (published three_frames every_second 2)
                (sent_of (fst (reader_thread_body three_frames every_second))))
    by (vm_compute; right; right; left; reflexivity).
  split; [exact H | ]. split; [vm_compute; reflexivity | ].
  exact (published_on_stride three_frames every_second _ eq_refl eq_refl eq_refl H).
Defined.

Lemma published_from_first_frame_witness :
  let d := published three_frames from_frame_2 1 in
  In d (sent_of (fst (reader_thread_body three_frames from_frame_2)))
  /\ valid_frame (frame_info d) = 1
  /\ absolute_frame (frame_info d) = Z.max 0 2 + valid_frame (frame_info d).
Proof.
  cbn zeta.
  assert (H : In (published three_frames from_frame_2 1)
                (sent_of (fst (reader_thread_body three_frames from_frame_2))))
    by (vm_compute; right; left; reflexivity).
  split; [exact H | ]. split; [vm_compute; reflexivity | ].
  exact (published_from_first_frame three_frames from_frame_2 _ eq_refl eq_refl H).
Defined.


Lemma ordinal_at_most_offset_witness :
  let d := published three_frames from_frame_2 1 in
  In d (sent_of (fst (reader_thread_body three_frames from_frame_2)))
  /\ 0 <= valid_frame (frame_info d) <= absolute_frame (frame_info d) - Z.max 0 2.
Proof.
  cbn zeta.
  assert (H : In (published three_frames from_frame_2 1)
                (sent_of (fst (reader_thread_body three_frames from_frame_2))))
    by (vm_compute; right; left; reflexivity).
  split; [exact H | ].
  exact (ordinal_at_most_offset three_frames from_frame_2 _ H).
Defined.

Lemma reading_bounded_by_last_frame_witness :
  0 <= TP.last_frame up_to_frame_1
  /\ List.length (loaded_of (fst (reader_thread_body three_frames up_to_frame_1)))
     = 3%nat
  /\ Z.of_nat (List.length
                 (loaded_of (fst (reader_thread_body three_frames up_to_frame_1))))
     <= 1 + 2.
Proof.
  assert (H : 0 <= TP.last_frame up_to_frame_1) by (vm_compute; discriminate).
  split; [exact H | ]. split; [vm_compute; reflexivity | ].
  exact (proj1 (reading_bounded_by_last_frame three_frames up_to_frame_1 H)).
Defined.

Lemma sort_files_result_witness :
  sort_files recognize_by_extension full_command_line EmptyString EmptyString []
  = inr ("conf.gro", "top.pttop", two_files)
  /\ two_files = of_class recognize_by_extension is_trajectory full_command_line
  /\ named_of_class recognize_by_extension is_structure full_command_line
     = kept "conf.gro"
  /\ named_of_class recognize_by_extension is_topology full_command_line
     = kept "top.pttop".
Proof.
  assert (H : sort_files recognize_by_extension full_command_line
                EmptyString EmptyString []
              = inr ("conf.gro", "top.pttop", two_files))
    by (vm_compute; reflexivity).
  split; [exact H | ].
  exact (sort_files_result recognize_by_extension full_command_line
           "conf.gro" "top.pttop" two_files H).
Defined.

Lemma run_error_reason_witness :
  snd (run recognize_by_extension conf_missing three_frames (-1) [[]] backwards_range)
  = inl (Thrown_by_load "Can't open GRO file")
  /\ error_condition recognize_by_extension conf_missing [[]] backwards_range
       (Thrown_by_load "Can't open GRO file").
Proof.
  assert (H : snd (run recognize_by_extension conf_missing three_frames (-1) [[]]
                     backwards_range)
              = inl (Thrown_by_load "Can't open GRO file"))
    by (vm_compute; reflexivity).
  split; [exact H | ].
  exact (run_error_reason recognize_by_extension conf_missing three_frames (-1) [[]]
           backwards_range (Thrown_by_load "Can't open GRO file") H).
Defined.

Lemma run_opens_trajectories_in_order_witness :
  snd (run recognize_by_extension loads_fine three_frames (-1) [[]]
         only_a_trajectory)
  = inr streaming_one
  /\ exists k,
       opened_of (reader streaming_one)
       = firstn k (of_class recognize_by_extension is_trajectory
                     (trajectory only_a_trajectory)).
Proof.
  assert (H : snd (run recognize_by_extension loads_fine three_frames (-1) [[]]
         only_a_trajectory)
              = inr streaming_one) by (vm_compute; reflexivity).
  split; [exact H | ].
  exact (run_opens_trajectories_in_order recognize_by_extension loads_fine
           three_frames (-1) [[]] only_a_trajectory streaming_one H).
Defined.

Lemma run_loads_structure_then_topology_witness :
  let r := run_prologue recognize_by_extension loads_fine (-1) [[]; []]
             topology_first in
  snd r = inr streaming_two
  /\ loads_of (fst r) = ["conf.gro"; "top.pttop"]
  /\ s_systems streaming_two = [["conf.gro"; "top.pttop"]; ["conf.gro"; "top.pttop"]].
Proof.
  cbn zeta.
  assert (H : run_prologue recognize_by_extension loads_fine (-1) [[]; []]
                topology_first
              = (fst (run_prologue recognize_by_extension loads_fine (-1) [[]; []]
                        topology_first),
                 inr streaming_two)) by (vm_compute; reflexivity).
  split; [vm_compute; reflexivity | ].
  destruct (run_loads_structure_then_topology recognize_by_extension loads_fine (-1)
              [[]; []] topology_first _ streaming_two H) as [Hl Hs].
  split; [rewrite Hl | rewrite Hs]; vm_compute; reflexivity.
Defined.

Lemma run_finishes_after_joins_witness :
  pc (abc_end 2) = Run_finished
  /\ reader (abc_end 2) = []
  /\ snd (reader_thread_body three_frames (unset ["traj.xtc"])) = Ok tt
  /\ Forall (fun w => w_pc w = W_returned) (workers (abc_end 2)).
Proof.
  assert (Hpc : pc (abc_end 2) = Run_finished) by (vm_compute; reflexivity).
  assert (Hr : reachable
                 (initial 2 2 (fst (reader_thread_body three_frames (unset ["traj.xtc"])))
                    (snd (reader_thread_body three_frames (unset ["traj.xtc"]))))
                 (abc_end 2))
    by exact (reachable_run_schedule _ _ _ (reach_start _)).
  split; [exact Hpc | ].
  exact (run_finishes_after_joins 2 2 _ _ (abc_end 2) Hr Hpc).
Defined.

Lemma single_consumer_hooks_in_order_witness :
  (1 <= 1)%nat /\ hooks_in_order (abc_end 1).
Proof.
  assert (Hr : reachable
                 (initial 1 2 (fst (reader_thread_body three_frames (unset ["traj.xtc"])))
                    (snd (reader_thread_body three_frames (unset ["traj.xtc"]))))
                 (abc_end 1))
    by exact (reachable_run_schedule _ _ _ (reach_start _)).
  split; [exact (le_n 1) | ].
  exact (single_consumer_hooks_in_order 1 2 _ _ (abc_end 1) (le_n 1) Hr).
Defined.

Lemma fan_out_run_calls_no_consumer_witness :
  (1 < 3)%nat /\ in_fan_out (pc (abc_end 3)) = true /\ log0 (abc_end 3) = [].
Proof.
  assert (Hn : (1 < 3)%nat) by (repeat constructor).
  assert (Hr : reachable
                 (initial 3 2 (fst (reader_thread_body three_frames (unset ["traj.xtc"])))
                    (snd (reader_thread_body three_frames (unset ["traj.xtc"]))))
                 (abc_end 3))
    by exact (reachable_run_schedule _ _ _ (reach_start _)).
  split; [exact Hn | ].
  exact (fan_out_run_calls_no_consumer 3 2 _ _ (abc_end 3) Hn Hr).
Defined.

Lemma rms_behind_reader_witness :
  let this := unset ["traj.xtc"] in
  let ds := [published three_frames this 0; published three_frames this 1;
             published three_frames this 2] in
  let r := Rms.process_frames (combine ds three_values) (Rms.pre_process fresh_rms) in
  sent_of (fst (reader_thread_body three_frames this)) = ds
  /\ Rms.header_mean (Rms.post_process (frame_info (published three_frames this 2)) r)
     = float_of_int 3
  /\ Rms.frame_dups r = 1%nat.
Proof.
  cbn zeta.
  assert (H : sent_of (fst (reader_thread_body three_frames (unset ["traj.xtc"])))
              = [published three_frames (unset ["traj.xtc"]) 0;
                 published three_frames (unset ["traj.xtc"]) 1;
                 published three_frames (unset ["traj.xtc"]) 2])
    by (vm_compute; reflexivity).
  split; [exact H | ].
  destruct (rms_behind_reader three_frames (unset ["traj.xtc"]) _ _ three_values
              fresh_rms H eq_refl) as [E D].
  split; [ | exact D].
  cbn [last] in E. rewrite E. vm_compute. reflexivity.
Defined.

Local Close Scope string_scope.
